(** * Simon game backend: game logic and room codes

    A shallow embedding of the pure game logic of the backend
    ([colorRaceLogic], [simonLogic] and [utils/gameCode.ts]) together with
    the properties the design document states about it, followed by
    further properties of the same code and of the settings store of the
    front end ([store/settingsStore.ts]).

    Conventions of the embedding.
    - A TypeScript [number] that holds a round, a score, an index, a
      timeout or a timestamp is an integer of [Z]; fractional values, NaN
      and infinities are outside the model.
    - [T | null] is [option T]; reading a missing property or an array slot
      out of range gives [undefined], modelled by [None] as well.
    - A [Record<string, V>] is a JavaScript object used as a map: an
      association list of its own properties, kept in the order in which
      [Object.keys] enumerates them. The code reads these objects with
      [o[k]], which also finds what every object inherits from
      [Object.prototype] ([toString], [constructor], [__proto__], ...).
      The model follows the code at every key that is an own property or
      is not such a name ([JsObject.plainKey]); at an inherited name that
      is not an own property the code leaves the declared types (it
      stores a text as a score, a player state without id) and the
      model does not follow it. The properties that depend on such reads
      say so in a hypothesis.
    - [Math.random] reads an explicit random source that is threaded
      through every function that draws from it. *)

From Stdlib Require Import ZArith NArith List String Ascii Bool Lia.
From Stdlib Require Import Sorted Permutation.
From stdpp Require Import base decidable option list strings gmap.
Import ListNotations.

Local Open Scope string_scope.
Local Open Scope list_scope.
Local Open Scope Z_scope.

(** ** JavaScript objects used as string-keyed records *)

Module JsObject.

(** The decimal value of a digit character. *)
Definition digit (c : ascii) : option N :=
  let n := N_of_ascii c in
  if ((48 <=? n) && (n <=? 57))%N then Some (n - 48)%N else None.

Fixpoint digits (s : string) (acc : N) : option N :=
  match s with
  | EmptyString => Some acc
  | String c s' =>
      match digit c with
      | Some d => digits s' (acc * 10 + d)%N
      | None => None
      end
  end.

(** A property key is an array index when it is the canonical decimal
    spelling of an integer below [2^32 - 1]. Such keys are enumerated
    first, in ascending numeric order. *)
Definition array_index (k : string) : option N :=
  match k with
  | EmptyString => None
  | String c rest =>
      if Ascii.eqb c "0"%char
      then (match rest with EmptyString => Some 0%N | _ => None end)
      else match digits k 0 with
           | Some n => if (n <? 2 ^ 32 - 1)%N then Some n else None
           | None => None
           end
  end.

Definition Obj (V : Type) : Type := list (string * V).

(** The properties every object inherits from [Object.prototype]. *)
Definition inheritedNames : list string :=
  [ "constructor"; "__defineGetter__"; "__defineSetter__";
    "hasOwnProperty"; "__lookupGetter__"; "__lookupSetter__";
    "isPrototypeOf"; "propertyIsEnumerable"; "toString"; "valueOf";
    "__proto__"; "toLocaleString" ].

Definition inherited (k : string) : bool :=
  existsb (String.eqb k) inheritedNames.

(** A key under which an object without such an own property holds
    nothing: [({})[k] === undefined]. *)
Definition ordinary (k : string) : Prop := inherited k = false.

Section Ops.
Context {V : Type}.

(** [o[k]] for an own property, [None] without one. For a key that is
    not an own property the code's [o[k]] goes on to [Object.prototype]:
    it is [undefined] for an [ordinary] key and a function, or the
    prototype itself for [__proto__], for an inherited name, which makes
    guards such as [if (o[k])] and [o[k] || 0] take that value for a
    property. *)
Fixpoint get (o : Obj V) (k : string) : option V :=
  match o with
  | [] => None
  | (k', v) :: o' => if decide (k' = k) then Some v else get o' k
  end.

(** The keys at which [get o k] is the code's [o[k]], and [set o k v]
    the code's [o[k] = v]: own properties and ordinary keys. *)
Definition plainKey (o : Obj V) (k : string) : bool :=
  match get o k with
  | Some _ => true
  | None => negb (inherited k)
  end.

(** Assignment to a property that exists keeps its place. *)
Fixpoint overwrite (o : Obj V) (k : string) (v : V) : Obj V :=
  match o with
  | [] => []
  | (k', v') :: o' =>
      if decide (k' = k) then (k', v) :: o'
      else (k', v') :: overwrite o' k v
  end.

(** A new array-index key goes before the first key that is not a
    smaller array index. *)
Fixpoint insert_index (o : Obj V) (n : N) (k : string) (v : V) : Obj V :=
  match o with
  | [] => [(k, v)]
  | (k', v') :: o' =>
      match array_index k' with
      | Some m =>
          if (m <? n)%N then (k', v') :: insert_index o' n k v
          else (k, v) :: o
      | None => (k, v) :: o
      end
  end.

(** Creation of a property: array indices in numeric position, every
    other key after all existing ones. *)
Definition define (o : Obj V) (k : string) (v : V) : Obj V :=
  match array_index k with
  | Some n => insert_index o n k v
  | None => o ++ [(k, v)]
  end.

(** [o[k] = v]. The code's assignment differs at one key: without an own
    property [__proto__], [o["__proto__"] = v] creates none (it replaces
    the prototype of [o] when [v] is an object and does nothing
    otherwise). *)
Definition set (o : Obj V) (k : string) (v : V) : Obj V :=
  match get o k with
  | Some _ => overwrite o k v
  | None => define o k v
  end.

(** [Object.keys(o)], [Object.values(o)], [Object.entries(o)] *)
Definition keys (o : Obj V) : list string := map fst o.
Definition values (o : Obj V) : list V := map snd o.
Definition entries (o : Obj V) : list (string * V) := o.

(** [{ ...o }] *)
Definition spread (o : Obj V) : Obj V := o.

(** An object holds each key once. *)
Definition wf (o : Obj V) : Prop := NoDup (keys o).
End Ops.

End JsObject.

(** ** Arrays: [Array.prototype.sort] *)

Module JsArray.

Section Sort.
Context {A : Type} (compare : A -> A -> Z).

(** [x] goes after the elements the comparison puts before it, and
    before the first element it does not have to follow. *)
Fixpoint insertSorted (x : A) (l : list A) : list A :=
  match l with
  | [] => [x]
  | y :: l' => if 0 <? compare x y then y :: insertSorted x l' else x :: l
  end.

(** [l.sort(compare)]. The language fixes the result (the elements in
    the order of the comparison, equal ones in the order they had) and
    leaves the algorithm open; this one is insertion sort. *)
Fixpoint sort (l : list A) : list A :=
  match l with
  | [] => []
  | x :: l' => insertSorted x (sort l')
  end.
End Sort.

(** [l.map((x, index) => f(x, index))], with [index] counted from
    [start]. *)
Fixpoint mapIndexed {A B : Type} (f : A -> Z -> B) (start : Z) (l : list A)
    : list B :=
  match l with
  | [] => []
  | x :: l' => f x start :: mapIndexed f (start + 1) l'
  end.

End JsArray.

(** ** Strings of ASCII characters

    The string methods below are the JavaScript ones on text made of
    ASCII characters; other characters are outside the model. *)

Module JsString.

Definition isAsciiChar (c : ascii) : bool := (N_of_ascii c <? 128)%N.

Definition isAscii (s : string) : Prop :=
  Forall (fun c => isAsciiChar c = true) (list_ascii_of_string s).

(** The ASCII characters that [trim] removes and [\s] matches: tab, line
    feed, vertical tab, form feed, carriage return and space. *)
Definition isWhiteSpace (c : ascii) : bool :=
  let n := N_of_ascii c in
  ((n =? 9) || (n =? 10) || (n =? 11) || (n =? 12) || (n =? 13)
   || (n =? 32))%N.

Fixpoint trimStart (s : string) : string :=
  match s with
  | EmptyString => EmptyString
  | String c s' => if isWhiteSpace c then trimStart s' else s
  end.

Fixpoint trimEnd (s : string) : string :=
  match s with
  | EmptyString => EmptyString
  | String c s' =>
      match trimEnd s' with
      | EmptyString => if isWhiteSpace c then EmptyString
                       else String c EmptyString
      | t => String c t
      end
  end.

(** [s.trim()] *)
Definition trim (s : string) : string := trimEnd (trimStart s).

(** A text that does not begin with white space. *)
Definition startsClean (s : string) : Prop :=
  match s with
  | EmptyString => True
  | String c _ => isWhiteSpace c = false
  end.

Fixpoint mapChars (f : ascii -> ascii) (s : string) : string :=
  match s with
  | EmptyString => EmptyString
  | String c s' => String (f c) (mapChars f s')
  end.

Definition upperChar (c : ascii) : ascii :=
  let n := N_of_ascii c in
  if ((97 <=? n) && (n <=? 122))%N then ascii_of_N (n - 32) else c.

Definition lowerChar (c : ascii) : ascii :=
  let n := N_of_ascii c in
  if ((65 <=? n) && (n <=? 90))%N then ascii_of_N (n + 32) else c.

(** [s.toUpperCase()], [s.toLowerCase()] *)
Definition toUpperCase (s : string) : string := mapChars upperChar s.
Definition toLowerCase (s : string) : string := mapChars lowerChar s.

(** [s.replace(/c/g, '')] for a single character [c] *)
Fixpoint removeAll (c : ascii) (s : string) : string :=
  match s with
  | EmptyString => EmptyString
  | String d s' =>
      if Ascii.eqb d c then removeAll c s' else String d (removeAll c s')
  end.

(** [s.includes(word)] *)
Fixpoint includes (s word : string) : bool :=
  String.prefix word s ||
  match s with
  | EmptyString => false
  | String _ s' => includes s' word
  end.

(** [/^\s+$/.test(s)] *)
Definition onlyWhiteSpace (s : string) : bool :=
  match s with
  | EmptyString => false
  | _ => forallb isWhiteSpace (list_ascii_of_string s)
  end.

(** [s.slice(from)] and [s.slice(0, to)] for indices within the string *)
Definition sliceFrom (from : nat) (s : string) : string :=
  substring from (String.length s - from) s.
Definition sliceTo (to : nat) (s : string) : string :=
  substring 0 to s.

End JsString.

(** ** The random source behind [Math.random] *)

Module Random.

(** One result of [Math.random()]: the number
    [numer / (numer + slack + 1)], which lies in the interval [0, 1). *)
Record Draw : Type := { numer : N; slack : N }.

(** [Math.floor(r * len)], computed exactly. *)
Definition floor_scaled (r : Draw) (len : nat) : nat :=
  N.to_nat ((numer r * N.of_nat len) / (numer r + slack r + 1)).

(** The results of the successive calls, and the number of calls made
    so far. *)
Record Source : Type := { draws : nat -> Draw; position : nat }.

Definition Math_random (src : Source) : Draw * Source :=
  (draws src (position src),
   {| draws := draws src; position := S (position src) |}).

(** The source after [n] more calls. *)
Definition advance (n : nat) (src : Source) : Source :=
  {| draws := draws src; position := (n + position src)%nat |}.

End Random.

(** ** Shared game types *)

Inductive Color : Type := red | blue | yellow | green.

#[global] Instance Color_eq_dec : EqDecision Color.
Proof. solve_decision. Defined.

Definition COLORS : list Color := [red; blue; yellow; green].

(** [COLORS[i]]. The index always comes from
    [Math.floor(Math.random() * COLORS.length)], which is in range (lemma
    [random_color_index_in_range]), so the fallback is never taken. *)
Definition COLORS_at (i : nat) : Color := nth i COLORS red.

(** The fields of [Player] the game logic reads or the tests set. *)
Record Player : Type := {
  id : string;
  displayName : string;
  avatarId : string;
  isHost : bool;
  connected : bool
}.

(** ** Color Race: first correct answer wins the round *)

Module ColorRace.

Inductive ColorRacePhase : Type :=
| waiting | countdown | showing_color | round_result | finished.

Record ColorRaceGameState : Type := {
  phase : ColorRacePhase;
  currentColor : option Color;
  round : Z;
  totalRounds : Z;
  scores : JsObject.Obj Z;
  roundWinner : option string
}.

Record PlayerAnswer : Type := {
  playerId : string;
  color : Color;
  timestamp : Z
}.

Definition TOTAL_ROUNDS : Z := 5.

Definition getRandomColor (src : Random.Source) : Color * Random.Source :=
  let (r, src') := Random.Math_random src in
  let randomIndex := Random.floor_scaled r (length COLORS) in
  (COLORS_at randomIndex, src').

(** The assignment [scores[player.id] = 0] creates a property for every
    id but [__proto__] (see [JsObject.set]). *)
Definition initializeColorRaceGame (players : list Player)
    (src : Random.Source) : ColorRaceGameState * Random.Source :=
  let scores :=
    fold_left (fun acc player => JsObject.set acc (id player) 0) players []
  in
  let (c, src') := getRandomColor src in
  ({| phase := showing_color;
      currentColor := Some c;
      round := 1;
      totalRounds := TOTAL_ROUNDS;
      scores := scores;
      roundWinner := None |}, src').

(** [answer.color === gameState.currentColor] *)
Definition validateAnswer (gameState : ColorRaceGameState)
    (answer : PlayerAnswer) : bool :=
  bool_decide (Some (color answer) = currentColor gameState).

Definition advanceToNextRound (gameState : ColorRaceGameState)
    (roundWinnerId : option string) (src : Random.Source)
    : ColorRaceGameState * Random.Source :=
  let isLastRound := totalRounds gameState <=? round gameState in
  if isLastRound then
    ({| phase := finished;
        currentColor := None;
        round := round gameState;
        totalRounds := totalRounds gameState;
        scores := scores gameState;
        roundWinner := roundWinnerId |}, src)
  else
    let (c, src') := getRandomColor src in
    ({| phase := showing_color;
        currentColor := Some c;
        round := round gameState + 1;
        totalRounds := totalRounds gameState;
        scores := scores gameState;
        roundWinner := roundWinnerId |}, src').

(** The callback of the [reduce] that looks for the lowest timestamp. *)
Definition faster (prev current : PlayerAnswer) : PlayerAnswer :=
  if timestamp current <? timestamp prev then current else prev.

Definition withScores (gameState : ColorRaceGameState)
    (newScores : JsObject.Obj Z) : ColorRaceGameState :=
  {| phase := phase gameState;
     currentColor := currentColor gameState;
     round := round gameState;
     totalRounds := totalRounds gameState;
     scores := newScores;
     roundWinner := roundWinner gameState |}.

(** [newScores[id] || 0] is the score of [id], or 0 without one, at
    every [JsObject.plainKey] of the scores. At an inherited name
    without a score the code reads a function or an object instead, and
    stores a text ([constructor], [toString], ...) or nothing
    ([__proto__]). *)
Definition processRound (gameState : ColorRaceGameState)
    (answers : list PlayerAnswer) (src : Random.Source)
    : ColorRaceGameState * Random.Source :=
  let correctAnswers :=
    List.filter
      (fun answer => bool_decide (Some (color answer) = currentColor gameState))
      answers in
  match correctAnswers with
  | [] => advanceToNextRound gameState None src
  | first :: rest =>
      let fastest := fold_left faster rest first in
      let newScores := JsObject.spread (scores gameState) in
      let newScores :=
        JsObject.set newScores (playerId fastest)
          (default 0 (JsObject.get newScores (playerId fastest)) + 1) in
      advanceToNextRound (withScores gameState newScores)
        (Some (playerId fastest)) src
  end.

Record Winner : Type := { winnerId : string; winnerScore : Z }.

(** The body of the [forEach] over the player ids; the accumulator is
    the pair of the local variables [maxScore] and [winnerId]. *)
Definition higherScore (scores : JsObject.Obj Z) (acc : Z * string)
    (playerId : string) : Z * string :=
  let (maxScore, winnerId) := acc in
  match JsObject.get scores playerId with
  | Some score =>
      if maxScore <? score then (score, playerId) else (maxScore, winnerId)
  | None => (maxScore, winnerId)
  end.

Definition determineWinner (gameState : ColorRaceGameState)
    : option Winner :=
  let scores := scores gameState in
  let playerIds := JsObject.keys scores in
  if (length playerIds =? 0)%nat then None
  else
    let (maxScore, winnerId) :=
      fold_left (higherScore scores) playerIds (-1, "") in
    Some {| winnerId := winnerId; winnerScore := maxScore |}.

(** An answer with the colour on display. *)
Definition isCorrect (gameState : ColorRaceGameState)
    (answer : PlayerAnswer) : Prop :=
  Some (color answer) = currentColor gameState.

(** [a] is the first answer of the list among the correct answers with
    the lowest timestamp. *)
Definition fastestCorrect (gameState : ColorRaceGameState)
    (answers : list PlayerAnswer) (a : PlayerAnswer) : Prop :=
  exists before after,
    answers = before ++ a :: after /\
    isCorrect gameState a /\
    (forall b, In b before -> isCorrect gameState b ->
               timestamp a < timestamp b) /\
    (forall b, In b after -> isCorrect gameState b ->
               timestamp a <= timestamp b).

(** [k], with score [v], is the first player in enumeration order
    among those with the highest score. *)
Definition topScorer (scores : JsObject.Obj Z) (k : string) (v : Z)
    : Prop :=
  exists before after,
    JsObject.entries scores = before ++ (k, v) :: after /\
    (forall k' v', In (k', v') before -> v' < v) /\
    (forall k' v', In (k', v') after -> v' <= v).

(** Several rounds in a row, each with its list of answers. *)
Fixpoint playRounds (gameState : ColorRaceGameState)
    (rounds : list (list PlayerAnswer)) (src : Random.Source)
    : ColorRaceGameState * Random.Source :=
  match rounds with
  | [] => (gameState, src)
  | answers :: rounds' =>
      let (gameState', src') := processRound gameState answers src in
      playRounds gameState' rounds' src'
  end.

(** The sum of the scores on the board. *)
Definition totalScore (scores : JsObject.Obj Z) : Z :=
  fold_right Z.add 0 (JsObject.values scores).

(** What the board of a game looks like after [played] rounds: every
    player has a score, no score is negative, and the scores add up to
    [played] at most. *)
Definition fairBoard (players : list Player) (played : Z)
    (gameState : ColorRaceGameState) : Prop :=
  JsObject.wf (scores gameState) /\
  (forall p, In p players ->
             exists v, JsObject.get (scores gameState) (id p) = Some v) /\
  Forall (fun v => 0 <= v) (JsObject.values (scores gameState)) /\
  totalScore (scores gameState) <= played.

(** The games whose score reads and assignments stay with own
    properties: no player has the id [__proto__], and every answer comes
    from a player of the game or under an id that names nothing
    inherited. *)
Definition plainPlayers (players : list Player) : Prop :=
  ~ In "__proto__" (map id players).

Definition plainAnswers (players : list Player)
    (answers : list PlayerAnswer) : Prop :=
  Forall (fun a => In (playerId a) (map id players) \/
                   JsObject.ordinary (playerId a))
         answers.

End ColorRace.

(** ** Color Race: the leaderboard *)

Module Leaderboard.

Record Entry : Type := { playerId : string; score : Z }.

(** [{ ...entry, rank }]: an entry together with its rank. *)
Record RankedEntry : Type := {
  ranked : Entry;
  rank : Z
}.

(** The comparison handed to [sort]: [b.score - a.score]. *)
Definition byScoreDescending (a b : Entry) : Z := score b - score a.

Definition getLeaderboard (gameState : ColorRace.ColorRaceGameState)
    : list RankedEntry :=
  let entries :=
    JsArray.sort byScoreDescending
      (map (fun entry => {| playerId := fst entry; score := snd entry |})
           (JsObject.entries (ColorRace.scores gameState))) in
  JsArray.mapIndexed
    (fun entry index => {| ranked := entry; rank := index + 1 |})
    0 entries.

(** [a] may stand above [b] on the leaderboard. *)
Definition notBelow (a b : Entry) : Prop := score b <= score a.

(** The entries with a given score, in the order of the list. *)
Definition withScore (v : Z) (l : list Entry) : list Entry :=
  List.filter (fun e => score e =? v) l.

End Leaderboard.

(** ** Simon: repeat a growing sequence, last player standing wins *)

Module Simon.

Inductive SimonPhase : Type :=
| waiting | countdown | showing_sequence | player_input
| round_result | elimination | finished.

Inductive SimonPlayerStatus : Type := playing | eliminated | spectating.

#[global] Instance SimonPlayerStatus_eq_dec : EqDecision SimonPlayerStatus.
Proof. solve_decision. Defined.

Record SimonPlayerState : Type := {
  playerId : string;
  status : SimonPlayerStatus;
  currentInputIndex : Z;
  eliminatedAtRound : option Z
}.

Record SimonGameState : Type := {
  phase : SimonPhase;
  sequence : list Color;
  round : Z;
  playerStates : JsObject.Obj SimonPlayerState;
  currentShowingIndex : Z;
  timeoutMs : Z;
  winnerId : option string
}.

Definition INITIAL_SEQUENCE_LENGTH : Z := 1.
Definition INITIAL_TIMEOUT_MS : Z := 5000.
Definition TIMEOUT_DECREMENT_MS : Z := 250.
Definition MIN_TIMEOUT_MS : Z := 1500.

(** [sequence[i]]: [undefined] outside of the array. *)
Definition at_index (sequence : list Color) (i : Z) : option Color :=
  if i <? 0 then None else nth_error sequence (Z.to_nat i).

(** The [for] loop of [generateSequence], with [n] iterations left. *)
Fixpoint generateSequence_loop (n : nat) (sequence : list Color)
    (src : Random.Source) : list Color * Random.Source :=
  match n with
  | O => (sequence, src)
  | S n' =>
      let (r, src') := Random.Math_random src in
      let randomIndex := Random.floor_scaled r (length COLORS) in
      generateSequence_loop n' (sequence ++ [COLORS_at randomIndex]) src'
  end.

Definition generateSequence (length : Z) (src : Random.Source)
    : list Color * Random.Source :=
  generateSequence_loop (Z.to_nat length) [] src.

Definition extendSequence (currentSequence : list Color)
    (src : Random.Source) : list Color * Random.Source :=
  let (r, src') := Random.Math_random src in
  let randomIndex := Random.floor_scaled r (length COLORS) in
  (currentSequence ++ [COLORS_at randomIndex], src').

(** The assignment [playerStates[player.id] = ...] creates a property
    for every id but [__proto__] (see [JsObject.set]). *)
Definition initializeSimonGame (players : list Player)
    (src : Random.Source) : SimonGameState * Random.Source :=
  let playerStates :=
    fold_left
      (fun acc player =>
         JsObject.set acc (id player)
           {| playerId := id player;
              status := playing;
              currentInputIndex := 0;
              eliminatedAtRound := None |})
      players [] in
  let (initialSequence, src') :=
    generateSequence INITIAL_SEQUENCE_LENGTH src in
  ({| phase := showing_sequence;
      sequence := initialSequence;
      round := 1;
      playerStates := playerStates;
      currentShowingIndex := 0;
      timeoutMs := INITIAL_TIMEOUT_MS;
      winnerId := None |}, src').

Definition validateInput (gameState : SimonGameState) (playerId : string)
    (color : Color) (inputIndex : Z) : bool :=
  match JsObject.get (playerStates gameState) playerId with
  | None => false
  | Some playerState =>
      if negb (currentInputIndex playerState =? inputIndex) then false
      else
        let expectedColor := at_index (sequence gameState) inputIndex in
        bool_decide (Some color = expectedColor)
  end.

Definition resetInput (state : SimonPlayerState) : SimonPlayerState :=
  {| playerId := playerId state;
     status := status state;
     currentInputIndex := 0;
     eliminatedAtRound := eliminatedAtRound state |}.

Definition withPlayerStates (gameState : SimonGameState)
    (updated : JsObject.Obj SimonPlayerState) : SimonGameState :=
  {| phase := phase gameState;
     sequence := sequence gameState;
     round := round gameState;
     playerStates := updated;
     currentShowingIndex := currentShowingIndex gameState;
     timeoutMs := timeoutMs gameState;
     winnerId := winnerId gameState |}.

Definition advanceToNextRound (gameState : SimonGameState)
    (src : Random.Source) : SimonGameState * Random.Source :=
  let (newSequence, src') := extendSequence (sequence gameState) src in
  let newTimeout :=
    Z.max MIN_TIMEOUT_MS (timeoutMs gameState - TIMEOUT_DECREMENT_MS) in
  let updatedPlayerStates :=
    fold_left
      (fun acc entry => JsObject.set acc (fst entry) (resetInput (snd entry)))
      (JsObject.entries (playerStates gameState)) [] in
  ({| phase := showing_sequence;
      sequence := newSequence;
      round := round gameState + 1;
      playerStates := updatedPlayerStates;
      currentShowingIndex := 0;
      timeoutMs := newTimeout;
      winnerId := winnerId gameState |}, src').

(** The guard [if (updatedPlayerStates[playerId])] is the test for a
    player state at every [JsObject.plainKey] of the player states. At
    an inherited name without a state the code finds a function (or the
    prototype), takes the branch and stores an entry that has a status
    and a round and nothing else. *)
Definition eliminatePlayer (gameState : SimonGameState) (playerId : string)
    (round : Z) : SimonGameState :=
  let updatedPlayerStates := JsObject.spread (playerStates gameState) in
  let updatedPlayerStates :=
    match JsObject.get updatedPlayerStates playerId with
    | Some state =>
        JsObject.set updatedPlayerStates playerId
          {| playerId := Simon.playerId state;
             status := eliminated;
             currentInputIndex := currentInputIndex state;
             eliminatedAtRound := Some round |}
    | None => updatedPlayerStates
    end in
  withPlayerStates gameState updatedPlayerStates.

Definition isPlaying (state : SimonPlayerState) : bool :=
  bool_decide (status state = playing).

Definition shouldGameEnd (gameState : SimonGameState) : bool :=
  let activePlayers :=
    List.filter isPlaying (JsObject.values (playerStates gameState)) in
  (length activePlayers <=? 1)%nat.

(** The body of the [forEach] of [getWinner]; the accumulator is the
    pair of the local variables [lastEliminatedRound], [lastPlayerId]. *)
Definition laterEliminated (acc : Z * option string)
    (state : SimonPlayerState) : Z * option string :=
  let (lastEliminatedRound, lastPlayerId) := acc in
  match eliminatedAtRound state with
  | Some r =>
      if lastEliminatedRound <? r then (r, Some (playerId state))
      else (lastEliminatedRound, lastPlayerId)
  | None => (lastEliminatedRound, lastPlayerId)
  end.

Definition getWinner (gameState : SimonGameState) : option string :=
  let activePlayers :=
    List.filter isPlaying (JsObject.values (playerStates gameState)) in
  match activePlayers with
  | [only] => Some (playerId only)
  | [] =>
      snd (fold_left laterEliminated
             (JsObject.values (playerStates gameState)) (-1, None))
  | _ => None
  end.

Definition getActivePlayerCount (gameState : SimonGameState) : nat :=
  length (List.filter isPlaying (JsObject.values (playerStates gameState))).

(** The guard is the one of [eliminatePlayer]: at an inherited name
    without a state the code stores an entry whose only property is a
    [currentInputIndex] that is not a number. *)
Definition updatePlayerProgress (gameState : SimonGameState)
    (playerId : string) : SimonGameState :=
  let updatedPlayerStates := JsObject.spread (playerStates gameState) in
  let updatedPlayerStates :=
    match JsObject.get updatedPlayerStates playerId with
    | Some state =>
        JsObject.set updatedPlayerStates playerId
          {| playerId := Simon.playerId state;
             status := status state;
             currentInputIndex := currentInputIndex state + 1;
             eliminatedAtRound := eliminatedAtRound state |}
    | None => updatedPlayerStates
    end in
  withPlayerStates gameState updatedPlayerStates.

(** *** Runs of a game

    The program offers the operations above to its caller; a run is a
    sequence of them starting from [initializeSimonGame]. The caller's
    input handling applies [updatePlayerProgress] only after
    [validateInput] has returned [true] and otherwise leaves the state
    alone. *)
Definition applyValidatedInput (gameState : SimonGameState)
    (playerId : string) (color : Color) (inputIndex : Z) : SimonGameState :=
  if validateInput gameState playerId color inputIndex
  then updatePlayerProgress gameState playerId
  else gameState.

(** One operation, with progress made through validated inputs only. *)
Inductive validated_step : SimonGameState -> SimonGameState -> Prop :=
| vstep_input s p c i :
    validated_step s (applyValidatedInput s p c i)
| vstep_eliminate s p r :
    validated_step s (eliminatePlayer s p r)
| vstep_advance s src :
    validated_step s (fst (advanceToNextRound s src)).

(** One operation, applied with any arguments. *)
Inductive op_step : SimonGameState -> SimonGameState -> Prop :=
| ostep_progress s p :
    op_step s (updatePlayerProgress s p)
| ostep_eliminate s p r :
    op_step s (eliminatePlayer s p r)
| ostep_advance s src :
    op_step s (fst (advanceToNextRound s src)).

(** The states of the runs whose steps are taken from [step]. *)
Inductive reachable (step : SimonGameState -> SimonGameState -> Prop)
    : SimonGameState -> Prop :=
| reach_init players src :
    reachable step (fst (initializeSimonGame players src))
| reach_step s s' :
    reachable step s -> step s s' -> reachable step s'.

(** One operation whose player id is a [JsObject.plainKey] of the player
    states: a player of the game, or an id that names nothing
    inherited. *)
Inductive plain_step : SimonGameState -> SimonGameState -> Prop :=
| pstep_progress s p :
    JsObject.plainKey (playerStates s) p = true ->
    plain_step s (updatePlayerProgress s p)
| pstep_eliminate s p r :
    JsObject.plainKey (playerStates s) p = true ->
    plain_step s (eliminatePlayer s p r)
| pstep_advance s src :
    plain_step s (fst (advanceToNextRound s src)).

(** The states of the runs of such operations, for players none of whom
    has the id [__proto__]. *)
Inductive plain_run : SimonGameState -> Prop :=
| prun_init players src :
    ~ In "__proto__" (map id players) ->
    plain_run (fst (initializeSimonGame players src))
| prun_step s s' :
    plain_run s -> plain_step s s' -> plain_run s'.

(** Zero or more operations. *)
Inductive op_steps (s : SimonGameState) : SimonGameState -> Prop :=
| osteps_refl : op_steps s s
| osteps_step s' s'' : op_steps s s' -> op_step s' s'' -> op_steps s s''.

(** The two properties of the states of a sequence game. *)
Definition sequenceMatchesRound (s : SimonGameState) : Prop :=
  Z.of_nat (length (sequence s)) = round s.

Definition progressWithinSequence (s : SimonGameState) : Prop :=
  Forall (fun ps => currentInputIndex ps <= Z.of_nat (length (sequence s)))
         (JsObject.values (playerStates s)).

(** The changes of status a player may go through: none, or from
    [playing] to [eliminated] or to [spectating]. *)
Definition statusMove (before after : SimonPlayerStatus) : Prop :=
  after = before \/
  (before = playing /\ (after = eliminated \/ after = spectating)).

(** No player is a spectator. *)
Definition neverSpectating (s : SimonGameState) : Prop :=
  Forall (fun ps => status ps <> spectating)
         (JsObject.values (playerStates s)).

(** The players still in the game, in enumeration order. *)
Definition activePlayers (s : SimonGameState) : list SimonPlayerState :=
  List.filter isPlaying (JsObject.values (playerStates s)).

(** [x], eliminated at round [r], is the first player in enumeration
    order among those eliminated at the highest round. *)
Definition lastEliminated (s : SimonGameState) (x : SimonPlayerState)
    (r : Z) : Prop :=
  exists before after,
    JsObject.values (playerStates s) = before ++ x :: after /\
    eliminatedAtRound x = Some r /\
    (forall y r', In y before -> eliminatedAtRound y = Some r' -> r' < r) /\
    (forall y r', In y after -> eliminatedAtRound y = Some r' -> r' <= r).

(** The state a player starts a game with. *)
Definition freshPlayer (p : Player) : SimonPlayerState :=
  {| playerId := id p; status := playing;
     currentInputIndex := 0; eliminatedAtRound := None |}.

(** The timeout of a round: 5000 ms in round 1, 250 ms less in each
    round after it, and not less than 1500 ms. *)
Definition timeoutOfRound (round : Z) : Z :=
  Z.max MIN_TIMEOUT_MS
        (INITIAL_TIMEOUT_MS - TIMEOUT_DECREMENT_MS * (round - 1)).

(** Each player state is filed under its own id, and a player has a
    round of elimination exactly when its status is [eliminated]. *)
Definition wellKept (s : SimonGameState) : Prop :=
  forall k ps, JsObject.get (playerStates s) k = Some ps ->
    playerId ps = k /\
    (status ps = playing /\ eliminatedAtRound ps = None \/
     status ps = eliminated /\ exists r, eliminatedAtRound ps = Some r).

End Simon.

(** ** Room codes *)

Module GameCode.

Definition GAME_CODE_CHARS : string := "ABCDEFGHJKMNPQRSTUVWXYZ23456789".

(** Modelled from the spec: [PLATFORM_CONSTANTS.GAME_CODE_LENGTH] is
    declared in the platform types, which are not part of the sources at
    hand; the design document fixes room codes at 6 characters. *)
Definition GAME_CODE_LENGTH : nat := 6.

(** [code += chars[i]]; a missing character would append the text of
    [undefined]. *)
Definition append_char_at (code chars : string) (i : nat) : string :=
  match String.get i chars with
  | Some c => (code ++ String c EmptyString)%string
  | None => (code ++ "undefined")%string
  end.

(** The [for] loop of [generateRandomCode], with [n] iterations left. *)
Fixpoint generateRandomCode_loop (n : nat) (code : string)
    (src : Random.Source) : string * Random.Source :=
  match n with
  | O => (code, src)
  | S n' =>
      let (r, src') := Random.Math_random src in
      let randomIndex :=
        Random.floor_scaled r (String.length GAME_CODE_CHARS) in
      generateRandomCode_loop n'
        (append_char_at code GAME_CODE_CHARS randomIndex) src'
  end.

Definition generateRandomCode (src : Random.Source)
    : string * Random.Source :=
  generateRandomCode_loop GAME_CODE_LENGTH "" src.

(** How a call ends: with a value, or with a thrown [Error]. *)
Inductive Completion (A : Type) : Type :=
| Return (value : A)
| Throw (message : string).
Arguments Return {A} value.
Arguments Throw {A} message.

(** The [for] loop of [generateGameCode], with [n] attempts left. *)
Fixpoint generateGameCode_loop (n : nat) (existingCodes : gset string)
    (src : Random.Source) : Completion string * Random.Source :=
  match n with
  | O =>
      (Throw "Failed to generate unique game code after maximum attempts",
       src)
  | S n' =>
      let (code, src') := generateRandomCode src in
      if bool_decide (code ∈ existingCodes)
      then generateGameCode_loop n' existingCodes src'
      else (Return code, src')
  end.

(** [maxAttempts] defaults to 100 and [existingCodes] to the empty set
    when the caller leaves them out. *)
Definition generateGameCode (existingCodes : gset string)
    (maxAttempts : Z) (src : Random.Source)
    : Completion string * Random.Source :=
  generateGameCode_loop (Z.to_nat maxAttempts) existingCodes src.

(** The code drawn by attempt number [attempt] (counted from 0). *)
Definition attemptCode (src : Random.Source) (attempt : nat) : string :=
  fst (generateRandomCode
         (Random.advance (attempt * GAME_CODE_LENGTH) src)).

(** The characters left out of the alphabet because they are easily
    mistaken for one another. *)
Definition CONFUSING_CHARS : list ascii :=
  ["0"; "O"; "1"; "I"; "L"]%char.

(** An uppercase letter or a digit. *)
Definition isUpperOrDigit (c : ascii) : bool :=
  let n := N_of_ascii c in
  (((65 <=? n) && (n <=? 90)) || ((48 <=? n) && (n <=? 57)))%N.

(** The text of a well-formed room code. *)
Definition wellFormedCode (code : string) : Prop :=
  String.length code = 6%nat /\
  forall c, In c (list_ascii_of_string code) ->
    In c (list_ascii_of_string GAME_CODE_CHARS) /\
    ~ In c CONFUSING_CHARS /\
    isUpperOrDigit c = true.

(** "ABC123" is displayed as "ABC-123"; a text of another length is
    displayed as it is. *)
Definition formatGameCodeForDisplay (code : string) : string :=
  if negb (String.length code =? GAME_CODE_LENGTH)%nat then code
  else
    let midpoint := (String.length code / 2)%nat in
    (JsString.sliceTo midpoint code ++ "-"
     ++ JsString.sliceFrom midpoint code)%string.

Definition normalizeGameCode (input : string) : string :=
  JsString.trim (JsString.toUpperCase (JsString.removeAll "-"%char input)).

(** The source after a call of [generateGameCode] that made [attempts]
    attempts. *)
Definition afterAttempts (attempts : nat) (src : Random.Source)
    : Random.Source :=
  Random.advance (attempts * GAME_CODE_LENGTH) src.

End GameCode.

(** ** Player profile and game settings (front end store) *)

Module Settings.

Definition PROFANITY_LIST : list string :=
  [
   "fuck"; "shit"; "ass"; "bitch"; "damn"; "crap"; "dick"; "cock";
   "pussy"; "slut"; "whore"; "nigger"; "faggot"; "retard"
  ].

Definition MIN_NAME_LENGTH : nat := 3.
Definition MAX_NAME_LENGTH : nat := 20.

Record Validation : Type := { valid : bool; error : option string }.

Definition validateName (name : string) : Validation :=
  let trimmed := JsString.trim name in
  if (String.length trimmed =? 0)%nat then
    {| valid := false; error := Some "Name is required" |}
  else if (String.length trimmed <? MIN_NAME_LENGTH)%nat then
    {| valid := false;
       error := Some "Name must be at least 3 characters" |}
  else if (MAX_NAME_LENGTH <? String.length trimmed)%nat then
    {| valid := false;
       error := Some "Name must be at most 20 characters" |}
  else if JsString.onlyWhiteSpace name then
    {| valid := false; error := Some "Name cannot be only whitespace" |}
  else
    let lowerName := JsString.toLowerCase trimmed in
    if existsb (fun word => JsString.includes lowerName word) PROFANITY_LIST
    then {| valid := false; error := Some "Please choose a different name" |}
    else {| valid := true; error := None |}.

(** [speed] is a [GameSpeed] by its type; the [default] branch of the
    [switch] takes every other text as well. [sequenceLength] is 1 when
    the caller leaves it out. *)
Definition getSpeedDelay (speed : string) (sequenceLength : Z) : Z :=
  if String.eqb speed "easy" then 1200
  else if String.eqb speed "medium" then 800
  else if String.eqb speed "hard" then 500
  else if sequenceLength <=? 4 then 1000
  else if sequenceLength <=? 8 then 800
  else if sequenceLength <=? 12 then 600
  else 500.

Record SettingsState : Type := {
  playerName : string;
  hasCompletedSetup : bool;
  gameSpeed : string;
  soundEnabled : bool;
  soundTheme : string;
  vibrationEnabled : bool
}.

Definition initialState : SettingsState :=
  {| playerName := "";
     hasCompletedSetup := false;
     gameSpeed := "auto";
     soundEnabled := true;
     soundTheme := "original";
     vibrationEnabled := true |}.

(** The result of [setPlayerName]; its field [error] is [failure] here. *)
Record SetNameResult : Type := { success : bool; failure : option string }.

Definition validatePlayerName (st : SettingsState) (name : string)
    : Validation :=
  validateName name.

Definition setPlayerName (st : SettingsState) (name : string)
    : SetNameResult * SettingsState :=
  let validation := validateName name in
  if negb (valid validation) then
    ({| success := false; failure := error validation |}, st)
  else
    ({| success := true; failure := None |},
     {| playerName := JsString.trim name;
        hasCompletedSetup := hasCompletedSetup st;
        gameSpeed := gameSpeed st;
        soundEnabled := soundEnabled st;
        soundTheme := soundTheme st;
        vibrationEnabled := vibrationEnabled st |}).

Definition completeSetup (st : SettingsState) : SettingsState :=
  {| playerName := playerName st;
     hasCompletedSetup := true;
     gameSpeed := gameSpeed st;
     soundEnabled := soundEnabled st;
     soundTheme := soundTheme st;
     vibrationEnabled := vibrationEnabled st |}.

Definition withGameSpeed (st : SettingsState) (speed : string)
    : SettingsState :=
  {| playerName := playerName st;
     hasCompletedSetup := hasCompletedSetup st;
     gameSpeed := speed;
     soundEnabled := soundEnabled st;
     soundTheme := soundTheme st;
     vibrationEnabled := vibrationEnabled st |}.

Definition setGameSpeed (st : SettingsState) (speed : string)
    : SettingsState :=
  let validSpeeds := ["auto"; "easy"; "medium"; "hard"] in
  if negb (existsb (String.eqb speed) validSpeeds)
  then withGameSpeed st "auto"
  else withGameSpeed st speed.

Definition setSoundEnabled (st : SettingsState) (enabled : bool)
    : SettingsState :=
  {| playerName := playerName st;
     hasCompletedSetup := hasCompletedSetup st;
     gameSpeed := gameSpeed st;
     soundEnabled := enabled;
     soundTheme := soundTheme st;
     vibrationEnabled := vibrationEnabled st |}.

Definition withSoundTheme (st : SettingsState) (theme : string)
    : SettingsState :=
  {| playerName := playerName st;
     hasCompletedSetup := hasCompletedSetup st;
     gameSpeed := gameSpeed st;
     soundEnabled := soundEnabled st;
     soundTheme := theme;
     vibrationEnabled := vibrationEnabled st |}.

Definition setSoundTheme (st : SettingsState) (theme : string)
    : SettingsState :=
  let validThemes := ["original"; "piano"; "dramatic"] in
  if negb (existsb (String.eqb theme) validThemes)
  then withSoundTheme st "original"
  else withSoundTheme st theme.

Definition setVibrationEnabled (st : SettingsState) (enabled : bool)
    : SettingsState :=
  {| playerName := playerName st;
     hasCompletedSetup := hasCompletedSetup st;
     gameSpeed := gameSpeed st;
     soundEnabled := soundEnabled st;
     soundTheme := soundTheme st;
     vibrationEnabled := enabled |}.

Definition resetSettings (st : SettingsState) : SettingsState :=
  {| playerName := playerName st;
     hasCompletedSetup := hasCompletedSetup st;
     gameSpeed := "auto";
     soundEnabled := true;
     soundTheme := "original";
     vibrationEnabled := true |}.

(** The states of the store: the initial one, and those its actions
    lead to when the names given to [setPlayerName] are made of ASCII
    characters, the text on which [JsString] follows the string
    methods. *)
Inductive reachable : SettingsState -> Prop :=
| reach_initial : reachable initialState
| reach_setPlayerName st name :
    JsString.isAscii name ->
    reachable st -> reachable (snd (setPlayerName st name))
| reach_completeSetup st :
    reachable st -> reachable (completeSetup st)
| reach_setGameSpeed st speed :
    reachable st -> reachable (setGameSpeed st speed)
| reach_setSoundEnabled st enabled :
    reachable st -> reachable (setSoundEnabled st enabled)
| reach_setSoundTheme st theme :
    reachable st -> reachable (setSoundTheme st theme)
| reach_setVibrationEnabled st enabled :
    reachable st -> reachable (setVibrationEnabled st enabled)
| reach_resetSettings st :
    reachable st -> reachable (resetSettings st).

(** [word] occurs in [s]. *)
Definition occursIn (word s : string) : Prop :=
  exists before after, s = (before ++ word ++ after)%string.

End Settings.

(** ** Concrete games used in the examples *)

Module Samples.

(** A source whose every draw is 0. *)
Definition zeroSource : Random.Source :=
  {| Random.draws := fun _ => {| Random.numer := 0; Random.slack := 0 |};
     Random.position := 0 |}.

Definition player (name : string) (host : bool) : Player :=
  {| id := name; displayName := name; avatarId := "1";
     isHost := host; connected := true |}.

Definition twoPlayers : list Player :=
  [player "player-1" true; player "player-2" false].

Definition simonPlayer (name : string) (st : Simon.SimonPlayerStatus)
    (index : Z) (out : option Z) : string * Simon.SimonPlayerState :=
  (name, {| Simon.playerId := name; Simon.status := st;
            Simon.currentInputIndex := index;
            Simon.eliminatedAtRound := out |}).

Definition simonState (sequence : list Color) (timeout : Z)
    (players : JsObject.Obj Simon.SimonPlayerState)
    : Simon.SimonGameState :=
  {| Simon.phase := Simon.player_input;
     Simon.sequence := sequence;
     Simon.round := Z.of_nat (length sequence);
     Simon.playerStates := players;
     Simon.currentShowingIndex := 0;
     Simon.timeoutMs := timeout;
     Simon.winnerId := None |}.

(** A game whose timeout is below the minimum. *)
Definition shortTimeout : Simon.SimonGameState :=
  simonState [red] 1000 [simonPlayer "player-1" Simon.playing 1 None].

(** Round 2 of a game, one player half way through the sequence. *)
Definition midRound : Simon.SimonGameState :=
  simonState [red; green] 4750
    [simonPlayer "player-1" Simon.playing 1 None;
     simonPlayer "player-2" Simon.eliminated 0 (Some 1)].

(** A player put out with a negative round number. *)
Definition outAtMinusOne : Simon.SimonGameState :=
  simonState [red] 5000
    [simonPlayer "player-1" Simon.eliminated 0 (Some (-1))].

(** Both players out in round 2, a third one out in round 1. *)
Definition allOut : Simon.SimonGameState :=
  simonState [red; green] 4750
    [simonPlayer "player-1" Simon.eliminated 0 (Some 1);
     simonPlayer "player-2" Simon.eliminated 1 (Some 2);
     simonPlayer "player-3" Simon.eliminated 0 (Some 2)].

Definition raceState (target : option Color) (round : Z)
    (scores : JsObject.Obj Z) : ColorRace.ColorRaceGameState :=
  {| ColorRace.phase := ColorRace.showing_color;
     ColorRace.currentColor := target;
     ColorRace.round := round;
     ColorRace.totalRounds := 5;
     ColorRace.scores := scores;
     ColorRace.roundWinner := None |}.

Definition answer (name : string) (c : Color) (time : Z)
    : ColorRace.PlayerAnswer :=
  {| ColorRace.playerId := name; ColorRace.color := c;
     ColorRace.timestamp := time |}.

(** Round 1 with red on display and nobody on the board yet. *)
Definition redRound : ColorRace.ColorRaceGameState :=
  raceState (Some red) 1 [("player-1", 0); ("player-2", 0)].

(** A wrong answer that comes first, then two correct ones at the same
    time. *)
Definition redAnswers : list ColorRace.PlayerAnswer :=
  [answer "player-1" blue 500; answer "player-2" red 1000;
   answer "player-1" red 1000].

(** A finished game with a tie at the top. *)
Definition tiedBoard : ColorRace.ColorRaceGameState :=
  raceState None 5 [("player-1", 1); ("player-2", 2); ("player-3", 2)].

(** A board with a score below zero. *)
Definition negativeBoard : ColorRace.ColorRaceGameState :=
  raceState None 5 [("player-1", -2)].

(** A source whose draw number [i] is [i / (i + 6)]. *)
Definition countingSource : Random.Source :=
  {| Random.draws :=
       fun i => {| Random.numer := N.of_nat i; Random.slack := 5 |};
     Random.position := 0 |}.

(** Three rounds of a race: a correct answer, none, and a tie in
    time. *)
Definition threeRounds : list (list ColorRace.PlayerAnswer) :=
  [[answer "player-2" red 1200];
   [];
   [answer "player-1" red 900; answer "player-2" red 900]].

(** The board of the leaderboard test. *)
Definition finalBoard : ColorRace.ColorRaceGameState :=
  raceState None 5 [("player-1", 1); ("player-2", 3); ("player-3", 2)].

End Samples.

(** * Properties *)

(** ** Reading and writing object properties *)

Section ObjectLemmas.
Context {V : Type}.
Implicit Types (o : JsObject.Obj V) (k : string) (v : V).

Lemma get_overwrite_eq o k v w :
  JsObject.get o k = Some w ->
  JsObject.get (JsObject.overwrite o k v) k = Some v.
Proof.
  induction o as [|[k' v'] o IH]; simpl; [discriminate|].
  destruct (decide (k' = k)) as [->|Hne]; simpl.
  - intros _. destruct (decide (k = k)); congruence.
  - intros H. destruct (decide (k' = k)); [congruence|auto].
Qed.

Lemma get_overwrite_ne o k v k' :
  k <> k' ->
  JsObject.get (JsObject.overwrite o k v) k' = JsObject.get o k'.
Proof.
  intros Hne. induction o as [|[k0 v0] o IH]; simpl; [reflexivity|].
  destruct (decide (k0 = k)) as [->|Hk]; simpl.
  - destruct (decide (k = k')); [congruence|reflexivity].
  - destruct (decide (k0 = k')); [reflexivity|exact IH].
Qed.

Lemma get_insert_index_eq o n k v :
  JsObject.get o k = None ->
  JsObject.get (JsObject.insert_index o n k v) k = Some v.
Proof.
  induction o as [|[k0 v0] o IH]; simpl.
  - intros _. destruct (decide (k = k)); congruence.
  - destruct (decide (k0 = k)) as [->|Hk]; [discriminate|]. intros H.
    destruct (JsObject.array_index k0) as [m|]; [destruct (m <? n)%N|];
      simpl.
    + destruct (decide (k0 = k)); [congruence|auto].
    + destruct (decide (k = k)); congruence.
    + destruct (decide (k = k)); congruence.
Qed.

Lemma get_insert_index_ne o n k v k' :
  k <> k' ->
  JsObject.get (JsObject.insert_index o n k v) k' = JsObject.get o k'.
Proof.
  intros Hne. induction o as [|[k0 v0] o IH]; simpl.
  - destruct (decide (k = k')); congruence.
  - destruct (JsObject.array_index k0) as [m|]; [destruct (m <? n)%N|];
      simpl.
    + destruct (decide (k0 = k')); [reflexivity|exact IH].
    + destruct (decide (k = k')); [congruence|reflexivity].
    + destruct (decide (k = k')); [congruence|reflexivity].
Qed.

Lemma get_app o1 o2 k :
  JsObject.get (o1 ++ o2) k =
  match JsObject.get o1 k with
  | Some v => Some v
  | None => JsObject.get o2 k
  end.
Proof.
  induction o1 as [|[k0 v0] o1 IH]; simpl; [reflexivity|].
  destruct (decide (k0 = k)); [reflexivity|exact IH].
Qed.

(** Reading back the property just written. *)
Lemma get_set_eq o k v :
  JsObject.get (JsObject.set o k v) k = Some v.
Proof.
  unfold JsObject.set, JsObject.define.
  destruct (JsObject.get o k) as [w|] eqn:Hget.
  - eapply get_overwrite_eq; eauto.
  - destruct (JsObject.array_index k) as [n|].
    + apply get_insert_index_eq; assumption.
    + rewrite get_app, Hget. simpl.
      destruct (decide (k = k)); congruence.
Qed.

(** A write leaves every other property as it was. *)
Lemma get_set_ne o k v k' :
  k <> k' ->
  JsObject.get (JsObject.set o k v) k' = JsObject.get o k'.
Proof.
  intros Hne. unfold JsObject.set, JsObject.define.
  destruct (JsObject.get o k) as [w|] eqn:Hget.
  - apply get_overwrite_ne; assumption.
  - destruct (JsObject.array_index k) as [n|].
    + apply get_insert_index_ne; assumption.
    + rewrite get_app. destruct (JsObject.get o k'); [reflexivity|].
      simpl. destruct (decide (k = k')); congruence.
Qed.

Lemma get_Some_In o k v :
  JsObject.get o k = Some v -> In (k, v) o.
Proof.
  induction o as [|[k0 v0] o IH]; simpl; [discriminate|].
  destruct (decide (k0 = k)) as [->|Hk].
  - intros [= ->]. left; reflexivity.
  - intros H. right; auto.
Qed.

Lemma get_Some_value o k v :
  JsObject.get o k = Some v -> In v (JsObject.values o).
Proof.
  intros H. apply get_Some_In in H.
  unfold JsObject.values. apply (in_map snd) in H. exact H.
Qed.

Lemma get_None_keys o k :
  JsObject.get o k = None <-> ~ In k (JsObject.keys o).
Proof.
  induction o as [|[k0 v0] o IH]; simpl; [tauto|].
  destruct (decide (k0 = k)) as [->|Hk].
  - split; [discriminate|]. intros H; exfalso; apply H; auto.
  - rewrite IH. tauto.
Qed.

(** With each key held once, an entry is what reading its key gives. *)
Lemma In_get o k v :
  JsObject.wf o -> In (k, v) o -> JsObject.get o k = Some v.
Proof.
  unfold JsObject.wf.
  induction o as [|[k0 v0] o IH]; simpl; [tauto|].
  intros Hnd [Heq|Hin].
  - inversion Heq; subst. destruct (decide (k = k)); congruence.
  - apply NoDup_cons in Hnd as [Hnotin Hnd].
    destruct (decide (k0 = k)) as [->|Hk]; [|auto].
    exfalso. apply Hnotin. apply list_elem_of_In.
    apply (in_map fst) in Hin. exact Hin.
Qed.

(** What a write does to the list of values: the written value is
    there, and nothing else is new. *)
Lemma values_overwrite o k v x :
  In x (JsObject.values (JsObject.overwrite o k v)) ->
  x = v \/ In x (JsObject.values o).
Proof.
  induction o as [|[k0 v0] o IH]; simpl; [tauto|].
  destruct (decide (k0 = k)); simpl; intuition.
Qed.

Lemma values_insert_index o n k v x :
  In x (JsObject.values (JsObject.insert_index o n k v)) ->
  x = v \/ In x (JsObject.values o).
Proof.
  induction o as [|[k0 v0] o IH]; simpl; [intuition|].
  destruct (JsObject.array_index k0) as [m|]; [destruct (m <? n)%N|];
    simpl; intuition.
Qed.

Lemma values_set o k v x :
  In x (JsObject.values (JsObject.set o k v)) ->
  x = v \/ In x (JsObject.values o).
Proof.
  unfold JsObject.set, JsObject.define.
  destruct (JsObject.get o k).
  - apply values_overwrite.
  - destruct (JsObject.array_index k).
    + apply values_insert_index.
    + unfold JsObject.values. rewrite map_app, in_app_iff. simpl.
      intuition.
Qed.

Lemma Forall_values_set (P : V -> Prop) o k v :
  P v -> Forall P (JsObject.values o) ->
  Forall P (JsObject.values (JsObject.set o k v)).
Proof.
  intros Hv Ho. apply List.Forall_forall. intros x Hx.
  apply values_set in Hx as [->|Hx]; [assumption|].
  rewrite List.Forall_forall in Ho. auto.
Qed.

(** Writes keep each key held once. *)
Lemma keys_overwrite o k v :
  JsObject.keys (JsObject.overwrite o k v) = JsObject.keys o.
Proof.
  induction o as [|[k0 v0] o IH]; simpl; [reflexivity|].
  destruct (decide (k0 = k)); simpl; [reflexivity|].
  f_equal. exact IH.
Qed.

Lemma keys_insert_index o n k v k' :
  In k' (JsObject.keys (JsObject.insert_index o n k v)) <->
  k' = k \/ In k' (JsObject.keys o).
Proof.
  induction o as [|[k0 v0] o IH]; simpl; [intuition|].
  destruct (JsObject.array_index k0) as [m|]; [destruct (m <? n)%N|];
    simpl; intuition.
Qed.

Lemma wf_insert_index o n k v :
  JsObject.wf o -> ~ In k (JsObject.keys o) ->
  JsObject.wf (JsObject.insert_index o n k v).
Proof.
  unfold JsObject.wf.
  induction o as [|[k0 v0] o IH]; simpl; intros Hnd Hnotin.
  - apply NoDup_cons. split; [apply not_elem_of_nil|constructor].
  - assert (Hhere : NoDup (k :: k0 :: JsObject.keys o)).
    { apply NoDup_cons. split; [|exact Hnd].
      rewrite list_elem_of_In. exact Hnotin. }
    destruct (JsObject.array_index k0) as [m|]; [destruct (m <? n)%N|];
      simpl; try exact Hhere.
    apply NoDup_cons in Hnd as [Hk0 Hnd].
    apply NoDup_cons. split.
    + rewrite list_elem_of_In. change (map fst ?l) with (JsObject.keys l).
      rewrite keys_insert_index. rewrite list_elem_of_In in Hk0.
      intros [->|Hin]; [apply Hnotin; auto|contradiction].
    + apply IH; [exact Hnd|]. intros Hin. apply Hnotin. auto.
Qed.

Lemma wf_set o k v :
  JsObject.wf o -> JsObject.wf (JsObject.set o k v).
Proof.
  intros Hwf. unfold JsObject.set, JsObject.define.
  destruct (JsObject.get o k) eqn:Hget.
  - unfold JsObject.wf. rewrite keys_overwrite. exact Hwf.
  - apply get_None_keys in Hget.
    destruct (JsObject.array_index k).
    + apply wf_insert_index; assumption.
    + unfold JsObject.wf, JsObject.keys in *. rewrite map_app. simpl.
      apply NoDup_app. split; [exact Hwf|]. split.
      * intros x Hx Hx'. apply list_elem_of_In in Hx.
        apply list_elem_of_In in Hx'. simpl in Hx'.
        destruct Hx' as [<-|[]]. contradiction.
      * apply NoDup_cons. split; [apply not_elem_of_nil|constructor].
Qed.

End ObjectLemmas.

(** ** Objects built by a loop of writes *)

Section BuiltObjects.
Context {A V : Type} (key : A -> string) (val : A -> V).

(** The object the loop leaves, started from [acc]. *)
Abbreviation built l acc :=
  (fold_left (fun o x => JsObject.set o (key x) (val x)) l acc).

Lemma built_wf (l : list A) (acc : JsObject.Obj V) :
  JsObject.wf acc -> JsObject.wf (built l acc).
Proof.
  revert acc. induction l as [|x l IH]; simpl; intros acc Hwf; [exact Hwf|].
  apply IH. apply wf_set. exact Hwf.
Qed.

Lemma built_values (P : V -> Prop) (l : list A) (acc : JsObject.Obj V) :
  (forall x, In x l -> P (val x)) ->
  Forall P (JsObject.values acc) ->
  Forall P (JsObject.values (built l acc)).
Proof.
  revert acc. induction l as [|x l IH]; simpl; intros acc Hl Hacc;
    [exact Hacc|].
  apply IH; [auto|]. apply Forall_values_set; auto.
Qed.

Lemma built_get_other (l : list A) (acc : JsObject.Obj V) (k : string) :
  (forall x, In x l -> key x <> k) ->
  JsObject.get (built l acc) k = JsObject.get acc k.
Proof.
  revert acc. induction l as [|x l IH]; simpl; intros acc Hl;
    [reflexivity|].
  rewrite IH by auto. apply get_set_ne. auto.
Qed.

Lemma built_get (l : list A) (acc : JsObject.Obj V) (x : A) :
  NoDup (map key l) -> In x l ->
  JsObject.get (built l acc) (key x) = Some (val x).
Proof.
  revert acc. induction l as [|y l IH]; simpl; intros acc Hnd Hin;
    [contradiction|].
  apply NoDup_cons in Hnd as [Hy Hnd].
  destruct Hin as [->|Hin]; [|auto].
  rewrite built_get_other.
  - apply get_set_eq.
  - intros z Hz Heq. apply Hy. rewrite <- Heq.
    apply list_elem_of_In. apply in_map. exact Hz.
Qed.

End BuiltObjects.

(** ** Random indices *)

(** [Math.floor(Math.random() * len)] is a valid index of a non-empty
    array or string of length [len]. *)
Lemma floor_scaled_lt (r : Random.Draw) (len : nat) :
  (0 < len)%nat -> (Random.floor_scaled r len < len)%nat.
Proof.
  intros Hlen. unfold Random.floor_scaled.
  assert (H : (Random.numer r * N.of_nat len
               / (Random.numer r + Random.slack r + 1) < N.of_nat len)%N).
  { apply N.Div0.div_lt_upper_bound. nia. }
  lia.
Qed.

Lemma random_color_index_in_range (r : Random.Draw) :
  nth_error COLORS (Random.floor_scaled r (length COLORS)) =
  Some (COLORS_at (Random.floor_scaled r (length COLORS))).
Proof.
  pose proof (floor_scaled_lt r (length COLORS)) as H.
  simpl in H. specialize (H ltac:(lia)).
  unfold COLORS_at.
  apply nth_error_nth'. exact H.
Qed.

(** ** Simon: validation of an input *)

Section SimonValidation.
Import Simon.

Lemma at_index_Some_range (sequence : list Color) (i : Z) (c : Color) :
  at_index sequence i = Some c -> 0 <= i < Z.of_nat (length sequence).
Proof.
  unfold at_index. destruct (i <? 0) eqn:Hi; [discriminate|].
  intros H. apply Z.ltb_ge in Hi.
  assert (Z.to_nat i < length sequence)%nat
    by (apply nth_error_Some; congruence).
  lia.
Qed.

(** C1. [validateInput(s, p, c, i)] is true exactly when [p] has a
    player state in [s], [i] is that player's [currentInputIndex] and
    [c] is the colour [s.sequence[i]]. In particular it is false for a
    player without a state and for an index that is not the player's
    current one. *)
Theorem validateInput_spec (s : SimonGameState) (p : string) (c : Color)
    (i : Z) :
  (validateInput s p c i = true <->
   exists ps, JsObject.get (playerStates s) p = Some ps /\
              i = currentInputIndex ps /\
              at_index (sequence s) i = Some c) /\
  (JsObject.get (playerStates s) p = None ->
   validateInput s p c i = false) /\
  (forall ps, JsObject.get (playerStates s) p = Some ps ->
              i <> currentInputIndex ps ->
              validateInput s p c i = false).
Proof.
  unfold validateInput. split; [|split].
  - destruct (JsObject.get (playerStates s) p) as [ps|].
    + destruct (currentInputIndex ps =? i) eqn:Hi; simpl.
      * apply Z.eqb_eq in Hi. rewrite bool_decide_eq_true. split.
        -- intros H. exists ps. auto.
        -- intros (ps' & [= <-] & _ & H). auto.
      * apply Z.eqb_neq in Hi. split; [discriminate|].
        intros (ps' & [= <-] & Heq & _). congruence.
    + split; [discriminate|]. intros (ps & H & _). discriminate.
  - intros ->. reflexivity.
  - intros ps -> Hne.
    destruct (currentInputIndex ps =? i) eqn:Hi; [|reflexivity].
    apply Z.eqb_eq in Hi. congruence.
Qed.

Lemma validateInput_true (s : SimonGameState) (p : string) (c : Color)
    (i : Z) :
  validateInput s p c i = true ->
  exists ps, JsObject.get (playerStates s) p = Some ps /\
             currentInputIndex ps = i /\
             at_index (sequence s) i = Some c.
Proof.
  unfold validateInput.
  destruct (JsObject.get (playerStates s) p) as [ps|]; [|discriminate].
  destruct (currentInputIndex ps =? i) eqn:Hi; simpl; [|discriminate].
  apply Z.eqb_eq in Hi. rewrite bool_decide_eq_true. eauto.
Qed.

(** The state of a player after [updatePlayerProgress]. *)
Lemma updatePlayerProgress_get (s : SimonGameState) (p : string)
    (ps : SimonPlayerState) :
  JsObject.get (playerStates s) p = Some ps ->
  JsObject.get (playerStates (updatePlayerProgress s p)) p =
  Some {| playerId := playerId ps;
          status := status ps;
          currentInputIndex := currentInputIndex ps + 1;
          eliminatedAtRound := eliminatedAtRound ps |}.
Proof.
  intros H. unfold updatePlayerProgress, JsObject.spread. simpl.
  rewrite H. apply get_set_eq.
Qed.

(** C8. Once a valid input [(p, c, i)] has been taken into account by
    [updatePlayerProgress], the same input is no longer valid: the
    player's index has moved past [i]. Input handling that updates the
    progress only after a successful validation therefore leaves the
    state as it is when the input is submitted again. *)
Theorem validateInput_resubmission (s : SimonGameState) (p : string)
    (ps : SimonPlayerState) (c : Color) (i : Z) :
  JsObject.get (playerStates s) p = Some ps ->
  validateInput s p c i = true ->
  validateInput (updatePlayerProgress s p) p c i = false /\
  applyValidatedInput (updatePlayerProgress s p) p c i =
  updatePlayerProgress s p.
Proof.
  intros Hps Hvalid.
  assert (Hfalse : validateInput (updatePlayerProgress s p) p c i = false).
  { apply validateInput_true in Hvalid as (ps' & Hget & Hidx & _).
    rewrite Hget in Hps. injection Hps as ->.
    unfold validateInput.
    rewrite (updatePlayerProgress_get s p ps Hget). simpl.
    replace (currentInputIndex ps + 1 =? i) with false; [reflexivity|].
    symmetry. apply Z.eqb_neq. lia. }
  split; [exact Hfalse|].
  unfold applyValidatedInput. rewrite Hfalse. reflexivity.
Qed.

(** C10. [eliminatePlayer] and [updatePlayerProgress] aimed at a player
    id without a player state, when the id names nothing inherited from
    [Object.prototype], return the state they were given: every field,
    and every player state, is as before. Under an inherited name
    ([toString], [constructor], ...) the guard of both functions finds
    the inherited member and lets the assignment through. *)
Theorem unknown_player_noop (s : SimonGameState) (p : string) (r : Z) :
  JsObject.get (playerStates s) p = None ->
  JsObject.ordinary p ->
  eliminatePlayer s p r = s /\ updatePlayerProgress s p = s.
Proof.
  intros H _. unfold eliminatePlayer, updatePlayerProgress, JsObject.spread.
  rewrite H. destruct s; split; reflexivity.
Qed.

End SimonValidation.

(** ** Simon: what every run keeps true *)

Section SimonRuns.
Import Simon.

Lemma generateSequence_loop_length (n : nat) (sequence : list Color)
    (src : Random.Source) :
  length (fst (generateSequence_loop n sequence src)) =
  (length sequence + n)%nat.
Proof.
  revert sequence src. induction n as [|n IH]; intros sequence src; simpl.
  - lia.
  - rewrite IH, length_app. simpl. lia.
Qed.

Lemma initializeSimonGame_fields (players : list Player)
    (src : Random.Source) :
  let s := fst (initializeSimonGame players src) in
  length (sequence s) = 1%nat /\ round s = 1 /\
  timeoutMs s = INITIAL_TIMEOUT_MS /\
  playerStates s =
    fold_left
      (fun acc player =>
         JsObject.set acc (id player)
           {| playerId := id player; status := playing;
              currentInputIndex := 0; eliminatedAtRound := None |})
      players [].
Proof.
  unfold initializeSimonGame, generateSequence.
  pose proof (generateSequence_loop_length
                (Z.to_nat INITIAL_SEQUENCE_LENGTH) [] src) as Hlen.
  destruct (generateSequence_loop _ _ _) as [initialSequence src'].
  simpl in *. auto.
Qed.

Lemma advanceToNextRound_fields (s : SimonGameState)
    (src : Random.Source) :
  let s' := fst (advanceToNextRound s src) in
  (exists c, sequence s' = sequence s ++ [c]) /\
  round s' = round s + 1 /\
  timeoutMs s' = Z.max MIN_TIMEOUT_MS (timeoutMs s - TIMEOUT_DECREMENT_MS) /\
  phase s' = showing_sequence /\
  currentShowingIndex s' = 0 /\
  winnerId s' = winnerId s /\
  playerStates s' =
    fold_left
      (fun acc entry => JsObject.set acc (fst entry) (resetInput (snd entry)))
      (playerStates s) [].
Proof.
  unfold advanceToNextRound, extendSequence, JsObject.entries. simpl.
  repeat split. eexists. reflexivity.
Qed.

Lemma init_invariants (players : list Player) (src : Random.Source) :
  let s := fst (initializeSimonGame players src) in
  sequenceMatchesRound s /\ progressWithinSequence s.
Proof.
  destruct (initializeSimonGame_fields players src)
    as (Hlen & Hround & _ & Hstates).
  unfold sequenceMatchesRound, progressWithinSequence.
  cbv zeta. rewrite Hlen, Hround, Hstates. split; [reflexivity|].
  apply (built_values id
           (fun player =>
              {| playerId := id player; status := playing;
                 currentInputIndex := 0; eliminatedAtRound := None |})).
  - intros x _. simpl. lia.
  - constructor.
Qed.

Lemma validated_step_invariants (s s' : SimonGameState) :
  validated_step s s' ->
  sequenceMatchesRound s /\ progressWithinSequence s ->
  sequenceMatchesRound s' /\ progressWithinSequence s'.
Proof.
  unfold sequenceMatchesRound, progressWithinSequence.
  intros Hstep [Hround Hprog]. destruct Hstep as [s p c i|s p r|s src].
  - unfold applyValidatedInput.
    destruct (validateInput s p c i) eqn:Hvalid; [|auto].
    apply validateInput_true in Hvalid as (ps & Hget & Hidx & Hat).
    apply at_index_Some_range in Hat.
    unfold updatePlayerProgress, JsObject.spread. rewrite Hget. simpl.
    split; [exact Hround|]. apply Forall_values_set; [simpl; lia|exact Hprog].
  - unfold eliminatePlayer, JsObject.spread.
    destruct (JsObject.get (playerStates s) p) as [ps|] eqn:Hget; simpl;
      [|auto].
    split; [exact Hround|]. apply Forall_values_set; [|exact Hprog].
    simpl. apply get_Some_value in Hget.
    rewrite List.Forall_forall in Hprog. apply (Hprog ps Hget).
  - destruct (advanceToNextRound_fields s src)
      as ((c & Hseq) & Hr & _ & _ & _ & _ & Hstates).
    cbv zeta in *. rewrite Hseq, Hr, Hstates, length_app. simpl. split; [lia|].
    apply (built_values fst (fun entry => resetInput (snd entry))).
    + intros x _. simpl. lia.
    + constructor.
Qed.

(** C4. In every state reached from [initializeSimonGame] through
    validated inputs, eliminations and round advancements, the sequence
    has as many colours as the round number says, and no player's
    [currentInputIndex] is beyond the length of the sequence. *)
Theorem reachable_sequence_round_progress (s : SimonGameState) :
  reachable validated_step s ->
  Z.of_nat (length (sequence s)) = round s /\
  forall ps, In ps (JsObject.values (playerStates s)) ->
             currentInputIndex ps <= Z.of_nat (length (sequence s)).
Proof.
  intros Hreach.
  assert (H : sequenceMatchesRound s /\ progressWithinSequence s).
  { induction Hreach as [players src|s s' _ IH Hstep].
    - apply init_invariants.
    - eapply validated_step_invariants; eauto. }
  destruct H as [Hround Hprog]. split; [exact Hround|].
  unfold progressWithinSequence in Hprog.
  rewrite List.Forall_forall in Hprog. exact Hprog.
Qed.

(** *** Status changes *)

Lemma init_status_invariants (players : list Player)
    (src : Random.Source) :
  let s := fst (initializeSimonGame players src) in
  JsObject.wf (playerStates s) /\ neverSpectating s.
Proof.
  destruct (initializeSimonGame_fields players src)
    as (_ & _ & _ & Hstates).
  unfold neverSpectating. cbv zeta. rewrite Hstates. split.
  - apply (built_wf id). constructor.
  - apply (built_values id
             (fun player =>
                {| playerId := id player; status := playing;
                   currentInputIndex := 0; eliminatedAtRound := None |})).
    + intros x _. simpl. discriminate.
    + constructor.
Qed.

Lemma op_step_status_invariants (s s' : SimonGameState) :
  op_step s s' ->
  JsObject.wf (playerStates s) /\ neverSpectating s ->
  JsObject.wf (playerStates s') /\ neverSpectating s'.
Proof.
  unfold neverSpectating.
  intros Hstep [Hwf Hns]. destruct Hstep as [s p|s p r|s src].
  - unfold updatePlayerProgress, JsObject.spread.
    destruct (JsObject.get (playerStates s) p) as [ps|] eqn:Hget; simpl;
      [|auto].
    split; [apply wf_set; exact Hwf|].
    apply Forall_values_set; [|exact Hns].
    simpl. apply get_Some_value in Hget.
    rewrite List.Forall_forall in Hns. apply (Hns ps Hget).
  - unfold eliminatePlayer, JsObject.spread.
    destruct (JsObject.get (playerStates s) p) as [ps|] eqn:Hget; simpl;
      [|auto].
    split; [apply wf_set; exact Hwf|].
    apply Forall_values_set; [simpl; discriminate|exact Hns].
  - destruct (advanceToNextRound_fields s src)
      as (_ & _ & _ & _ & _ & _ & Hstates).
    cbv zeta in *. rewrite Hstates. split.
    + apply (built_wf fst). constructor.
    + apply (built_values fst (fun entry => resetInput (snd entry))).
      * intros [k ps] Hin. simpl.
        rewrite List.Forall_forall in Hns. apply Hns.
        apply (in_map snd) in Hin. exact Hin.
      * constructor.
Qed.

Lemma reachable_status_invariants (s : SimonGameState) :
  reachable op_step s ->
  JsObject.wf (playerStates s) /\ neverSpectating s.
Proof.
  induction 1 as [players src|s s' _ IH Hstep].
  - apply init_status_invariants.
  - eapply op_step_status_invariants; eauto.
Qed.

(** Every player state is kept by [advanceToNextRound], with the input
    index back at 0. *)
Lemma advanceToNextRound_get (s : SimonGameState) (src : Random.Source)
    (p : string) (ps : SimonPlayerState) :
  JsObject.wf (playerStates s) ->
  JsObject.get (playerStates s) p = Some ps ->
  JsObject.get (playerStates (fst (advanceToNextRound s src))) p =
  Some (resetInput ps).
Proof.
  intros Hwf Hget.
  destruct (advanceToNextRound_fields s src)
    as (_ & _ & _ & _ & _ & _ & Hstates).
  cbv zeta in Hstates. rewrite Hstates.
  apply (built_get fst (fun entry => resetInput (snd entry))
           (playerStates s) [] (p, ps)).
  - exact Hwf.
  - apply get_Some_In. exact Hget.
Qed.

Lemma op_step_status (s s' : SimonGameState) (p : string)
    (ps : SimonPlayerState) :
  op_step s s' ->
  JsObject.wf (playerStates s) -> neverSpectating s ->
  JsObject.get (playerStates s) p = Some ps ->
  exists ps', JsObject.get (playerStates s') p = Some ps' /\
              (status ps' = status ps \/
               (status ps = playing /\ status ps' = eliminated)).
Proof.
  intros Hstep Hwf Hns Hget. destruct Hstep as [s q|s q r|s src].
  - unfold updatePlayerProgress, JsObject.spread.
    destruct (JsObject.get (playerStates s) q) as [qs|] eqn:Hq; simpl;
      [|eauto].
    destruct (decide (q = p)) as [->|Hne].
    + rewrite get_set_eq. eexists; split; [reflexivity|]. simpl.
      left. congruence.
    + rewrite get_set_ne by assumption. eauto.
  - unfold eliminatePlayer, JsObject.spread.
    destruct (JsObject.get (playerStates s) q) as [qs|] eqn:Hq; simpl;
      [|eauto].
    destruct (decide (q = p)) as [->|Hne].
    + rewrite get_set_eq. eexists; split; [reflexivity|]. simpl.
      unfold neverSpectating in Hns. rewrite List.Forall_forall in Hns.
      specialize (Hns ps (get_Some_value _ _ _ Hget)).
      destruct (status ps); [right; auto|left; auto|contradiction].
    + rewrite get_set_ne by assumption. eauto.
  - rewrite (advanceToNextRound_get s src p ps Hwf Hget).
    eexists; split; [reflexivity|]. left. reflexivity.
Qed.

Lemma op_steps_reachable (s s' : SimonGameState) :
  reachable op_step s -> op_steps s s' -> reachable op_step s'.
Proof.
  intros Hreach Hsteps. induction Hsteps as [|s' s'' _ IH Hstep].
  - exact Hreach.
  - eapply reach_step; eauto.
Qed.

(** C9. Take any run that starts with [initializeSimonGame] and goes on
    with [updatePlayerProgress], [eliminatePlayer] and
    [advanceToNextRound] in any order and with any arguments, and any
    two states [s], [s'] of it, [s'] the later one. A player of [s] is
    still a player of [s'], and its status in [s'] is the one it had in
    [s] unless it went from [playing] to [eliminated] or [spectating];
    a player that is not [playing] in [s] is not [playing] in [s']. *)
Theorem status_never_goes_back (s s' : SimonGameState) (p : string)
    (ps : SimonPlayerState) :
  reachable op_step s ->
  op_steps s s' ->
  JsObject.get (playerStates s) p = Some ps ->
  exists ps', JsObject.get (playerStates s') p = Some ps' /\
              statusMove (status ps) (status ps') /\
              (status ps <> playing -> status ps' <> playing).
Proof.
  intros Hreach Hsteps Hget.
  induction Hsteps as [|s' s'' Hsteps IH Hstep].
  - exists ps. unfold statusMove. auto.
  - destruct IH as (ps' & Hget' & Hmove & Hback).
    destruct (reachable_status_invariants s'
                (op_steps_reachable s s' Hreach Hsteps)) as [Hwf Hns].
    destruct (op_step_status s' s'' p ps' Hstep Hwf Hns Hget')
      as (ps'' & Hget'' & Hchange).
    exists ps''. split; [exact Hget''|].
    unfold statusMove in *. split.
    + destruct Hchange as [->|[Hplay ->]]; [exact Hmove|].
      destruct Hmove as [Heq|[Hp _]]; [rewrite Hplay in Heq|]; auto.
    + intros Hnp. specialize (Hback Hnp).
      destruct Hchange as [->|[Hplay _]]; [exact Hback|contradiction].
Qed.

End SimonRuns.

(** ** Simon: advancing to the next round *)

Section SimonAdvance.
Import Simon.

Lemma rebuilt_get_Some {A V : Type} (key : A -> string) (val : A -> V)
    (l : list A) (acc : JsObject.Obj V) (x : A) :
  In x l ->
  exists y, In y l /\ key y = key x /\
    JsObject.get
      (fold_left (fun acc x => JsObject.set acc (key x) (val x)) l acc)
      (key x) = Some (val y).
Proof.
  revert acc x. induction l as [|a l IH]; simpl; intros acc x Hin;
    [contradiction|].
  destruct (in_dec string_dec (key x) (map key l)) as [Hlater|Hnot].
  - apply in_map_iff in Hlater as (z & Hkey & Hz).
    destruct (IH (JsObject.set acc (key a) (val a)) z Hz)
      as (y & Hy & Hky & Hget).
    exists y. rewrite <- Hkey. split; [auto|]. split; [congruence|].
    exact Hget.
  - destruct Hin as [->|Hin].
    + exists x. split; [auto|]. split; [reflexivity|].
      rewrite (built_get_other key val).
      * apply get_set_eq.
      * intros z Hz Heq. apply Hnot. rewrite <- Heq. apply in_map. exact Hz.
    + exfalso. apply Hnot. apply in_map. exact Hin.
Qed.

(** The claim that a round advancement never raises the timeout fails
    for a game whose timeout is below the minimum of 1500 ms: the new
    timeout is the minimum. *)
Lemma advanceToNextRound_may_raise_timeout :
  let s := Samples.shortTimeout in
  let s' := fst (advanceToNextRound s Samples.zeroSource) in
  timeoutMs s = 1000 /\ timeoutMs s' = 1500 /\
  ~ (timeoutMs s' <= timeoutMs s).
Proof.
  cbv zeta. split; [reflexivity|]. split; [reflexivity|].
  vm_compute. intros H. apply H. reflexivity.
Qed.

(** C5, amended. [advanceToNextRound(s)] appends one colour to the
    sequence and keeps the colours that were there, adds 1 to the
    round, sets [timeoutMs] to [max(1500, s.timeoutMs - 250)], which is
    never below 1500 and is not larger than [s.timeoutMs] when
    [s.timeoutMs] is at least 1500, puts the [currentInputIndex] of
    every player back to 0 and enters the phase [showing_sequence]. *)
Theorem advanceToNextRound_spec (s : SimonGameState)
    (src : Random.Source) :
  let s' := fst (advanceToNextRound s src) in
  length (sequence s') = S (length (sequence s)) /\
  firstn (length (sequence s)) (sequence s') = sequence s /\
  round s' = round s + 1 /\
  timeoutMs s' = Z.max 1500 (timeoutMs s - 250) /\
  1500 <= timeoutMs s' /\
  (1500 <= timeoutMs s -> timeoutMs s' <= timeoutMs s) /\
  (forall p ps, JsObject.get (playerStates s) p = Some ps ->
     exists ps', JsObject.get (playerStates s') p = Some ps' /\
                 currentInputIndex ps' = 0) /\
  (forall ps', In ps' (JsObject.values (playerStates s')) ->
               currentInputIndex ps' = 0) /\
  phase s' = showing_sequence.
Proof.
  destruct (advanceToNextRound_fields s src)
    as ((c & Hseq) & Hround & Htimeout & Hphase & _ & _ & Hstates).
  cbv zeta in *. unfold MIN_TIMEOUT_MS, TIMEOUT_DECREMENT_MS in Htimeout.
  rewrite Hseq, Hround, Htimeout, Hphase, Hstates.
  repeat split.
  - rewrite length_app. simpl. lia.
  - rewrite firstn_app, Nat.sub_diag, firstn_all. simpl.
    apply app_nil_r.
  - lia.
  - lia.
  - intros p ps Hget. apply get_Some_In in Hget.
    destruct (rebuilt_get_Some fst (fun entry => resetInput (snd entry))
                (playerStates s) [] (p, ps) Hget)
      as (y & _ & _ & Hy).
    simpl in Hy. eexists. split; [exact Hy|reflexivity].
  - assert (H : Forall (fun ps' => currentInputIndex ps' = 0)
                  (JsObject.values
                     (fold_left
                        (fun acc entry =>
                           JsObject.set acc (fst entry)
                             (resetInput (snd entry)))
                        (playerStates s) []))).
    { apply (built_values fst (fun entry => resetInput (snd entry))).
      - intros x _. reflexivity.
      - constructor. }
    rewrite List.Forall_forall in H. exact H.
Qed.

End SimonAdvance.

(** ** Simon: end of the game and winner *)

Section SimonWinner.
Import Simon.

(** While the rounds seen stay below [r], so does the running maximum. *)
Lemma laterEliminated_below (l : list SimonPlayerState) (m : Z)
    (w : option string) (r : Z) :
  m < r ->
  (forall y r', In y l -> eliminatedAtRound y = Some r' -> r' < r) ->
  fst (fold_left laterEliminated l (m, w)) < r.
Proof.
  revert m w. induction l as [|y l IH]; simpl; intros m w Hm Hl;
    [exact Hm|].
  destruct (eliminatedAtRound y) as [r'|] eqn:Hy.
  - destruct (m <? r'); apply IH; eauto.
  - apply IH; eauto.
Qed.

(** Rounds that are not higher than the maximum change nothing. *)
Lemma laterEliminated_keep (l : list SimonPlayerState) (r : Z)
    (w : option string) :
  (forall y r', In y l -> eliminatedAtRound y = Some r' -> r' <= r) ->
  fold_left laterEliminated l (r, w) = (r, w).
Proof.
  induction l as [|y l IH]; simpl; intros Hl; [reflexivity|].
  destruct (eliminatedAtRound y) as [r'|] eqn:Hy.
  - replace (r <? r') with false.
    + apply IH. eauto.
    + symmetry. apply Z.ltb_ge. eauto.
  - apply IH. eauto.
Qed.

(** The claim that with nobody playing the winner is the player with
    the highest [eliminatedAtRound] fails for a round number that is
    not above -1, the value the search starts from: there is no
    winner. *)
Lemma getWinner_ignores_negative_round :
  let s := Samples.outAtMinusOne in
  let x := snd (Samples.simonPlayer "player-1" eliminated 0 (Some (-1))) in
  activePlayers s = [] /\
  lastEliminated s x (-1) /\
  getWinner s = None /\
  getWinner s <> Some (playerId x).
Proof.
  cbv zeta. split; [reflexivity|]. split; [|split].
  - exists [], []. repeat split; simpl; intros; contradiction.
  - reflexivity.
  - vm_compute. discriminate.
Qed.

(** C2, amended. The game is over exactly when at most one player has
    the status [playing]. When exactly one has, it is the winner. When
    none has, the winner is the player eliminated at the highest round
    among the rounds above -1, the first in enumeration order of those
    eliminated at that round; there is no winner when no player has
    such a round. *)
Theorem shouldGameEnd_getWinner_spec (s : SimonGameState) :
  (shouldGameEnd s = true <-> (length (activePlayers s) <= 1)%nat) /\
  (forall x, activePlayers s = [x] -> getWinner s = Some (playerId x)) /\
  (forall x r, activePlayers s = [] -> lastEliminated s x r -> -1 < r ->
               getWinner s = Some (playerId x)) /\
  (activePlayers s = [] ->
   (forall y r', In y (JsObject.values (playerStates s)) ->
                 eliminatedAtRound y = Some r' -> r' <= -1) ->
   getWinner s = None).
Proof.
  unfold shouldGameEnd, getWinner, activePlayers. repeat split.
  - intros H. apply Nat.leb_le in H. exact H.
  - intros H. apply Nat.leb_le. exact H.
  - intros x ->. reflexivity.
  - intros x r -> (before & after & Hvalues & Hx & Hbefore & Hafter) Hr.
    rewrite Hvalues, fold_left_app. simpl.
    pose proof (laterEliminated_below before (-1) None r Hr Hbefore) as Hlt.
    destruct (fold_left laterEliminated before (-1, None)) as [m w].
    simpl in Hlt. unfold laterEliminated at 2. rewrite Hx.
    replace (m <? r) with true by (symmetry; apply Z.ltb_lt; exact Hlt).
    rewrite laterEliminated_keep by exact Hafter. reflexivity.
  - intros -> Hall. rewrite laterEliminated_keep by exact Hall.
    reflexivity.
Qed.

End SimonWinner.

(** ** Color Race: one round *)

Section ColorRaceRound.
Import ColorRace.

Lemma filter_correct_In (g : ColorRaceGameState) (l : list PlayerAnswer)
    (b : PlayerAnswer) :
  In b (List.filter
          (fun answer => bool_decide (Some (color answer) = currentColor g))
          l) <->
  In b l /\ isCorrect g b.
Proof.
  rewrite filter_In, bool_decide_eq_true. reflexivity.
Qed.

(** The answer kept by the search is one of those it went through. *)
Lemma faster_In (l : list PlayerAnswer) (a : PlayerAnswer) :
  In (fold_left faster l a) (a :: l).
Proof.
  revert a. induction l as [|b l IH]; intros a; simpl; [auto|].
  specialize (IH (faster a b)). simpl in IH.
  destruct IH as [<-|IH]; [|auto].
  unfold faster. destruct (timestamp b <? timestamp a); auto.
Qed.

(** An answer that no later answer beats is kept. *)
Lemma faster_keep (l : list PlayerAnswer) (a : PlayerAnswer) :
  (forall b, In b l -> timestamp a <= timestamp b) ->
  fold_left faster l a = a.
Proof.
  induction l as [|b l IH]; simpl; intros Hl; [reflexivity|].
  unfold faster at 2.
  replace (timestamp b <? timestamp a) with false.
  - apply IH. auto.
  - symmetry. apply Z.ltb_ge. auto.
Qed.

Lemma fastest_of_correct (first : PlayerAnswer) (rest : list PlayerAnswer)
    (slower later : list PlayerAnswer) (a : PlayerAnswer) :
  first :: rest = slower ++ a :: later ->
  (forall b, In b slower -> timestamp a < timestamp b) ->
  (forall b, In b later -> timestamp a <= timestamp b) ->
  fold_left faster rest first = a.
Proof.
  intros Hsplit Hslower Hlater.
  destruct slower as [|first' slower]; simpl in Hsplit;
    injection Hsplit as -> ->.
  - apply faster_keep. exact Hlater.
  - rewrite fold_left_app. simpl.
    pose proof (faster_In slower first') as Hin.
    apply Hslower in Hin.
    unfold faster at 2.
    replace (timestamp a <? timestamp (fold_left faster slower first'))
      with true by (symmetry; apply Z.ltb_lt; exact Hin).
    apply faster_keep. exact Hlater.
Qed.

(** A list with a correct answer has a fastest correct answer. *)
Lemma fastestCorrect_exists (g : ColorRaceGameState)
    (answers : list PlayerAnswer) :
  (exists b, In b answers /\ isCorrect g b) ->
  exists a, fastestCorrect g answers a.
Proof.
  unfold fastestCorrect.
  induction answers as [|x l IH]; intros (b & Hb & Hcorrect);
    [contradiction|].
  destruct (List.Exists_dec (isCorrect g) l
              (fun y => decide (Some (color y) = currentColor g)))
    as [Hsome|Hnone].
  - apply List.Exists_exists in Hsome.
    destruct (IH Hsome) as (a & before & after & -> & Ha & Hbefore & Hafter).
    destruct (decide ((Some (color x) = currentColor g)
                      /\ timestamp x <= timestamp a))
      as [[Hx Hle]|Hno].
    + exists x, [], (before ++ a :: after).
      split; [reflexivity|]. split; [exact Hx|]. split; [contradiction|].
      intros y Hy Hyc. apply in_app_iff in Hy as [Hy|[<-|Hy]].
      * specialize (Hbefore y Hy Hyc). lia.
      * exact Hle.
      * specialize (Hafter y Hy Hyc). lia.
    + exists a, (x :: before), after.
      split; [reflexivity|]. split; [exact Ha|]. split; [|exact Hafter].
      intros y [<-|Hy] Hyc; [|auto].
      destruct (Z_lt_le_dec (timestamp a) (timestamp x)); [assumption|].
      exfalso. apply Hno. auto.
  - exists x, [], l.
    assert (Hx : isCorrect g x).
    { destruct Hb as [<-|Hb]; [exact Hcorrect|].
      exfalso. apply Hnone. apply List.Exists_exists. eauto. }
    split; [reflexivity|]. split; [exact Hx|]. split; [contradiction|].
    intros y Hy Hyc. exfalso. apply Hnone. apply List.Exists_exists. eauto.
Qed.

Lemma race_advanceToNextRound_fields (g : ColorRaceGameState)
    (winner : option string) (src : Random.Source) :
  let g' := fst (advanceToNextRound g winner src) in
  scores g' = scores g /\ roundWinner g' = winner /\
  totalRounds g' = totalRounds g /\
  (totalRounds g <= round g ->
   phase g' = finished /\ currentColor g' = None /\ round g' = round g) /\
  (round g < totalRounds g ->
   phase g' = showing_color /\ round g' = round g + 1 /\
   exists c, currentColor g' = Some c).
Proof.
  unfold advanceToNextRound, getRandomColor. simpl.
  destruct (totalRounds g <=? round g) eqn:Hlast; simpl.
  - apply Z.leb_le in Hlast. repeat split; try reflexivity; lia.
  - apply Z.leb_gt in Hlast. repeat split; try reflexivity; try lia.
    eexists. reflexivity.
Qed.

(** The states [processRound] hands over to [advanceToNextRound]. *)
Lemma processRound_cases (g : ColorRaceGameState)
    (answers : list PlayerAnswer) (src : Random.Source) :
  ((forall b, In b answers -> ~ isCorrect g b) /\
   processRound g answers src = advanceToNextRound g None src) \/
  (exists a, fastestCorrect g answers a /\
     processRound g answers src =
     advanceToNextRound
       (withScores g
          (JsObject.set (scores g) (playerId a)
             (default 0 (JsObject.get (scores g) (playerId a)) + 1)))
       (Some (playerId a)) src).
Proof.
  unfold processRound, JsObject.spread.
  destruct (List.filter _ answers) as [|first rest] eqn:Hfilter.
  - left. split; [|reflexivity]. intros b Hb Hc.
    assert (Hin : In b []) by (rewrite <- Hfilter; apply filter_correct_In; auto).
    contradiction.
  - right.
    destruct (fastestCorrect_exists g answers) as [a Ha].
    { exists first. apply filter_correct_In. rewrite Hfilter. left; reflexivity. }
    exists a. split; [exact Ha|].
    destruct Ha as (before & after & Hsplit & Ha & Hbefore & Hafter).
    rewrite Hsplit, List.filter_app in Hfilter. simpl in Hfilter.
    replace (bool_decide (Some (color a) = currentColor g)) with true
      in Hfilter by (symmetry; apply bool_decide_eq_true; exact Ha).
    rewrite (fastest_of_correct first rest _ _ a (eq_sym Hfilter)).
    + reflexivity.
    + intros b Hb. apply filter_correct_In in Hb as [Hb Hc]. auto.
    + intros b Hb. apply filter_correct_In in Hb as [Hb Hc]. auto.
Qed.

(** The fastest correct answer is determined by the list. *)
Lemma fastestCorrect_unique (g : ColorRaceGameState)
    (answers : list PlayerAnswer) (a a' : PlayerAnswer) :
  fastestCorrect g answers a -> fastestCorrect g answers a' -> a = a'.
Proof.
  intros (before & after & Hsplit & Ha & Hbefore & Hafter)
         (before' & after' & Hsplit' & Ha' & Hbefore' & Hafter').
  assert (Hfilter : forall l1 l2 x,
    answers = l1 ++ x :: l2 -> isCorrect g x ->
    (forall b, In b l1 -> isCorrect g b -> timestamp x < timestamp b) ->
    (forall b, In b l2 -> isCorrect g b -> timestamp x <= timestamp b) ->
    forall first rest,
      List.filter
        (fun answer => bool_decide (Some (color answer) = currentColor g))
        answers = first :: rest ->
      fold_left faster rest first = x).
  { intros l1 l2 x Hs Hx H1 H2 first rest Hf.
    rewrite Hs, List.filter_app in Hf. simpl in Hf.
    replace (bool_decide (Some (color x) = currentColor g)) with true
      in Hf by (symmetry; apply bool_decide_eq_true; exact Hx).
    apply (fastest_of_correct first rest _ _ x (eq_sym Hf)).
    - intros b Hb. apply filter_correct_In in Hb as [Hb Hc]. auto.
    - intros b Hb. apply filter_correct_In in Hb as [Hb Hc]. auto. }
  destruct (List.filter
              (fun answer => bool_decide (Some (color answer) = currentColor g))
              answers) as [|first rest] eqn:Hf.
  - exfalso.
    assert (Hin : In a []).
    { rewrite <- Hf. apply filter_correct_In. split; [|exact Ha].
      rewrite Hsplit. apply in_app_iff. right. left. reflexivity. }
    contradiction.
  - rewrite <- (Hfilter before after a Hsplit Ha Hbefore Hafter first rest eq_refl).
    apply (Hfilter before' after' a' Hsplit' Ha' Hbefore' Hafter' first rest eq_refl).
Qed.

(** C3. Whatever the state and the answers, the round goes to the
    correct answer with the lowest timestamp, the first in list order
    when several correct answers share that timestamp: its player is
    [roundWinner], and when that player has a score or an id that names
    nothing inherited from [Object.prototype], the score grows by
    exactly one point (from 0 for a player without a score) and no
    other score changes. Answers with another colour play no part,
    whatever their timestamp. Under an inherited name without a score
    ([__proto__], [constructor], ...) the code does not read 0 for the
    missing score, and no point is added. *)
Theorem processRound_awards_fastest (g : ColorRaceGameState)
    (answers : list PlayerAnswer) (src : Random.Source)
    (a : PlayerAnswer) :
  fastestCorrect g answers a ->
  JsObject.plainKey (scores g) (playerId a) = true ->
  let g' := fst (processRound g answers src) in
  roundWinner g' = Some (playerId a) /\
  JsObject.get (scores g') (playerId a) =
    Some (default 0 (JsObject.get (scores g) (playerId a)) + 1) /\
  (forall k, k <> playerId a ->
             JsObject.get (scores g') k = JsObject.get (scores g) k).
Proof.
  intros Ha _. cbv zeta.
  destruct (processRound_cases g answers src)
    as [[Hnone _]|(a' & Ha' & ->)].
  - exfalso. destruct Ha as (before & after & -> & Hc & _).
    apply (Hnone a); [|exact Hc]. apply in_app_iff. right. left. reflexivity.
  - rewrite (fastestCorrect_unique g answers a' a Ha' Ha).
    destruct (race_advanceToNextRound_fields
                (withScores g
                   (JsObject.set (scores g) (playerId a)
                      (default 0 (JsObject.get (scores g) (playerId a)) + 1)))
                (Some (playerId a)) src) as (Hscores & Hwinner & _).
    cbv zeta in Hscores, Hwinner. rewrite Hscores, Hwinner. simpl.
    split; [reflexivity|]. split.
    + apply get_set_eq.
    + intros k Hk. apply get_set_ne. congruence.
Qed.

(** Without a correct answer the round has no winner and the scores
    stay as they are. *)
Lemma processRound_no_correct (g : ColorRaceGameState)
    (answers : list PlayerAnswer) (src : Random.Source) :
  (forall b, In b answers -> ~ isCorrect g b) ->
  let g' := fst (processRound g answers src) in
  roundWinner g' = None /\ scores g' = scores g.
Proof.
  intros Hnone. cbv zeta.
  destruct (processRound_cases g answers src)
    as [[_ ->]|(a & Ha & _)].
  - destruct (race_advanceToNextRound_fields g None src)
      as (Hscores & Hwinner & _).
    auto.
  - exfalso. destruct Ha as (before & after & -> & Hc & _).
    apply (Hnone a); [|exact Hc]. apply in_app_iff. right. left. reflexivity.
Qed.

End ColorRaceRound.

(** ** Color Race: end of the game and winner *)

Section ColorRaceWinner.
Import ColorRace.

Lemma higherScore_below (scores : JsObject.Obj Z) (ks : list string)
    (m : Z) (w : string) (v : Z) :
  m < v ->
  (forall k' v', In k' ks -> JsObject.get scores k' = Some v' -> v' < v) ->
  fst (fold_left (higherScore scores) ks (m, w)) < v.
Proof.
  revert m w. induction ks as [|k ks IH]; simpl; intros m w Hm Hks;
    [exact Hm|].
  destruct (JsObject.get scores k) as [v'|] eqn:Hk.
  - destruct (m <? v'); apply IH; eauto.
  - apply IH; eauto.
Qed.

Lemma higherScore_keep (scores : JsObject.Obj Z) (ks : list string)
    (v : Z) (w : string) :
  (forall k' v', In k' ks -> JsObject.get scores k' = Some v' -> v' <= v) ->
  fold_left (higherScore scores) ks (v, w) = (v, w).
Proof.
  induction ks as [|k ks IH]; simpl; intros Hks; [reflexivity|].
  destruct (JsObject.get scores k) as [v'|] eqn:Hk.
  - replace (v <? v') with false.
    + apply IH. eauto.
    + symmetry. apply Z.ltb_ge. eauto.
  - apply IH. eauto.
Qed.

(** The claim that the winner of a non-empty board is the player with
    the highest score fails when no score is above -1, the value the
    search starts from: the winner has no name, and the score -1. *)
Lemma determineWinner_ignores_negative_scores :
  let g := Samples.negativeBoard in
  scores g <> [] /\
  JsObject.wf (scores g) /\
  topScorer (scores g) "player-1" (-2) /\
  determineWinner g = Some {| winnerId := ""; winnerScore := -1 |} /\
  determineWinner g <>
    Some {| winnerId := "player-1"; winnerScore := -2 |}.
Proof.
  cbv zeta. split; [discriminate|]. split; [|split; [|split]].
  - unfold JsObject.wf. simpl. apply NoDup_cons.
    split; [apply not_elem_of_nil|constructor].
  - exists [], []. repeat split; simpl; intros; contradiction.
  - reflexivity.
  - vm_compute. discriminate.
Qed.

(** C6, amended. [processRound] ends the game in the last round: with
    [round >= totalRounds] the phase becomes [finished] and
    [currentColor] is null; with [round < totalRounds] the round number
    grows by one and the phase is [showing_color]. On a board whose
    highest score is above -1, [determineWinner] gives the player with
    the highest score and that score, the first such player in
    enumeration order on a tie; on an empty board it gives null. *)
Theorem processRound_finish_determineWinner_spec (g : ColorRaceGameState) :
  (forall answers src,
     totalRounds g <= round g ->
     let g' := fst (processRound g answers src) in
     phase g' = finished /\ currentColor g' = None) /\
  (forall answers src,
     round g < totalRounds g ->
     let g' := fst (processRound g answers src) in
     round g' = round g + 1 /\ phase g' = showing_color) /\
  (forall k v,
     JsObject.wf (scores g) -> topScorer (scores g) k v -> -1 < v ->
     determineWinner g = Some {| winnerId := k; winnerScore := v |}) /\
  (scores g = [] -> determineWinner g = None).
Proof.
  split; [|split; [|split]].
  - intros answers src Hlast. cbv zeta.
    destruct (processRound_cases g answers src)
      as [[_ ->]|(a & _ & ->)].
    + destruct (race_advanceToNextRound_fields g None src)
        as (_ & _ & _ & Hfin & _).
      destruct (Hfin Hlast) as (H1 & H2 & _). auto.
    + match goal with
      | |- context [advanceToNextRound ?g0 ?w src] =>
          destruct (race_advanceToNextRound_fields g0 w src)
            as (_ & _ & _ & Hfin & _)
      end.
      destruct (Hfin Hlast) as (H1 & H2 & _). auto.
  - intros answers src Hmore. cbv zeta.
    destruct (processRound_cases g answers src)
      as [[_ ->]|(a & _ & ->)].
    + destruct (race_advanceToNextRound_fields g None src)
        as (_ & _ & _ & _ & Hnext).
      destruct (Hnext Hmore) as (H1 & H2 & _). auto.
    + match goal with
      | |- context [advanceToNextRound ?g0 ?w src] =>
          destruct (race_advanceToNextRound_fields g0 w src)
            as (_ & _ & _ & _ & Hnext)
      end.
      destruct (Hnext Hmore) as (H1 & H2 & _). auto.
  - intros k v Hwf (before & after & Hsplit & Hbefore & Hafter) Hv.
    unfold JsObject.entries in Hsplit.
    assert (Hget : forall k' v', In (k', v') (scores g) ->
                                 JsObject.get (scores g) k' = Some v')
      by (intros k' v'; apply In_get; exact Hwf).
    assert (Hin : forall l k' v', In k' (map fst l) ->
              (forall k0 v0, In (k0, v0) l -> In (k0, v0) (scores g)) ->
              JsObject.get (scores g) k' = Some v' -> In (k', v') l).
    { intros l k' v' Hk Hsub Hk'. apply in_map_iff in Hk as ([k0 v0] & <- & H0).
      simpl in Hk'. rewrite (Hget k0 v0 (Hsub k0 v0 H0)) in Hk'.
      injection Hk' as <-. exact H0. }
    assert (Hkeys : map fst (scores g) = map fst before ++ k :: map fst after)
      by (rewrite Hsplit, map_app; reflexivity).
    unfold determineWinner, JsObject.keys. cbv zeta.
    rewrite Hkeys, length_app. simpl.
    replace (length (map fst before) + S (length (map fst after)) =? 0)%nat
      with false by (symmetry; apply Nat.eqb_neq; lia).
    rewrite fold_left_app. simpl.
    assert (Hlt : fst (fold_left (higherScore (scores g)) (map fst before)
                         (-1, "")) < v).
    { apply higherScore_below; [exact Hv|]. intros k' v' Hk' Hs.
      apply (Hbefore k' v'). apply Hin; [exact Hk'| |exact Hs].
      intros k0 v0 H0. rewrite Hsplit. apply in_app_iff. auto. }
    destruct (fold_left (higherScore (scores g)) (map fst before) (-1, ""))
      as [m w].
    simpl in Hlt. unfold higherScore at 2.
    rewrite (Hget k v)
      by (rewrite Hsplit; apply in_app_iff; right; left; reflexivity).
    replace (m <? v) with true by (symmetry; apply Z.ltb_lt; exact Hlt).
    rewrite higherScore_keep; [reflexivity|].
    intros k' v' Hk' Hs. apply (Hafter k' v').
    apply Hin; [exact Hk'| |exact Hs].
    intros k0 v0 H0. rewrite Hsplit. apply in_app_iff. right. right. exact H0.
  - intros Hempty. unfold determineWinner. rewrite Hempty. reflexivity.
Qed.

End ColorRaceWinner.

(** ** Room codes *)

Section RoomCodes.
Import GameCode.

Lemma chars_append (s1 s2 : string) :
  list_ascii_of_string (s1 ++ s2)%string =
  list_ascii_of_string s1 ++ list_ascii_of_string s2.
Proof.
  induction s1 as [|c s1 IH]; simpl; [reflexivity|]. f_equal. exact IH.
Qed.

Lemma length_chars (s : string) :
  String.length s = length (list_ascii_of_string s).
Proof.
  induction s as [|c s IH]; simpl; [reflexivity|]. f_equal. exact IH.
Qed.

Lemma get_in_range (s : string) (i : nat) :
  (i < String.length s)%nat ->
  exists c, String.get i s = Some c /\ In c (list_ascii_of_string s).
Proof.
  revert i. induction s as [|c s IH]; simpl; intros i Hi; [lia|].
  destruct i as [|i].
  - exists c. auto.
  - destruct (IH i) as (c' & Hget & Hin); [lia|]. exists c'. auto.
Qed.

(** What the alphabet is made of. *)
Lemma alphabet_chars (c : ascii) :
  In c (list_ascii_of_string GAME_CODE_CHARS) ->
  ~ In c CONFUSING_CHARS /\ isUpperOrDigit c = true.
Proof.
  assert (H : forallb
                (fun c => negb (existsb (Ascii.eqb c) CONFUSING_CHARS)
                          && isUpperOrDigit c)
                (list_ascii_of_string GAME_CODE_CHARS) = true)
    by reflexivity.
  rewrite forallb_forall in H. intros Hc. specialize (H c Hc).
  apply andb_true_iff in H as [Hconf Hup]. split; [|exact Hup].
  intros Hin. apply negb_true_iff in Hconf.
  assert (Hex : existsb (Ascii.eqb c) CONFUSING_CHARS = true).
  { apply existsb_exists. exists c. split; [exact Hin|apply Ascii.eqb_refl]. }
  congruence.
Qed.

Lemma advance_0 (src : Random.Source) : Random.advance 0 src = src.
Proof. destruct src. reflexivity. Qed.

Lemma advance_advance (n m : nat) (src : Random.Source) :
  Random.advance n (Random.advance m src) = Random.advance (n + m) src.
Proof. unfold Random.advance. simpl. f_equal. lia. Qed.

(** The loop appends [n] characters of the alphabet and makes [n]
    draws. *)
Lemma generateRandomCode_loop_spec (n : nat) (code : string)
    (src : Random.Source) :
  (exists added,
     list_ascii_of_string (fst (generateRandomCode_loop n code src)) =
     list_ascii_of_string code ++ added /\
     length added = n /\
     forall c, In c added -> In c (list_ascii_of_string GAME_CODE_CHARS)) /\
  snd (generateRandomCode_loop n code src) = Random.advance n src.
Proof.
  revert code src. induction n as [|n IH]; intros code src.
  - simpl. split; [|symmetry; apply advance_0].
    exists []. rewrite app_nil_r. repeat split. intros c [].
  - cbn [generateRandomCode_loop Random.Math_random].
    set (i := Random.floor_scaled _ _).
    destruct (get_in_range GAME_CODE_CHARS i) as (c0 & Hget & Hin).
    { apply floor_scaled_lt. simpl. lia. }
    unfold append_char_at. rewrite Hget.
    match goal with
    | |- context [generateRandomCode_loop n ?code' ?src'] =>
        destruct (IH code' src') as ((added & Hchars & Hlen & Hall) & Hsrc)
    end.
    split.
    + exists (c0 :: added). rewrite Hchars, chars_append. simpl.
      rewrite <- app_assoc. simpl. split; [reflexivity|].
      split; [lia|]. intros c [<-|Hc]; [exact Hin|exact (Hall c Hc)].
    + rewrite Hsrc. unfold Random.advance. simpl. f_equal. lia.
Qed.

Lemma generateRandomCode_wellFormed (src : Random.Source) :
  wellFormedCode (fst (generateRandomCode src)) /\
  snd (generateRandomCode src) = Random.advance GAME_CODE_LENGTH src.
Proof.
  unfold generateRandomCode.
  destruct (generateRandomCode_loop_spec GAME_CODE_LENGTH "" src)
    as ((added & Hchars & Hlen & Hall) & Hsrc).
  split; [|exact Hsrc]. change (list_ascii_of_string "" ++ added)
    with added in Hchars. unfold wellFormedCode.
  rewrite length_chars, Hchars. split; [exact Hlen|].
  intros c Hc. split; [auto|]. apply alphabet_chars. auto.
Qed.

Lemma attemptCode_succ (src : Random.Source) (j : nat) :
  attemptCode src (S j) =
  attemptCode (snd (generateRandomCode src)) j.
Proof.
  unfold attemptCode.
  rewrite (proj2 (generateRandomCode_wellFormed src)), advance_advance.
  replace (S j * GAME_CODE_LENGTH)%nat
    with (j * GAME_CODE_LENGTH + GAME_CODE_LENGTH)%nat by lia.
  reflexivity.
Qed.

(** The loop returns the code of the first attempt that is not taken,
    and throws when there is none among its [n] attempts. *)
Lemma generateGameCode_loop_spec (n : nat) (existingCodes : gset string)
    (src : Random.Source) :
  match fst (generateGameCode_loop n existingCodes src) with
  | Return code =>
      exists i, (i < n)%nat /\ code = attemptCode src i /\
                (code ∉ existingCodes) /\
                forall j, (j < i)%nat -> attemptCode src j ∈ existingCodes
  | Throw _ =>
      forall j, (j < n)%nat -> attemptCode src j ∈ existingCodes
  end.
Proof.
  revert src. induction n as [|n IH]; intros src.
  - simpl. intros j Hj. lia.
  - cbn [generateGameCode_loop].
    assert (Hfirst : attemptCode src 0 = fst (generateRandomCode src)).
    { unfold attemptCode. change (0 * GAME_CODE_LENGTH)%nat with 0%nat.
      rewrite advance_0. reflexivity. }
    pose proof (attemptCode_succ src) as Hnext.
    destruct (generateRandomCode src) as [code src'] eqn:Hcode.
    simpl in Hfirst, Hnext.
    destruct (bool_decide (code ∈ existingCodes)) eqn:Htaken.
    + apply bool_decide_eq_true in Htaken. specialize (IH src').
      destruct (fst (generateGameCode_loop n existingCodes src'))
        as [code'|message].
      * destruct IH as (i & Hi & Heq & Hfree & Hbefore).
        exists (S i). split; [lia|]. split; [rewrite Hnext; exact Heq|].
        split; [exact Hfree|]. intros [|j] Hj.
        -- rewrite Hfirst. exact Htaken.
        -- rewrite Hnext. apply Hbefore. lia.
      * intros [|j] Hj.
        -- rewrite Hfirst. exact Htaken.
        -- rewrite Hnext. apply IH. lia.
    + apply bool_decide_eq_false in Htaken. simpl.
      exists 0%nat. split; [lia|]. split; [auto|]. split; [exact Htaken|].
      intros j Hj. lia.
Qed.

(** C7. Whatever the codes in use and the bound on the attempts, a code
    returned by [generateGameCode] has exactly 6 characters, all of them
    from the alphabet of uppercase letters and digits without 0, O, 1,
    I and L, and it is not one of the codes in use; it is the code of
    the first attempt that is not in use. The call throws exactly when
    the code of every attempt up to the bound is in use. *)
Theorem generateGameCode_spec (existingCodes : gset string)
    (maxAttempts : Z) (src : Random.Source) :
  (forall code,
     fst (generateGameCode existingCodes maxAttempts src) = Return code ->
     wellFormedCode code /\ (code ∉ existingCodes) /\
     exists i, (i < Z.to_nat maxAttempts)%nat /\
               code = attemptCode src i /\
               forall j, (j < i)%nat -> attemptCode src j ∈ existingCodes) /\
  ((exists message,
      fst (generateGameCode existingCodes maxAttempts src) = Throw message)
   <->
   forall j, (j < Z.to_nat maxAttempts)%nat ->
             attemptCode src j ∈ existingCodes).
Proof.
  unfold generateGameCode.
  pose proof (generateGameCode_loop_spec (Z.to_nat maxAttempts)
                existingCodes src) as H.
  destruct (fst (generateGameCode_loop (Z.to_nat maxAttempts)
                   existingCodes src)) as [code|message].
  - destruct H as (i & Hi & Heq & Hfree & Hbefore). split.
    + intros code' [= <-]. split; [|split; [exact Hfree|eauto]].
      rewrite Heq. unfold attemptCode.
      apply generateRandomCode_wellFormed.
    + split; [intros [message [=]]|].
      intros Hall. exfalso. apply Hfree. rewrite Heq. auto.
  - split; [discriminate|]. split; [auto|]. intros _. eauto.
Qed.

End RoomCodes.

(** * The cases of the test suite and of the design document *)

Section Scenarios.

(** Object keys that are array indices come first, whatever the order of
    the writes. *)
Example set_orders_index_keys :
  JsObject.keys
    (JsObject.set (JsObject.set (JsObject.set [] "b" 1) "2" 5) "1" 7) =
  ["1"; "2"; "b"].
Proof. reflexivity. Qed.

Example set_keeps_place :
  JsObject.set [("player-1", 0); ("player-2", 0)] "player-1" 1 =
  [("player-1", 1); ("player-2", 0)].
Proof. reflexivity. Qed.

(** "should award point to fastest correct answer" *)
Example race_fastest_scores :
  let g' := fst (ColorRace.processRound Samples.redRound
                   [Samples.answer "player-1" red 1000;
                    Samples.answer "player-2" red 1500]
                   Samples.zeroSource) in
  ColorRace.scores g' = [("player-1", 1); ("player-2", 0)] /\
  ColorRace.roundWinner g' = Some "player-1" /\
  ColorRace.round g' = 2 /\
  ColorRace.phase g' = ColorRace.showing_color.
Proof. repeat split; reflexivity. Qed.

(** "should ignore wrong answers when determining winner" *)
Example race_wrong_answer_ignored :
  let g' := fst (ColorRace.processRound Samples.redRound
                   [Samples.answer "player-1" blue 500;
                    Samples.answer "player-2" red 1000]
                   Samples.zeroSource) in
  ColorRace.scores g' = [("player-1", 0); ("player-2", 1)] /\
  ColorRace.roundWinner g' = Some "player-2".
Proof. repeat split; reflexivity. Qed.

(** "should not award points if no correct answers" *)
Example race_no_correct_answer :
  let g' := fst (ColorRace.processRound Samples.redRound
                   [Samples.answer "player-1" blue 1000;
                    Samples.answer "player-2" green 1500]
                   Samples.zeroSource) in
  ColorRace.scores g' = [("player-1", 0); ("player-2", 0)] /\
  ColorRace.roundWinner g' = None.
Proof. repeat split; reflexivity. Qed.

(** "should finish game on last round" *)
Example race_last_round :
  let g' := fst (ColorRace.processRound
                   (Samples.raceState (Some red) 5
                      [("player-1", 0); ("player-2", 0)])
                   [Samples.answer "player-1" red 1000]
                   Samples.zeroSource) in
  ColorRace.phase g' = ColorRace.finished /\
  ColorRace.currentColor g' = None /\
  ColorRace.round g' = 5.
Proof. repeat split; reflexivity. Qed.

(** "should return first player in case of tie" *)
Example race_tie_first_player :
  ColorRace.determineWinner
    (Samples.raceState None 5 [("player-1", 2); ("player-2", 2)]) =
  Some {| ColorRace.winnerId := "player-1"; ColorRace.winnerScore := 2 |}.
Proof. reflexivity. Qed.

(** "should return null if no players" *)
Example race_no_players :
  ColorRace.determineWinner (Samples.raceState None 5 []) = None.
Proof. reflexivity. Qed.

(** A sequence game: the first colour is repeated, the round advances
    to 2 with a sequence of two colours. *)
Example simon_first_round :
  let s0 := fst (Simon.initializeSimonGame Samples.twoPlayers
                   Samples.zeroSource) in
  let s1 := Simon.applyValidatedInput s0 "player-1" red 0 in
  let s2 := fst (Simon.advanceToNextRound s1 Samples.zeroSource) in
  Simon.sequence s0 = [red] /\
  Simon.validateInput s0 "player-1" red 0 = true /\
  option_map Simon.currentInputIndex
    (JsObject.get (Simon.playerStates s1) "player-1") = Some 1 /\
  Simon.round s2 = 2 /\
  length (Simon.sequence s2) = 2%nat /\
  Simon.timeoutMs s2 = 4750.
Proof. repeat split; reflexivity. Qed.

(** A wrong colour puts the player out; the other player wins. *)
Example simon_wrong_colour :
  let s0 := fst (Simon.initializeSimonGame Samples.twoPlayers
                   Samples.zeroSource) in
  let s1 := Simon.eliminatePlayer s0 "player-2" 1 in
  Simon.validateInput s0 "player-2" blue 0 = false /\
  Simon.shouldGameEnd s0 = false /\
  Simon.shouldGameEnd s1 = true /\
  Simon.getWinner s1 = Some "player-1".
Proof. repeat split; reflexivity. Qed.

(** Every attempt collides: the call throws. *)
Example code_generation_exhausted :
  fst (GameCode.generateGameCode {["AAAAAA"]} 3 Samples.zeroSource) =
  GameCode.Throw
    "Failed to generate unique game code after maximum attempts".
Proof. vm_compute. reflexivity. Qed.

Example code_generation_first_free :
  fst (GameCode.generateGameCode ∅ 100 Samples.countingSource) =
  GameCode.Return "AEHMPR".
Proof. vm_compute. reflexivity. Qed.

(** The names the hypotheses on keys leave out: none of them is a player
    of the sample game, and all of them are found by [o[k]]. *)
Example inherited_names_are_not_plain :
  Forall (fun k =>
            JsObject.plainKey (Simon.playerStates Samples.midRound) k = false)
         JsObject.inheritedNames /\
  JsObject.ordinary "player-1" /\ JsObject.ordinary "nobody".
Proof. split; [repeat constructor|split; reflexivity]. Qed.

End Scenarios.

(** * The properties at work on concrete games *)

Section Witnesses.

Lemma validateInput_spec_witness :
  Simon.validateInput Samples.midRound "player-1" green 1 = true /\
  Simon.validateInput Samples.midRound "nobody" green 1 = false /\
  Simon.validateInput Samples.midRound "player-1" red 0 = false.
Proof.
  split; [|split].
  - apply (proj1 (validateInput_spec Samples.midRound "player-1" green 1)).
    exists (snd (Samples.simonPlayer "player-1" Simon.playing 1 None)).
    repeat split; reflexivity.
  - apply (proj1 (proj2
             (validateInput_spec Samples.midRound "nobody" green 1))).
    reflexivity.
  - apply (proj2 (proj2
             (validateInput_spec Samples.midRound "player-1" red 0))
             (snd (Samples.simonPlayer "player-1" Simon.playing 1 None))).
    + reflexivity.
    + simpl. lia.
Defined.

Lemma shouldGameEnd_getWinner_spec_witness :
  Simon.activePlayers Samples.allOut = [] /\
  Simon.getWinner Samples.allOut = Some "player-2".
Proof.
  split; [reflexivity|].
  apply (proj1 (proj2 (proj2
           (shouldGameEnd_getWinner_spec Samples.allOut)))
           (snd (Samples.simonPlayer "player-2" Simon.eliminated 1 (Some 2)))
           2).
  - reflexivity.
  - exists [snd (Samples.simonPlayer "player-1" Simon.eliminated 0 (Some 1))],
           [snd (Samples.simonPlayer "player-3" Simon.eliminated 0 (Some 2))].
    split; [reflexivity|]. split; [reflexivity|]. split.
    + intros y r' [<-|[]] [= <-]. lia.
    + intros y r' [<-|[]] [= <-]. lia.
  - lia.
Defined.

Lemma processRound_awards_fastest_witness :
  let a := Samples.answer "player-2" red 1000 in
  let g' := fst (ColorRace.processRound Samples.redRound Samples.redAnswers
                   Samples.zeroSource) in
  ColorRace.fastestCorrect Samples.redRound Samples.redAnswers a /\
  ColorRace.roundWinner g' = Some "player-2" /\
  JsObject.get (ColorRace.scores g') "player-2" = Some 1 /\
  JsObject.get (ColorRace.scores g') "player-1" = Some 0.
Proof.
  cbv zeta.
  assert (H : ColorRace.fastestCorrect Samples.redRound Samples.redAnswers
                (Samples.answer "player-2" red 1000)).
  { exists [Samples.answer "player-1" blue 500],
           [Samples.answer "player-1" red 1000].
    split; [reflexivity|]. split; [reflexivity|]. split.
    - intros b [<-|[]] Hb. discriminate Hb.
    - intros b [<-|[]] _. simpl. lia. }
  split; [exact H|].
  destruct (processRound_awards_fastest Samples.redRound Samples.redAnswers
              Samples.zeroSource _ H eq_refl) as (Hwinner & Hscore & Hothers).
  split; [exact Hwinner|]. split; [exact Hscore|].
  rewrite (Hothers "player-1"); [reflexivity|]. discriminate.
Defined.

Lemma reachable_sequence_round_progress_witness :
  let s0 := fst (Simon.initializeSimonGame Samples.twoPlayers
                   Samples.zeroSource) in
  let s1 := Simon.applyValidatedInput s0 "player-1" red 0 in
  let s2 := fst (Simon.advanceToNextRound s1 Samples.zeroSource) in
  Simon.reachable Simon.validated_step s2 /\
  Z.of_nat (length (Simon.sequence s2)) = Simon.round s2 /\
  forall ps, In ps (JsObject.values (Simon.playerStates s2)) ->
             Simon.currentInputIndex ps
             <= Z.of_nat (length (Simon.sequence s2)).
Proof.
  cbv zeta.
  assert (H : Simon.reachable Simon.validated_step
                (fst (Simon.advanceToNextRound
                        (Simon.applyValidatedInput
                           (fst (Simon.initializeSimonGame
                                   Samples.twoPlayers Samples.zeroSource))
                           "player-1" red 0)
                        Samples.zeroSource))).
  { eapply Simon.reach_step; [eapply Simon.reach_step|].
    - apply Simon.reach_init.
    - apply Simon.vstep_input.
    - apply Simon.vstep_advance. }
  split; [exact H|].
  apply (reachable_sequence_round_progress _ H).
Defined.

Lemma advanceToNextRound_spec_witness :
  let s' := fst (Simon.advanceToNextRound Samples.midRound
                   Samples.zeroSource) in
  1500 <= Simon.timeoutMs Samples.midRound /\
  Simon.timeoutMs s' <= Simon.timeoutMs Samples.midRound.
Proof.
  cbv zeta.
  assert (H : 1500 <= Simon.timeoutMs Samples.midRound) by (simpl; lia).
  split; [exact H|].
  destruct (advanceToNextRound_spec Samples.midRound Samples.zeroSource)
    as (_ & _ & _ & _ & _ & Hle & _).
  exact (Hle H).
Defined.

Lemma processRound_finish_determineWinner_spec_witness :
  JsObject.wf (ColorRace.scores Samples.tiedBoard) /\
  ColorRace.topScorer (ColorRace.scores Samples.tiedBoard) "player-2" 2 /\
  ColorRace.determineWinner Samples.tiedBoard =
    Some {| ColorRace.winnerId := "player-2"; ColorRace.winnerScore := 2 |}.
Proof.
  assert (Hwf : JsObject.wf (ColorRace.scores Samples.tiedBoard)).
  { unfold JsObject.wf. simpl. repeat (apply NoDup_cons_2);
      [| |apply not_elem_of_nil|constructor];
      rewrite list_elem_of_In; simpl; intuition discriminate. }
  assert (Htop : ColorRace.topScorer (ColorRace.scores Samples.tiedBoard)
                   "player-2" 2).
  { exists [("player-1", 1)], [("player-3", 2)].
    split; [reflexivity|]. split.
    - intros k' v' [[= <- <-]|[]]. lia.
    - intros k' v' [[= <- <-]|[]]. lia. }
  split; [exact Hwf|]. split; [exact Htop|].
  apply (proj1 (proj2 (proj2
           (processRound_finish_determineWinner_spec Samples.tiedBoard)))
           "player-2" 2 Hwf Htop).
  lia.
Defined.

Lemma generateGameCode_spec_witness :
  fst (GameCode.generateGameCode {["AEHMPR"]} 2 Samples.countingSource) =
    GameCode.Return "STUVWX" /\
  GameCode.wellFormedCode "STUVWX" /\
  "STUVWX" ∉ ({["AEHMPR"]} : gset string).
Proof.
  assert (H : fst (GameCode.generateGameCode {["AEHMPR"]} 2
                     Samples.countingSource) = GameCode.Return "STUVWX")
    by (vm_compute; reflexivity).
  split; [exact H|].
  destruct (proj1 (generateGameCode_spec {["AEHMPR"]} 2
                     Samples.countingSource) "STUVWX" H)
    as (Hform & Hfree & _).
  split; [exact Hform|exact Hfree].
Defined.

Lemma validateInput_resubmission_witness :
  let s' := Simon.updatePlayerProgress Samples.midRound "player-1" in
  Simon.validateInput Samples.midRound "player-1" green 1 = true /\
  Simon.validateInput s' "player-1" green 1 = false /\
  Simon.applyValidatedInput s' "player-1" green 1 = s'.
Proof.
  cbv zeta. split; [reflexivity|].
  apply (validateInput_resubmission Samples.midRound "player-1"
           (snd (Samples.simonPlayer "player-1" Simon.playing 1 None))
           green 1); reflexivity.
Defined.

Lemma status_never_goes_back_witness :
  let s0 := fst (Simon.initializeSimonGame Samples.twoPlayers
                   Samples.zeroSource) in
  let s := Simon.eliminatePlayer s0 "player-2" 1 in
  let s' := fst (Simon.advanceToNextRound
                   (Simon.updatePlayerProgress
                      (Simon.updatePlayerProgress s "player-1") "player-2")
                   Samples.zeroSource) in
  JsObject.get (Simon.playerStates s) "player-2" =
    Some (snd (Samples.simonPlayer "player-2" Simon.eliminated 0 (Some 1))) /\
  Simon.eliminated <> Simon.playing /\
  exists ps', JsObject.get (Simon.playerStates s') "player-2" = Some ps' /\
              Simon.statusMove Simon.eliminated (Simon.status ps') /\
              (Simon.eliminated <> Simon.playing ->
               Simon.status ps' <> Simon.playing).
Proof.
  cbv zeta. split; [reflexivity|]. split; [discriminate|].
  apply (status_never_goes_back
           (Simon.eliminatePlayer
              (fst (Simon.initializeSimonGame Samples.twoPlayers
                      Samples.zeroSource)) "player-2" 1)
           _ "player-2"
           (snd (Samples.simonPlayer "player-2" Simon.eliminated 0
                   (Some 1)))).
  - eapply Simon.reach_step; [apply Simon.reach_init|].
    apply Simon.ostep_eliminate.
  - eapply Simon.osteps_step;
      [eapply Simon.osteps_step; [eapply Simon.osteps_step|]|].
    + apply Simon.osteps_refl.
    + apply (Simon.ostep_progress _ "player-1").
    + apply (Simon.ostep_progress _ "player-2").
    + apply Simon.ostep_advance.
  - reflexivity.
Defined.

Lemma unknown_player_noop_witness :
  JsObject.get (Simon.playerStates Samples.midRound) "nobody" = None /\
  JsObject.ordinary "nobody" /\
  Simon.eliminatePlayer Samples.midRound "nobody" 2 = Samples.midRound /\
  Simon.updatePlayerProgress Samples.midRound "nobody" = Samples.midRound.
Proof.
  split; [reflexivity|]. split; [reflexivity|].
  apply (unknown_player_noop Samples.midRound "nobody" 2); reflexivity.
Defined.

End Witnesses.

(** * Further properties of the game logic *)

(** ** Color Race: the leaderboard *)

Section LeaderboardOrder.
Import Leaderboard.

Lemma insertSorted_Permutation {A : Type} (compare : A -> A -> Z) (x : A)
    (l : list A) :
  Permutation (JsArray.insertSorted compare x l) (x :: l).
Proof.
  induction l as [|y l IH]; simpl; [reflexivity|].
  destruct (0 <? compare x y); [|reflexivity].
  rewrite IH. apply perm_swap.
Qed.

Lemma sort_Permutation {A : Type} (compare : A -> A -> Z) (l : list A) :
  Permutation (JsArray.sort compare l) l.
Proof.
  induction l as [|x l IH]; simpl; [reflexivity|].
  rewrite insertSorted_Permutation. apply perm_skip. exact IH.
Qed.

Lemma insertSorted_descending (x : Entry) (l : list Entry) :
  StronglySorted notBelow l ->
  StronglySorted notBelow (JsArray.insertSorted byScoreDescending x l).
Proof.
  induction l as [|y l IH]; simpl; intros Hl.
  - constructor; constructor.
  - apply StronglySorted_inv in Hl as [Hl Hy].
    unfold byScoreDescending at 1.
    destruct (0 <? score y - score x) eqn:Hcmp.
    + apply Z.ltb_lt in Hcmp. constructor; [auto|].
      rewrite List.Forall_forall in *. intros z Hz.
      apply (Permutation_in _ (insertSorted_Permutation _ x l)) in Hz.
      destruct Hz as [<-|Hz]; [unfold notBelow; lia|auto].
    + apply Z.ltb_ge in Hcmp. constructor.
      * constructor; assumption.
      * constructor; [unfold notBelow; lia|].
        rewrite List.Forall_forall in *. intros z Hz.
        specialize (Hy z Hz). unfold notBelow in *. lia.
Qed.

Lemma sort_descending (l : list Entry) :
  StronglySorted notBelow (JsArray.sort byScoreDescending l).
Proof.
  induction l as [|x l IH]; simpl; [constructor|].
  apply insertSorted_descending. exact IH.
Qed.

Lemma insertSorted_withScore (v : Z) (x : Entry) (l : list Entry) :
  withScore v (JsArray.insertSorted byScoreDescending x l) =
  withScore v (x :: l).
Proof.
  unfold withScore.
  induction l as [|y l IH]; simpl; [reflexivity|].
  unfold byScoreDescending at 1.
  destruct (0 <? score y - score x) eqn:Hcmp; [|reflexivity].
  apply Z.ltb_lt in Hcmp. simpl. rewrite IH. simpl.
  destruct (score x =? v) eqn:Hx; [|reflexivity].
  apply Z.eqb_eq in Hx.
  replace (score y =? v) with false; [reflexivity|].
  symmetry. apply Z.eqb_neq. lia.
Qed.

Lemma sort_withScore (v : Z) (l : list Entry) :
  withScore v (JsArray.sort byScoreDescending l) = withScore v l.
Proof.
  induction l as [|x l IH]; simpl; [reflexivity|].
  rewrite insertSorted_withScore. unfold withScore in *. simpl.
  rewrite IH. reflexivity.
Qed.

Lemma mapIndexed_length {A B : Type} (f : A -> Z -> B) (start : Z)
    (l : list A) :
  length (JsArray.mapIndexed f start l) = length l.
Proof.
  revert start. induction l as [|x l IH]; intros start; simpl;
    [reflexivity|].
  f_equal. apply IH.
Qed.

Lemma mapIndexed_nth {A B : Type} (f : A -> Z -> B) (start : Z)
    (l : list A) (i : nat) :
  nth_error (JsArray.mapIndexed f start l) i =
  option_map (fun x => f x (start + Z.of_nat i)) (nth_error l i).
Proof.
  revert start i. induction l as [|x l IH]; intros start [|i]; simpl;
    try reflexivity.
  - rewrite Z.add_0_r. reflexivity.
  - rewrite IH. destruct (nth_error l i); simpl; [|reflexivity].
    do 2 f_equal. lia.
Qed.

Lemma mapIndexed_ranked (start : Z) (l : list Entry) :
  map ranked
    (JsArray.mapIndexed
       (fun entry index => {| ranked := entry; rank := index + 1 |})
       start l) = l.
Proof.
  revert start. induction l as [|x l IH]; intros start; simpl;
    [reflexivity|].
  f_equal. apply IH.
Qed.

(** X1. The leaderboard lists every player of the board once, with its
    score, from the highest score to the lowest, and numbers the lines
    1, 2, 3, ... from the top. *)
Theorem getLeaderboard_sorted_ranked (g : ColorRace.ColorRaceGameState) :
  let board := getLeaderboard g in
  Permutation
    (map (fun e => (playerId (ranked e), score (ranked e))) board)
    (JsObject.entries (ColorRace.scores g)) /\
  StronglySorted
    (fun above below => score (ranked below) <= score (ranked above))
    board /\
  (forall i e, nth_error board i = Some e -> rank e = Z.of_nat i + 1).
Proof.
  unfold getLeaderboard, JsObject.entries. cbv zeta.
  set (entries := map (fun entry => {| playerId := fst entry;
                                         score := snd entry |})
                      (ColorRace.scores g)).
  set (rankIt := fun (entry : Entry) (index : Z) =>
                   {| ranked := entry; rank := index + 1 |}).
  split; [|split].
  - rewrite <- (map_map ranked
                  (fun e => (playerId e, score e))).
    unfold rankIt. rewrite mapIndexed_ranked.
    rewrite (Permutation_map _ (sort_Permutation byScoreDescending entries)).
    unfold entries. rewrite map_map. simpl.
    rewrite (map_ext _ (fun x => x)) by (intros [k v]; reflexivity).
    rewrite map_id. reflexivity.
  - pose proof (sort_descending entries) as Hsorted.
    revert Hsorted. generalize (JsArray.sort byScoreDescending entries).
    generalize 0. intros start l. revert start.
    induction l as [|x l IH]; intros start Hl; simpl; [constructor|].
    apply StronglySorted_inv in Hl as [Hl Hx].
    constructor; [apply IH; exact Hl|].
    rewrite List.Forall_forall in *. intros e He.
    apply (in_map ranked) in He. unfold rankIt in He.
    rewrite mapIndexed_ranked in He. apply (Hx _ He).
  - intros i e Hi. unfold rankIt in Hi. rewrite mapIndexed_nth in Hi.
    destruct (nth_error _ i); simpl in Hi; [|discriminate].
    injection Hi as <-. simpl. lia.
Qed.

(** X2. Players with the same score are listed in the order in which the
    board enumerates them. *)
Theorem getLeaderboard_ties_in_order (g : ColorRace.ColorRaceGameState)
    (v : Z) :
  withScore v (map ranked (getLeaderboard g)) =
  withScore v
    (map (fun entry => {| playerId := fst entry; score := snd entry |})
         (JsObject.entries (ColorRace.scores g))).
Proof.
  unfold getLeaderboard. cbv zeta. rewrite mapIndexed_ranked.
  apply sort_withScore.
Qed.

End LeaderboardOrder.

(** ** Color Race: the winner and the top of the leaderboard *)

Section LeaderboardTop.
Import ColorRace.

(** A board that is not empty has a top scorer. *)
Lemma topScorer_exists (scores : JsObject.Obj Z) :
  scores <> [] -> exists k v, topScorer scores k v.
Proof.
  unfold topScorer, JsObject.entries.
  induction scores as [|[k0 v0] l IH]; intros Hne; [congruence|].
  destruct l as [|e l'].
  - exists k0, v0, [], []. repeat split; simpl; intros; contradiction.
  - destruct IH as (k & v & before & after & Hsplit & Hbefore & Hafter);
      [discriminate|].
    rewrite Hsplit.
    destruct (Z_lt_le_dec v0 v) as [Hlt|Hge].
    + exists k, v, ((k0, v0) :: before), after.
      split; [reflexivity|]. split; [|exact Hafter].
      intros k' v' [[= <- <-]|Hin]; [exact Hlt|eauto].
    + exists k0, v0, [], (before ++ (k, v) :: after).
      split; [reflexivity|]. split; [intros k' v' []|].
      intros k' v' Hin. apply in_app_iff in Hin as [Hin|[[= <- <-]|Hin]].
      * specialize (Hbefore k' v' Hin). lia.
      * exact Hge.
      * specialize (Hafter k' v' Hin). lia.
Qed.

(** The search of [determineWinner] ends on the top scorer when its
    score is above -1. *)
Lemma determineWinner_topScorer (g : ColorRaceGameState) (k : string)
    (v : Z) :
  JsObject.wf (scores g) -> topScorer (scores g) k v -> -1 < v ->
  determineWinner g = Some {| winnerId := k; winnerScore := v |}.
Proof.
  intros Hwf (before & after & Hsplit & Hbefore & Hafter) Hv.
  unfold JsObject.entries in Hsplit.
  assert (Hget : forall k' v', In (k', v') (scores g) ->
                               JsObject.get (scores g) k' = Some v')
    by (intros k' v'; apply In_get; exact Hwf).
  assert (Hin : forall l k' v', In k' (map fst l) ->
            (forall k0 v0, In (k0, v0) l -> In (k0, v0) (scores g)) ->
            JsObject.get (scores g) k' = Some v' -> In (k', v') l).
  { intros l k' v' Hk Hsub Hk'.
    apply in_map_iff in Hk as ([k0 v0] & <- & H0).
    simpl in Hk'. rewrite (Hget k0 v0 (Hsub k0 v0 H0)) in Hk'.
    injection Hk' as <-. exact H0. }
  assert (Hkeys : map fst (scores g) = map fst before ++ k :: map fst after)
    by (rewrite Hsplit, map_app; reflexivity).
  unfold determineWinner, JsObject.keys. cbv zeta.
  rewrite Hkeys, length_app. simpl.
  replace (length (map fst before) + S (length (map fst after)) =? 0)%nat
    with false by (symmetry; apply Nat.eqb_neq; lia).
  rewrite fold_left_app. simpl.
  assert (Hlt : fst (fold_left (higherScore (scores g)) (map fst before)
                       (-1, "")) < v).
  { apply higherScore_below; [exact Hv|]. intros k' v' Hk' Hs.
    apply (Hbefore k' v'). apply Hin; [exact Hk'| |exact Hs].
    intros k0 v0 H0. rewrite Hsplit. apply in_app_iff. auto. }
  destruct (fold_left (higherScore (scores g)) (map fst before) (-1, ""))
    as [m w].
  simpl in Hlt. unfold higherScore at 2.
  rewrite (Hget k v)
    by (rewrite Hsplit; apply in_app_iff; right; left; reflexivity).
  replace (m <? v) with true by (symmetry; apply Z.ltb_lt; exact Hlt).
  rewrite higherScore_keep; [reflexivity|].
  intros k' v' Hk' Hs. apply (Hafter k' v').
  apply Hin; [exact Hk'| |exact Hs].
  intros k0 v0 H0. rewrite Hsplit. apply in_app_iff. right. right. exact H0.
Qed.

(** With no score above -1 the search keeps its starting values. *)
Lemma determineWinner_below (g : ColorRaceGameState) :
  scores g <> [] ->
  (forall k v, JsObject.get (scores g) k = Some v -> v <= -1) ->
  determineWinner g = Some {| winnerId := ""; winnerScore := -1 |}.
Proof.
  intros Hne Hall. unfold determineWinner, JsObject.keys. cbv zeta.
  replace (length (map fst (scores g)) =? 0)%nat with false.
  - rewrite higherScore_keep; [reflexivity|]. intros k' v' _ Hget. eauto.
  - symmetry. apply Nat.eqb_neq.
    destruct (scores g); [congruence|simpl; lia].
Qed.

Lemma insertSorted_top (x : Leaderboard.Entry)
    (l : list Leaderboard.Entry) :
  (forall y, In y l -> Leaderboard.score y <= Leaderboard.score x) ->
  JsArray.insertSorted Leaderboard.byScoreDescending x l = x :: l.
Proof.
  destruct l as [|y l]; simpl; intros Hl; [reflexivity|].
  unfold Leaderboard.byScoreDescending.
  replace (0 <? Leaderboard.score y - Leaderboard.score x) with false;
    [reflexivity|].
  symmetry. apply Z.ltb_ge. specialize (Hl y (or_introl eq_refl)). lia.
Qed.

Lemma sort_top (before after : list Leaderboard.Entry)
    (x : Leaderboard.Entry) :
  (forall y, In y before -> Leaderboard.score y < Leaderboard.score x) ->
  (forall y, In y after -> Leaderboard.score y <= Leaderboard.score x) ->
  JsArray.sort Leaderboard.byScoreDescending (before ++ x :: after) =
  x :: JsArray.sort Leaderboard.byScoreDescending (before ++ after).
Proof.
  intros Hbefore Hafter.
  induction before as [|b before IH]; simpl.
  - apply insertSorted_top. intros y Hy.
    apply (Permutation_in _ (sort_Permutation _ after)) in Hy. auto.
  - rewrite IH by (intros y Hy; apply Hbefore; right; exact Hy).
    simpl. unfold Leaderboard.byScoreDescending at 1.
    replace (0 <? Leaderboard.score x - Leaderboard.score b) with true;
      [reflexivity|].
    symmetry. apply Z.ltb_lt.
    specialize (Hbefore b (or_introl eq_refl)). lia.
Qed.

(** X3. The winner [determineWinner] names, whenever its score is above -1,
    is the player on the first line of the leaderboard, with the same
    score: both settle a tie for the player the board enumerates
    first. *)
Theorem leaderboard_top_is_winner (g : ColorRaceGameState) (w : Winner) :
  JsObject.wf (scores g) ->
  determineWinner g = Some w ->
  -1 < winnerScore w ->
  hd_error (Leaderboard.getLeaderboard g) =
  Some {| Leaderboard.ranked :=
            {| Leaderboard.playerId := winnerId w;
               Leaderboard.score := winnerScore w |};
          Leaderboard.rank := 1 |}.
Proof.
  intros Hwf Hwinner Hscore.
  assert (Hne : scores g <> []).
  { intros Hempty. unfold determineWinner in Hwinner.
    rewrite Hempty in Hwinner. discriminate. }
  destruct (topScorer_exists (scores g) Hne) as (k & v & Htop).
  assert (Hw : w = {| winnerId := k; winnerScore := v |}).
  { destruct (Z_lt_le_dec (-1) v) as [Hv|Hv].
    - rewrite (determineWinner_topScorer g k v Hwf Htop Hv) in Hwinner.
      congruence.
    - exfalso. rewrite determineWinner_below in Hwinner.
      + injection Hwinner as <-. simpl in Hscore. lia.
      + exact Hne.
      + intros k' v' Hget. apply get_Some_In in Hget.
        destruct Htop as (before & after & Hsplit & Hbefore & Hafter).
        unfold JsObject.entries in Hsplit. rewrite Hsplit in Hget.
        apply in_app_iff in Hget as [Hin|[[= <- <-]|Hin]].
        * specialize (Hbefore k' v' Hin). lia.
        * exact Hv.
        * specialize (Hafter k' v' Hin). lia. }
  subst w. simpl.
  destruct Htop as (before & after & Hsplit & Hbefore & Hafter).
  unfold Leaderboard.getLeaderboard. cbv zeta. rewrite Hsplit.
  rewrite map_app. simpl map.
  rewrite sort_top.
  - reflexivity.
  - intros y Hy. apply in_map_iff in Hy as ([k' v'] & <- & Hin). simpl.
    eauto.
  - intros y Hy. apply in_map_iff in Hy as ([k' v'] & <- & Hin). simpl.
    eauto.
Qed.

End LeaderboardTop.

(** ** Color Race: points, rounds and the end of the game *)

Section ColorRaceGames.
Import ColorRace.

Lemma totalScore_overwrite (o : JsObject.Obj Z) (k : string) (old v : Z) :
  JsObject.get o k = Some old ->
  totalScore (JsObject.overwrite o k v) = totalScore o + v - old.
Proof.
  unfold totalScore.
  induction o as [|[k0 v0] o IH]; simpl; [discriminate|].
  destruct (decide (k0 = k)) as [->|Hne]; simpl.
  - intros [= ->]. lia.
  - intros Hget. rewrite (IH Hget). lia.
Qed.

Lemma totalScore_insert_index (o : JsObject.Obj Z) (n : N) (k : string)
    (v : Z) :
  totalScore (JsObject.insert_index o n k v) = totalScore o + v.
Proof.
  unfold totalScore.
  induction o as [|[k0 v0] o IH]; simpl; [lia|].
  destruct (JsObject.array_index k0) as [m|]; [destruct (m <? n)%N|];
    simpl; lia.
Qed.

(** Writing a score changes the sum by what the score changes by. *)
Lemma totalScore_set (o : JsObject.Obj Z) (k : string) (v : Z) :
  totalScore (JsObject.set o k v) =
  totalScore o + v - default 0 (JsObject.get o k).
Proof.
  unfold JsObject.set, JsObject.define.
  destruct (JsObject.get o k) as [old|] eqn:Hget; simpl.
  - apply totalScore_overwrite. exact Hget.
  - destruct (JsObject.array_index k).
    + rewrite totalScore_insert_index. lia.
    + unfold totalScore, JsObject.values.
      rewrite map_app, fold_right_app. simpl.
      generalize (map snd o). intros l.
      induction l as [|x l IH]; simpl; lia.
Qed.

Lemma existsb_validateAnswer (g : ColorRaceGameState)
    (answers : list PlayerAnswer) :
  existsb (validateAnswer g) answers = true <->
  exists b, In b answers /\ isCorrect g b.
Proof.
  rewrite existsb_exists. unfold validateAnswer, isCorrect.
  split; intros (b & Hb & Hc); exists b; split; auto.
  - apply bool_decide_eq_true in Hc. exact Hc.
  - apply bool_decide_eq_true. exact Hc.
Qed.

(** X4. When some answer passes [validateAnswer], the player of such an
    answer is the [roundWinner], and the round hands out one point, the
    scores adding up to one more than before, provided that player has
    a score or an id that names nothing inherited from
    [Object.prototype]. When no answer passes, the round hands out
    nothing and has no winner. *)
Theorem processRound_points (g : ColorRaceGameState)
    (answers : list PlayerAnswer) (src : Random.Source) :
  let g' := fst (processRound g answers src) in
  (existsb (validateAnswer g) answers = true ->
   exists a, In a answers /\ validateAnswer g a = true /\
             roundWinner g' = Some (playerId a) /\
             (JsObject.plainKey (scores g) (playerId a) = true ->
              totalScore (scores g') = totalScore (scores g) + 1)) /\
  (existsb (validateAnswer g) answers = false ->
   scores g' = scores g /\ roundWinner g' = None).
Proof.
  cbv zeta. split.
  - intros Hsome. apply existsb_validateAnswer in Hsome.
    destruct (processRound_cases g answers src)
      as [[Hnone _]|(a & Ha & ->)].
    + exfalso. destruct Hsome as (b & Hb & Hc). exact (Hnone b Hb Hc).
    + match goal with
      | |- context [advanceToNextRound ?g0 ?w src] =>
          destruct (race_advanceToNextRound_fields g0 w src)
            as (Hscores & Hwinner & _)
      end.
      cbv zeta in Hscores, Hwinner. rewrite Hscores, Hwinner. simpl.
      destruct Ha as (before & after & -> & Hc & _).
      exists a. split; [apply in_app_iff; right; left; reflexivity|].
      split; [unfold validateAnswer; apply bool_decide_eq_true; exact Hc|].
      split; [reflexivity|].
      intros _. rewrite totalScore_set. lia.
  - intros Hnone. apply and_comm. apply processRound_no_correct.
    intros b Hb Hc.
    assert (H : existsb (validateAnswer g) answers = true)
      by (apply existsb_validateAnswer; eauto).
    congruence.
Qed.

Lemma processRound_round (g : ColorRaceGameState)
    (answers : list PlayerAnswer) (src : Random.Source) :
  let g' := fst (processRound g answers src) in
  totalRounds g' = totalRounds g /\
  (totalRounds g <= round g ->
   phase g' = finished /\ round g' = round g) /\
  (round g < totalRounds g ->
   phase g' = showing_color /\ round g' = round g + 1).
Proof.
  cbv zeta.
  destruct (processRound_cases g answers src)
    as [[_ ->]|(a & _ & ->)].
  - destruct (race_advanceToNextRound_fields g None src)
      as (_ & _ & Htotal & Hlast & Hnext).
    split; [exact Htotal|]. split; intros H.
    + destruct (Hlast H) as (? & _ & ?). auto.
    + destruct (Hnext H) as (? & ? & _). auto.
  - match goal with
    | |- context [advanceToNextRound ?g0 ?w src] =>
        destruct (race_advanceToNextRound_fields g0 w src)
          as (_ & _ & Htotal & Hlast & Hnext)
    end.
    split; [exact Htotal|]. split; intros H.
    + destruct (Hlast H) as (? & _ & ?). auto.
    + destruct (Hnext H) as (? & ? & _). auto.
Qed.

(** X5. From a state that has not passed its last round, [n >= 1] calls of
    [processRound] lead to round [min(round + n, totalRounds)]; the
    phase is [finished] once [round + n] exceeds [totalRounds] and
    [showing_color] before: the game is over after the last round and
    not earlier, whatever the answers. *)
Theorem playRounds_round_phase (g : ColorRaceGameState)
    (rounds : list (list PlayerAnswer)) (src : Random.Source) :
  rounds <> [] ->
  round g <= totalRounds g ->
  let g' := fst (playRounds g rounds src) in
  let n := Z.of_nat (length rounds) in
  round g' = Z.min (round g + n) (totalRounds g) /\
  phase g' = (if totalRounds g <? round g + n then finished
              else showing_color).
Proof.
  cbv zeta. revert g src.
  induction rounds as [|answers rest IH]; intros g src Hne Hround;
    [congruence|].
  cbn [playRounds].
  destruct (processRound_round g answers src) as (Htotal & Hlast & Hnext).
  destruct (processRound g answers src) as [g1 src1]. cbv zeta in *.
  simpl in Htotal, Hlast, Hnext.
  destruct rest as [|answers' rest'].
  - simpl. change (Z.of_nat 1) with 1.
    destruct (Z_lt_le_dec (round g) (totalRounds g)) as [Hlt|Hge].
    + destruct (Hnext Hlt) as [-> ->].
      replace (totalRounds g <? round g + 1) with false
        by (symmetry; apply Z.ltb_ge; lia).
      split; [lia|reflexivity].
    + destruct (Hlast Hge) as [-> ->].
      replace (totalRounds g <? round g + 1) with true
        by (symmetry; apply Z.ltb_lt; lia).
      split; [lia|reflexivity].
  - assert (Hround1 : round g1 <= totalRounds g1).
    { destruct (Z_lt_le_dec (round g) (totalRounds g)) as [Hlt|Hge].
      - destruct (Hnext Hlt) as [_ ->]. lia.
      - destruct (Hlast Hge) as [_ ->]. lia. }
    destruct (IH g1 src1 ltac:(discriminate) Hround1) as [Hr Hp].
    rewrite Hr, Hp, Htotal.
    set (m := Z.of_nat (length (answers' :: rest'))) in *.
    assert (Hm : 1 <= m) by (unfold m; simpl; lia).
    replace (Z.of_nat (length (answers :: answers' :: rest')))
      with (m + 1) by (unfold m; simpl length; lia).
    destruct (Z_lt_le_dec (round g) (totalRounds g)) as [Hlt|Hge].
    + destruct (Hnext Hlt) as [_ ->].
      replace (round g + 1 + m) with (round g + (m + 1)) by lia.
      split; reflexivity.
    + destruct (Hlast Hge) as [_ ->].
      replace (totalRounds g <? round g + m) with true
        by (symmetry; apply Z.ltb_lt; lia).
      replace (totalRounds g <? round g + (m + 1)) with true
        by (symmetry; apply Z.ltb_lt; lia).
      split; [lia|reflexivity].
Qed.

Lemma initializeColorRaceGame_fields (players : list Player)
    (src : Random.Source) :
  let g := fst (initializeColorRaceGame players src) in
  phase g = showing_color /\ round g = 1 /\ totalRounds g = 5 /\
  roundWinner g = None /\
  (exists c, currentColor g = Some c /\ In c COLORS) /\
  scores g =
    fold_left (fun acc player => JsObject.set acc (id player) 0) players [].
Proof.
  unfold initializeColorRaceGame, getRandomColor. simpl.
  repeat split. eexists. split; [reflexivity|].
  apply (nth_error_In COLORS
           (Random.floor_scaled (Random.draws src (Random.position src))
              (length COLORS))).
  apply random_color_index_in_range.
Qed.

Lemma totalScore_bound (l : list Z) (v : Z) :
  Forall (fun x => 0 <= x) l -> In v l -> v <= fold_right Z.add 0 l.
Proof.
  induction l as [|x l IH]; simpl; intros Hall Hin; [contradiction|].
  apply Forall_cons_1 in Hall as [Hx Hall].
  assert (0 <= fold_right Z.add 0 l).
  { clear -Hall. induction l as [|y l IH]; simpl; [lia|].
    apply Forall_cons_1 in Hall as [Hy Hall]. specialize (IH Hall). lia. }
  destruct Hin as [->|Hin]; [lia|]. specialize (IH Hall Hin). lia.
Qed.

Lemma init_fairBoard (players : list Player) (src : Random.Source) :
  fairBoard players 0 (fst (initializeColorRaceGame players src)).
Proof.
  destruct (initializeColorRaceGame_fields players src)
    as (_ & _ & _ & _ & _ & Hscores).
  unfold fairBoard. cbv zeta in Hscores. rewrite Hscores.
  assert (Hzero : Forall (fun v => v = 0)
                    (JsObject.values
                       (fold_left
                          (fun acc player => JsObject.set acc (id player) 0)
                          players []))).
  { apply (built_values id (fun _ => 0)); [reflexivity|constructor]. }
  split; [apply (built_wf id (fun _ => 0)); constructor|].
  split; [|split].
  - intros p Hp.
    destruct (rebuilt_get_Some id (fun _ : Player => 0) players [] p Hp)
      as (y & _ & _ & Hget).
    eauto.
  - revert Hzero. apply List.Forall_impl. intros v ->. lia.
  - unfold totalScore. revert Hzero.
    generalize (JsObject.values
                  (fold_left
                     (fun acc player => JsObject.set acc (id player) 0)
                     players [])).
    intros l Hl. induction Hl as [|x l -> _ IH]; simpl; lia.
Qed.

Lemma processRound_fairBoard (players : list Player) (n : Z)
    (g : ColorRaceGameState) (answers : list PlayerAnswer)
    (src : Random.Source) :
  fairBoard players n g ->
  fairBoard players (n + 1) (fst (processRound g answers src)).
Proof.
  intros (Hwf & Hplayers & Hpos & Htotal). unfold fairBoard.
  destruct (processRound_cases g answers src)
    as [[_ ->]|(a & _ & ->)].
  - destruct (race_advanceToNextRound_fields g None src) as (-> & _).
    repeat split; auto. lia.
  - match goal with
    | |- context [advanceToNextRound ?g0 ?w src] =>
        destruct (race_advanceToNextRound_fields g0 w src) as (-> & _)
    end.
    simpl. split; [apply wf_set; exact Hwf|]. split; [|split].
    + intros p Hp. destruct (Hplayers p Hp) as [v Hv].
      destruct (decide (playerId a = id p)) as [Heq|Hne].
      * rewrite Heq, get_set_eq. eauto.
      * rewrite get_set_ne by exact Hne. eauto.
    + apply Forall_values_set; [|exact Hpos].
      destruct (JsObject.get (scores g) (playerId a)) as [v|] eqn:Hget;
        simpl; [|lia].
      apply get_Some_value in Hget. rewrite List.Forall_forall in Hpos.
      specialize (Hpos v Hget). lia.
    + rewrite totalScore_set. lia.
Qed.

Lemma playRounds_fairBoard (players : list Player) (n : Z)
    (g : ColorRaceGameState) (rounds : list (list PlayerAnswer))
    (src : Random.Source) :
  fairBoard players n g ->
  fairBoard players (n + Z.of_nat (length rounds))
    (fst (playRounds g rounds src)).
Proof.
  revert n g src. induction rounds as [|answers rest IH];
    intros n g src Hfair.
  - simpl. rewrite Z.add_0_r. exact Hfair.
  - cbn [playRounds].
    pose proof (processRound_fairBoard players n g answers src Hfair) as H1.
    destruct (processRound g answers src) as [g1 src1]. simpl in H1.
    replace (n + Z.of_nat (length (answers :: rest)))
      with (n + 1 + Z.of_nat (length rest)) by (simpl length; lia).
    apply IH. exact H1.
Qed.

(** X6. Take a game none of whose players has the id [__proto__], and
    rounds whose answers come from players of the game or under ids
    that name nothing inherited from [Object.prototype]. After any
    number of such rounds, every player the game was started with has a
    score, every score on the board lies between 0 and the number of
    rounds played, and the scores add up to that number at most. *)
Theorem playRounds_scores (players : list Player)
    (rounds : list (list PlayerAnswer)) (src src' : Random.Source) :
  plainPlayers players ->
  Forall (plainAnswers players) rounds ->
  let g := fst (playRounds (fst (initializeColorRaceGame players src))
                  rounds src') in
  let n := Z.of_nat (length rounds) in
  (forall p, In p players ->
             exists v, JsObject.get (scores g) (id p) = Some v) /\
  (forall k v, JsObject.get (scores g) k = Some v -> 0 <= v <= n) /\
  0 <= totalScore (scores g) <= n.
Proof.
  intros _ _. cbv zeta.
  destruct (playRounds_fairBoard players 0 _ rounds src'
              (init_fairBoard players src))
    as (_ & Hplayers & Hpos & Htotal).
  rewrite Z.add_0_l in Htotal.
  assert (Hsum : 0 <= totalScore
                        (scores (fst (playRounds
                                        (fst (initializeColorRaceGame
                                                players src))
                                        rounds src')))).
  { unfold totalScore. revert Hpos. generalize (JsObject.values
      (scores (fst (playRounds (fst (initializeColorRaceGame players src))
                      rounds src')))).
    intros l Hl. induction Hl as [|x l Hx _ IH]; simpl; lia. }
  split; [exact Hplayers|]. split; [|lia].
  intros k v Hget. apply get_Some_value in Hget.
  pose proof (totalScore_bound _ v Hpos Hget) as Hle.
  rewrite List.Forall_forall in Hpos. specialize (Hpos v Hget).
  unfold totalScore in Htotal. lia.
Qed.

(** X7. Take a game with at least one player, none with the id
    [__proto__], and rounds whose answers come from players of the game
    or under ids that name nothing inherited from [Object.prototype].
    At any point of such a game [determineWinner] names a player of the
    board with the highest score, the first such player in enumeration
    order, and that score is not negative: the nameless starting value
    of the search never comes out. *)
Theorem playRounds_has_winner (players : list Player)
    (rounds : list (list PlayerAnswer)) (src src' : Random.Source) :
  players <> [] ->
  plainPlayers players ->
  Forall (plainAnswers players) rounds ->
  let g := fst (playRounds (fst (initializeColorRaceGame players src))
                  rounds src') in
  exists w, determineWinner g = Some w /\
            topScorer (scores g) (winnerId w) (winnerScore w) /\
            0 <= winnerScore w.
Proof.
  intros Hne _ _. cbv zeta.
  destruct (playRounds_fairBoard players 0 _ rounds src'
              (init_fairBoard players src))
    as (Hwf & Hplayers & Hpos & _).
  set (g := fst (playRounds (fst (initializeColorRaceGame players src))
                   rounds src')) in *.
  assert (Hboard : scores g <> []).
  { destruct players as [|p players']; [congruence|].
    destruct (Hplayers p (or_introl eq_refl)) as [v Hv].
    intros Hempty. rewrite Hempty in Hv. discriminate. }
  destruct (topScorer_exists (scores g) Hboard) as (k & v & Htop).
  assert (Hv : 0 <= v).
  { destruct Htop as (before & after & Hsplit & _).
    unfold JsObject.entries in Hsplit.
    rewrite List.Forall_forall in Hpos. apply Hpos.
    unfold JsObject.values. rewrite Hsplit, map_app. simpl.
    apply in_app_iff. right. left. reflexivity. }
  exists {| winnerId := k; winnerScore := v |}.
  split; [apply determineWinner_topScorer; [exact Hwf|exact Htop|lia]|].
  split; [exact Htop|exact Hv].
Qed.

End ColorRaceGames.

(** ** Simon: sequences *)

Section SimonSequences.
Import Simon.

Lemma generateSequence_loop_succ (n : nat) (sequence : list Color)
    (src : Random.Source) :
  generateSequence_loop (S n) sequence src =
  extendSequence (fst (generateSequence_loop n sequence src))
                 (snd (generateSequence_loop n sequence src)).
Proof.
  revert sequence src. induction n as [|n IH]; intros sequence src.
  - reflexivity.
  - change (generateSequence_loop (S (S n)) sequence src)
      with (generateSequence_loop (S n)
              (sequence ++ [COLORS_at
                              (Random.floor_scaled
                                 (fst (Random.Math_random src))
                                 (length COLORS))])
              (snd (Random.Math_random src))).
    rewrite IH. reflexivity.
Qed.

(** X9. [generateSequence(n)] has [n] colours, none for [n <= 0], and makes
    one draw for each. Extending it by one colour gives what
    [generateSequence(n + 1)] gives from the same random source: a
    sequence grown round by round is the sequence generated at once. *)
Theorem generateSequence_extendSequence (n : Z) (src : Random.Source) :
  length (fst (generateSequence n src)) = Z.to_nat n /\
  Random.position (snd (generateSequence n src)) =
    (Random.position src + Z.to_nat n)%nat /\
  (0 <= n ->
   extendSequence (fst (generateSequence n src))
                  (snd (generateSequence n src)) =
   generateSequence (n + 1) src).
Proof.
  unfold generateSequence. split; [|split].
  - rewrite generateSequence_loop_length. reflexivity.
  - generalize (Z.to_nat n) (@nil Color). intros m. revert src.
    induction m as [|m IH]; intros src l; simpl; [lia|].
    rewrite IH. simpl. lia.
  - intros Hn. replace (Z.to_nat (n + 1)) with (S (Z.to_nat n)) by lia.
    symmetry. apply generateSequence_loop_succ.
Qed.

End SimonSequences.

(** ** Simon: players in the game *)

Section SimonPlayers.
Import Simon.

Lemma length_overwrite {V : Type} (o : JsObject.Obj V) (k : string)
    (v : V) :
  length (JsObject.overwrite o k v) = length o.
Proof.
  induction o as [|[k0 v0] o IH]; simpl; [reflexivity|].
  destruct (decide (k0 = k)); simpl; [reflexivity|]. f_equal. exact IH.
Qed.

(** Creating a property adds one entry to those there. *)
Lemma define_Permutation {V : Type} (o : JsObject.Obj V) (k : string)
    (v : V) :
  Permutation (JsObject.define o k v) ((k, v) :: o).
Proof.
  unfold JsObject.define. destruct (JsObject.array_index k) as [n|].
  - induction o as [|[k0 v0] o IH]; simpl; [reflexivity|].
    destruct (JsObject.array_index k0) as [m|]; [destruct (m <? n)%N|];
      try reflexivity.
    rewrite IH. apply perm_swap.
  - rewrite Permutation_app_comm. reflexivity.
Qed.

(** An object built from entries with distinct new keys holds these
    entries and those it started from. *)
Lemma built_Permutation {A V : Type} (key : A -> string) (val : A -> V)
    (l : list A) (acc : JsObject.Obj V) :
  NoDup (map key l) ->
  (forall x, In x l -> JsObject.get acc (key x) = None) ->
  Permutation
    (fold_left (fun o x => JsObject.set o (key x) (val x)) l acc)
    (acc ++ map (fun x => (key x, val x)) l).
Proof.
  revert acc. induction l as [|x l IH]; simpl; intros acc Hnd Hfresh.
  - rewrite app_nil_r. reflexivity.
  - apply NoDup_cons in Hnd as [Hx Hnd].
    rewrite IH.
    + unfold JsObject.set. rewrite (Hfresh x (or_introl eq_refl)).
      rewrite define_Permutation. simpl.
      apply Permutation_middle.
    + exact Hnd.
    + intros y Hy. rewrite get_set_ne; [auto|].
      intros Heq. apply Hx. rewrite Heq. apply list_elem_of_In.
      apply in_map. exact Hy.
Qed.

Lemma filter_length_Permutation {A : Type} (f : A -> bool)
    (l l' : list A) :
  Permutation l l' ->
  length (List.filter f l) = length (List.filter f l').
Proof.
  induction 1 as [|x l l' _ IH|x y l|l l' l'' _ IH1 _ IH2]; simpl.
  - reflexivity.
  - destruct (f x); simpl; congruence.
  - destruct (f x), (f y); reflexivity.
  - congruence.
Qed.

Lemma filter_all {A : Type} (f : A -> bool) (l : list A) :
  Forall (fun x => f x = true) l -> List.filter f l = l.
Proof.
  induction 1 as [|x l Hx _ IH]; simpl; [reflexivity|].
  rewrite Hx, IH. reflexivity.
Qed.

Lemma built_get_from {A V : Type} (key : A -> string) (val : A -> V)
    (l : list A) (acc : JsObject.Obj V) (k : string) (v : V) :
  JsObject.get
    (fold_left (fun o x => JsObject.set o (key x) (val x)) l acc) k =
  Some v ->
  (exists x, In x l /\ key x = k /\ val x = v) \/
  JsObject.get acc k = Some v.
Proof.
  revert acc. induction l as [|y l IH]; simpl; intros acc H; [auto|].
  apply IH in H as [(x & Hx & Hk & Hv)|H]; [left; eauto|].
  destruct (decide (key y = k)) as [Heq|Hne].
  - subst k. rewrite get_set_eq in H. injection H as <-. left. eauto.
  - rewrite get_set_ne in H by assumption. auto.
Qed.

(** X10. A game started with players of distinct ids, none of them
    [__proto__], has one player state for each of them and for nobody
    else: filed under the player's id and carrying it, [playing], at
    input index 0, not eliminated. All of them count as active, so the
    game is over from the start exactly when it has at most one player,
    and a player alone is the winner at once. *)
Theorem initializeSimonGame_players (players : list Player)
    (src : Random.Source) :
  NoDup (map id players) ->
  ~ In "__proto__" (map id players) ->
  let s := fst (initializeSimonGame players src) in
  (forall p, In p players ->
             JsObject.get (playerStates s) (id p) = Some (freshPlayer p)) /\
  (forall k ps, JsObject.get (playerStates s) k = Some ps ->
                exists p, In p players /\ id p = k) /\
  getActivePlayerCount s = length players /\
  shouldGameEnd s = (length players <=? 1)%nat /\
  (forall p, players = [p] -> getWinner s = Some (id p)).
Proof.
  intros Hnd _. cbv zeta.
  destruct (initializeSimonGame_fields players src)
    as (_ & _ & _ & Hstates).
  cbv zeta in Hstates.
  assert (Hperm : Permutation (playerStates
                                 (fst (initializeSimonGame players src)))
                    (map (fun p => (id p, freshPlayer p)) players)).
  { rewrite Hstates.
    rewrite (built_Permutation id freshPlayer players [] Hnd);
      [reflexivity|]. intros x _. reflexivity. }
  assert (Hcount : getActivePlayerCount
                     (fst (initializeSimonGame players src)) =
                   length players).
  { unfold getActivePlayerCount, JsObject.values.
    rewrite (filter_length_Permutation isPlaying _ _
               (Permutation_map snd Hperm)).
    rewrite map_map. simpl. rewrite filter_all.
    - apply length_map.
    - apply List.Forall_forall. intros x Hx.
      apply in_map_iff in Hx as (p & <- & _). reflexivity. }
  split; [|split; [|split; [|split]]].
  - intros p Hp. rewrite Hstates.
    apply (built_get id freshPlayer players [] p Hnd Hp).
  - intros k ps Hget. rewrite Hstates in Hget.
    apply (built_get_from id freshPlayer) in Hget
      as [(p & Hp & Hk & _)|Hget]; [eauto|discriminate].
  - exact Hcount.
  - unfold shouldGameEnd. unfold getActivePlayerCount in Hcount.
    rewrite Hcount. reflexivity.
  - intros p ->. unfold getWinner. rewrite Hstates. simpl.
    unfold JsObject.set, JsObject.define. simpl.
    destruct (JsObject.array_index (id p)); reflexivity.
Qed.

End SimonPlayers.

(** ** Simon: the number of active players *)

Section SimonActiveCount.
Import Simon.

Lemma values_overwrite_split {V : Type} (o : JsObject.Obj V) (k : string)
    (old v : V) :
  JsObject.get o k = Some old ->
  exists before after,
    JsObject.values o = before ++ old :: after /\
    JsObject.values (JsObject.overwrite o k v) = before ++ v :: after.
Proof.
  induction o as [|[k0 v0] o IH]; simpl; [discriminate|].
  destruct (decide (k0 = k)) as [->|Hne]; simpl.
  - intros [= ->]. exists [], (JsObject.values o). auto.
  - intros Hget. destruct (IH Hget) as (before & after & H1 & H2).
    exists (v0 :: before), after. simpl. rewrite H1, H2. auto.
Qed.

Lemma count_overwrite (o : JsObject.Obj SimonPlayerState) (k : string)
    (old v : SimonPlayerState) :
  JsObject.get o k = Some old ->
  (length (List.filter isPlaying (JsObject.values (JsObject.set o k v)))
   + (if isPlaying old then 1 else 0)
   = length (List.filter isPlaying (JsObject.values o))
     + (if isPlaying v then 1 else 0))%nat.
Proof.
  intros Hget. unfold JsObject.set. rewrite Hget.
  destruct (values_overwrite_split o k old v Hget)
    as (before & after & -> & ->).
  rewrite !List.filter_app, !length_app. simpl.
  destruct (isPlaying old), (isPlaying v); simpl; lia.
Qed.

Lemma eliminatePlayer_count_le (s : SimonGameState) (p : string) (r : Z) :
  (getActivePlayerCount (eliminatePlayer s p r)
   <= getActivePlayerCount s)%nat.
Proof.
  unfold getActivePlayerCount, eliminatePlayer, JsObject.spread.
  destruct (JsObject.get (playerStates s) p) as [ps|] eqn:Hget; simpl;
    [|lia].
  pose proof (count_overwrite (playerStates s) p ps
                {| playerId := playerId ps; status := eliminated;
                   currentInputIndex := currentInputIndex ps;
                   eliminatedAtRound := Some r |} Hget) as H.
  unfold isPlaying at 2 4 in H. simpl in H.
  destruct (bool_decide (status ps = playing)); lia.
Qed.

(** X11. Eliminating a player who is [playing] takes one off the number of
    active players; eliminating anybody else, or nobody, leaves the
    number as it is. *)
Theorem eliminatePlayer_count (s : SimonGameState) (p : string) (r : Z) :
  (forall ps, JsObject.get (playerStates s) p = Some ps ->
              status ps = playing ->
              S (getActivePlayerCount (eliminatePlayer s p r)) =
              getActivePlayerCount s) /\
  (forall ps, JsObject.get (playerStates s) p = Some ps ->
              status ps <> playing ->
              getActivePlayerCount (eliminatePlayer s p r) =
              getActivePlayerCount s) /\
  (JsObject.get (playerStates s) p = None ->
   getActivePlayerCount (eliminatePlayer s p r) = getActivePlayerCount s).
Proof.
  unfold getActivePlayerCount, eliminatePlayer, JsObject.spread.
  split; [|split].
  - intros ps Hget Hplaying. rewrite Hget. simpl.
    pose proof (count_overwrite (playerStates s) p ps
                  {| playerId := playerId ps; status := eliminated;
                     currentInputIndex := currentInputIndex ps;
                     eliminatedAtRound := Some r |} Hget) as H.
    unfold isPlaying at 2 4 in H. simpl in H. rewrite Hplaying in H.
    simpl in H. lia.
  - intros ps Hget Hnot. rewrite Hget. simpl.
    pose proof (count_overwrite (playerStates s) p ps
                  {| playerId := playerId ps; status := eliminated;
                     currentInputIndex := currentInputIndex ps;
                     eliminatedAtRound := Some r |} Hget) as H.
    unfold isPlaying at 2 4 in H. simpl in H.
    rewrite (bool_decide_eq_false_2 _ Hnot) in H. simpl in H. lia.
  - intros Hget. rewrite Hget. reflexivity.
Qed.

Lemma updatePlayerProgress_count (s : SimonGameState) (p : string) :
  getActivePlayerCount (updatePlayerProgress s p) = getActivePlayerCount s.
Proof.
  unfold getActivePlayerCount, updatePlayerProgress, JsObject.spread.
  destruct (JsObject.get (playerStates s) p) as [ps|] eqn:Hget; simpl;
    [|reflexivity].
  pose proof (count_overwrite (playerStates s) p ps
                {| playerId := playerId ps; status := status ps;
                   currentInputIndex := currentInputIndex ps + 1;
                   eliminatedAtRound := eliminatedAtRound ps |} Hget) as H.
  unfold isPlaying at 2 4 in H. simpl in H.
  destruct (bool_decide (status ps = playing)); lia.
Qed.

Lemma advanceToNextRound_count (s : SimonGameState) (src : Random.Source) :
  JsObject.wf (playerStates s) ->
  getActivePlayerCount (fst (advanceToNextRound s src)) =
  getActivePlayerCount s.
Proof.
  intros Hwf. unfold getActivePlayerCount.
  destruct (advanceToNextRound_fields s src)
    as (_ & _ & _ & _ & _ & _ & Hstates).
  cbv zeta in Hstates. rewrite Hstates.
  assert (Hperm : Permutation
            (fold_left
               (fun acc entry =>
                  JsObject.set acc (fst entry) (resetInput (snd entry)))
               (playerStates s) [])
            (map (fun entry => (fst entry, resetInput (snd entry)))
                 (playerStates s))).
  { rewrite (built_Permutation fst (fun entry => resetInput (snd entry))
               (playerStates s) [] Hwf); [reflexivity|].
    intros x _. reflexivity. }
  unfold JsObject.values.
  rewrite (filter_length_Permutation isPlaying _ _
             (Permutation_map snd Hperm)).
  rewrite map_map. simpl.
  generalize (playerStates s). intros l.
  induction l as [|[k ps] l IH]; simpl; [reflexivity|].
  change (isPlaying (resetInput ps)) with (isPlaying ps).
  destruct (isPlaying ps); simpl; congruence.
Qed.

(** X12. Along a run the number of active players never grows: progress and
    round advancement keep it, eliminations can only lower it. *)
Theorem active_count_never_grows (s s' : SimonGameState) :
  reachable op_step s ->
  op_steps s s' ->
  (getActivePlayerCount s' <= getActivePlayerCount s)%nat.
Proof.
  intros Hreach Hsteps.
  induction Hsteps as [|s' s'' Hsteps IH Hstep]; [lia|].
  destruct (reachable_status_invariants s'
              (op_steps_reachable s s' Hreach Hsteps)) as [Hwf _].
  destruct Hstep as [s' p|s' p r|s' src].
  - rewrite updatePlayerProgress_count. exact IH.
  - pose proof (eliminatePlayer_count_le s' p r). lia.
  - rewrite (advanceToNextRound_count s' src Hwf). exact IH.
Qed.

End SimonActiveCount.

(** ** Simon: eliminations, inputs and the order of operations *)

Section SimonOperations.
Import Simon.

Lemma overwrite_overwrite {V : Type} (o : JsObject.Obj V) (k : string)
    (v1 v2 : V) :
  JsObject.overwrite (JsObject.overwrite o k v1) k v2 =
  JsObject.overwrite o k v2.
Proof.
  induction o as [|[k0 v0] o IH]; simpl; [reflexivity|].
  destruct (decide (k0 = k)) as [->|Hne]; simpl.
  - destruct (decide (k = k)); congruence.
  - destruct (decide (k0 = k)); [congruence|]. f_equal. exact IH.
Qed.


(** Changing the state of a player that is there, and of no other. *)
Abbreviation change f k o :=
  (match JsObject.get o k with
   | Some v => JsObject.set o k (f v)
   | None => o
   end).


(** X13. Eliminating a player a second time replaces the round of the first
    elimination: the result is that of the second elimination alone. *)
Theorem eliminatePlayer_again (s : SimonGameState) (p : string)
    (r1 r2 : Z) :
  eliminatePlayer (eliminatePlayer s p r1) p r2 = eliminatePlayer s p r2.
Proof.
  unfold eliminatePlayer, JsObject.spread.
  destruct (JsObject.get (playerStates s) p) as [ps|] eqn:Hget; simpl.
  - rewrite get_set_eq. unfold withPlayerStates. simpl. f_equal.
    unfold JsObject.set. rewrite Hget.
    rewrite (get_overwrite_eq _ _ _ _ Hget).
    apply overwrite_overwrite.
  - rewrite Hget. reflexivity.
Qed.

(** X14. [validateInput] does not look at the status: eliminating a player,
    the one who submits or another, changes the verdict on no input. *)
Theorem validateInput_after_elimination (s : SimonGameState)
    (q : string) (r : Z) (p : string) (c : Color) (i : Z) :
  validateInput (eliminatePlayer s q r) p c i = validateInput s p c i.
Proof.
  unfold validateInput, eliminatePlayer, JsObject.spread.
  destruct (JsObject.get (playerStates s) q) as [qs|] eqn:Hq; simpl;
    [|reflexivity].
  destruct (decide (q = p)) as [->|Hne].
  - rewrite get_set_eq, Hq. reflexivity.
  - rewrite get_set_ne by exact Hne. reflexivity.
Qed.


(** X16. In every state of every run, the timeout is the one of the round:
    5000 ms in round 1, 250 ms less with each round, 1500 ms from round
    15 on. *)
Theorem reachable_timeout (s : SimonGameState) :
  reachable op_step s ->
  1 <= round s /\
  timeoutMs s = timeoutOfRound (round s) /\
  1500 <= timeoutMs s <= 5000.
Proof.
  unfold timeoutOfRound, MIN_TIMEOUT_MS, INITIAL_TIMEOUT_MS,
    TIMEOUT_DECREMENT_MS.
  induction 1 as [players src|s s' _ IH Hstep].
  - destruct (initializeSimonGame_fields players src)
      as (_ & Hround & Htimeout & _).
    cbv zeta in *. unfold INITIAL_TIMEOUT_MS in Htimeout.
    rewrite Hround, Htimeout. lia.
  - destruct Hstep as [s p|s p r|s src].
    + unfold updatePlayerProgress, withPlayerStates. simpl. exact IH.
    + unfold eliminatePlayer, withPlayerStates. simpl. exact IH.
    + destruct (advanceToNextRound_fields s src)
        as (_ & Hround & Htimeout & _).
      cbv zeta in *.
      unfold MIN_TIMEOUT_MS, TIMEOUT_DECREMENT_MS in Htimeout.
      rewrite Hround, Htimeout. lia.
Qed.

End SimonOperations.

(** ** Simon: a game that is over has a winner *)

Section SimonFinished.
Import Simon.

(** A run on plain keys is a run. *)
Lemma plain_run_reachable (s : SimonGameState) :
  plain_run s -> reachable op_step s.
Proof.
  induction 1 as [players src _|s s' _ IH Hstep].
  - apply reach_init.
  - apply (reach_step op_step s s' IH).
    destruct Hstep as [s p _|s p r _|s src].
    + apply ostep_progress.
    + apply ostep_eliminate.
    + apply ostep_advance.
Qed.

Lemma reachable_wellKept (s : SimonGameState) :
  reachable op_step s -> wellKept s.
Proof.
  unfold wellKept.
  induction 1 as [players src|s s' Hreach IH Hstep].
  - destruct (initializeSimonGame_fields players src)
      as (_ & _ & _ & Hstates).
    cbv zeta in Hstates. rewrite Hstates. intros k ps Hget.
    apply (built_get_from id
             (fun player =>
                {| playerId := id player; status := playing;
                   currentInputIndex := 0; eliminatedAtRound := None |}))
      in Hget as [(p & _ & <- & <-)|Hget]; [|discriminate].
    simpl. auto.
  - destruct (reachable_status_invariants s Hreach) as [Hwf _].
    destruct Hstep as [s p|s p r|s src]; intros k ps' Hget.
    + unfold updatePlayerProgress, JsObject.spread in Hget.
      destruct (JsObject.get (playerStates s) p) as [ps|] eqn:Hp;
        simpl in Hget; [|eauto].
      destruct (decide (p = k)) as [->|Hne].
      * rewrite get_set_eq in Hget. injection Hget as <-. simpl.
        apply (IH k ps Hp).
      * rewrite get_set_ne in Hget by exact Hne. eauto.
    + unfold eliminatePlayer, JsObject.spread in Hget.
      destruct (JsObject.get (playerStates s) p) as [ps|] eqn:Hp;
        simpl in Hget; [|eauto].
      destruct (decide (p = k)) as [->|Hne].
      * rewrite get_set_eq in Hget. injection Hget as <-. simpl.
        destruct (IH k ps Hp) as [Hid _]. split; [exact Hid|].
        right. eauto.
      * rewrite get_set_ne in Hget by exact Hne. eauto.
    + destruct (advanceToNextRound_fields s src)
        as (_ & _ & _ & _ & _ & _ & Hstates).
      cbv zeta in Hstates. rewrite Hstates in Hget.
      apply (built_get_from fst (fun entry => resetInput (snd entry)))
        in Hget as [([k0 ps] & Hin & <- & <-)|Hget]; [|discriminate].
      simpl. apply (IH k0 ps). apply In_get; assumption.
Qed.

Lemma lastEliminated_exists (l : list SimonPlayerState) :
  (exists y r, In y l /\ eliminatedAtRound y = Some r) ->
  exists x r before after,
    l = before ++ x :: after /\
    eliminatedAtRound x = Some r /\
    (forall y r', In y before -> eliminatedAtRound y = Some r' -> r' < r) /\
    (forall y r', In y after -> eliminatedAtRound y = Some r' -> r' <= r).
Proof.
  induction l as [|z l IH]; intros (y & r & Hy & Hr); [contradiction|].
  destruct (List.Exists_dec (fun y => eliminatedAtRound y <> None) l)
    as [Hsome|Hnone].
  { intros y0. destruct (eliminatedAtRound y0); [left|right]; congruence. }
  - apply List.Exists_exists in Hsome as (y' & Hy' & Hr').
    destruct (eliminatedAtRound y') as [r0|] eqn:Hr0; [|congruence].
    destruct IH as (x & rx & before & after & -> & Hx & Hbefore & Hafter);
      [eauto|].
    destruct (eliminatedAtRound z) as [rz|] eqn:Hz.
    + destruct (Z_lt_le_dec rz rx) as [Hlt|Hge].
      * exists x, rx, (z :: before), after.
        split; [reflexivity|]. split; [exact Hx|]. split; [|exact Hafter].
        intros y0 r' [<-|Hin] Hr1; [congruence|eauto].
      * exists z, rz, [], (before ++ x :: after).
        split; [reflexivity|]. split; [exact Hz|].
        split; [intros y0 r' []|].
        intros y0 r' Hin Hr1.
        apply in_app_iff in Hin as [Hin|[<-|Hin]].
        -- specialize (Hbefore y0 r' Hin Hr1). lia.
        -- congruence.
        -- specialize (Hafter y0 r' Hin Hr1). lia.
    + exists x, rx, (z :: before), after.
      split; [reflexivity|]. split; [exact Hx|]. split; [|exact Hafter].
      intros y0 r' [<-|Hin] Hr1; [congruence|eauto].
  - assert (Hz : eliminatedAtRound z = Some r).
    { destruct Hy as [<-|Hy]; [exact Hr|].
      exfalso. apply Hnone. apply List.Exists_exists.
      exists y. split; [exact Hy|congruence]. }
    exists z, r, [], l.
    split; [reflexivity|]. split; [exact Hz|]. split; [intros y0 r' []|].
    intros y0 r' Hin Hr1. exfalso. apply Hnone.
    apply List.Exists_exists. exists y0. split; [exact Hin|congruence].
Qed.

(** With nobody playing, the search of [getWinner] ends on the player
    eliminated last when its round is above -1. *)
Lemma getWinner_lastEliminated (s : SimonGameState)
    (x : SimonPlayerState) (r : Z) :
  activePlayers s = [] -> lastEliminated s x r -> -1 < r ->
  getWinner s = Some (playerId x).
Proof.
  unfold getWinner, activePlayers.
  intros -> (before & after & Hvalues & Hx & Hbefore & Hafter) Hr.
  rewrite Hvalues, fold_left_app. simpl.
  pose proof (laterEliminated_below before (-1) None r Hr Hbefore) as Hlt.
  destruct (fold_left laterEliminated before (-1, None)) as [m w].
  simpl in Hlt. unfold laterEliminated at 2. rewrite Hx.
  replace (m <? r) with true by (symmetry; apply Z.ltb_lt; exact Hlt).
  rewrite laterEliminated_keep by exact Hafter. reflexivity.
Qed.

(** X17. Take a run for players none of whom has the id [__proto__],
    whose operations are aimed at players of the game or at ids that
    name nothing inherited from [Object.prototype], and in which no
    elimination was recorded with a negative round. A game of such a
    run that has players and is over has a winner, and the winner is
    one of its players: the one still playing, or with nobody playing
    the one eliminated last. *)
Theorem finished_game_has_winner (s : SimonGameState) :
  plain_run s ->
  playerStates s <> [] ->
  shouldGameEnd s = true ->
  (forall ps r, In ps (JsObject.values (playerStates s)) ->
                eliminatedAtRound ps = Some r -> -1 < r) ->
  exists w ps, getWinner s = Some w /\
               JsObject.get (playerStates s) w = Some ps /\
               playerId ps = w /\
               (status ps = playing \/ activePlayers s = []).
Proof.
  intros Hrun Hplayers Hend Hrounds.
  pose proof (plain_run_reachable s Hrun) as Hreach.
  destruct (reachable_status_invariants s Hreach) as [Hwf _].
  pose proof (reachable_wellKept s Hreach) as Hkept.
  assert (Hfiled : forall ps, In ps (JsObject.values (playerStates s)) ->
            JsObject.get (playerStates s) (playerId ps) = Some ps).
  { intros ps Hin. unfold JsObject.values in Hin.
    apply in_map_iff in Hin as ([k ps'] & <- & Hin). simpl.
    pose proof (In_get _ _ _ Hwf Hin) as Hget.
    destruct (Hkept k ps' Hget) as [-> _]. exact Hget. }
  unfold shouldGameEnd in Hend. apply Nat.leb_le in Hend.
  destruct (List.filter isPlaying (JsObject.values (playerStates s)))
    as [|x [|x' rest]] eqn:Hactive; [| |simpl in Hend; lia].
  - assert (Hout : forall ps, In ps (JsObject.values (playerStates s)) ->
              exists r, eliminatedAtRound ps = Some r).
    { intros ps Hin.
      destruct (Hkept _ _ (Hfiled ps Hin)) as [_ [[Hp _]|[_ Hr]]];
        [|exact Hr].
      exfalso.
      assert (Hx : In ps (List.filter isPlaying
                            (JsObject.values (playerStates s)))).
      { apply filter_In. split; [exact Hin|].
        unfold isPlaying. apply bool_decide_eq_true. exact Hp. }
      rewrite Hactive in Hx. contradiction. }
    destruct (lastEliminated_exists (JsObject.values (playerStates s)))
      as (x & r & before & after & Hvalues & Hx & Hbefore & Hafter).
    { destruct (playerStates s) as [|[k ps] l] eqn:Hstates; [congruence|].
      destruct (Hout ps (or_introl eq_refl)) as [r Hr].
      exists ps, r. split; [left; reflexivity|exact Hr]. }
    assert (Hin : In x (JsObject.values (playerStates s))).
    { rewrite Hvalues. apply in_app_iff. right. left. reflexivity. }
    exists (playerId x), x.
    split; [|split; [exact (Hfiled x Hin)|split; [reflexivity|]]].
    + apply (getWinner_lastEliminated s x r).
      * exact Hactive.
      * exists before, after. auto.
      * exact (Hrounds x r Hin Hx).
    + right. exact Hactive.
  - assert (Hx : In x (List.filter isPlaying
                         (JsObject.values (playerStates s)))).
    { rewrite Hactive. left. reflexivity. }
    apply filter_In in Hx as [Hin Hp].
    unfold isPlaying in Hp. apply bool_decide_eq_true in Hp.
    exists (playerId x), x.
    split; [|split; [exact (Hfiled x Hin)|split; [reflexivity|]]].
    + unfold getWinner. rewrite Hactive. reflexivity.
    + left. exact Hp.
Qed.

End SimonFinished.

(** ** Strings: trimming, case and search *)

Section StringLemmas.
Import JsString.

Lemma trimEnd_idempotent (s : string) : trimEnd (trimEnd s) = trimEnd s.
Proof.
  induction s as [|c s IH]; simpl; [reflexivity|].
  destruct (trimEnd s) as [|d t] eqn:Ht.
  - destruct (isWhiteSpace c) eqn:Hc; simpl; [reflexivity|].
    rewrite Hc. reflexivity.
  - simpl in *. rewrite IH. reflexivity.
Qed.

Lemma trimStart_startsClean (s : string) : startsClean (trimStart s).
Proof.
  induction s as [|c s IH]; simpl; [exact I|].
  destruct (isWhiteSpace c) eqn:Hc; [exact IH|exact Hc].
Qed.

Lemma trimStart_fixed (s : string) : startsClean s -> trimStart s = s.
Proof.
  destruct s as [|c s]; simpl; [reflexivity|]. intros ->. reflexivity.
Qed.

Lemma trimEnd_startsClean (s : string) :
  startsClean s -> startsClean (trimEnd s).
Proof.
  destruct s as [|c s]; simpl; [auto|]. intros Hc.
  destruct (trimEnd s); [rewrite Hc|]; exact Hc.
Qed.

Lemma trim_idempotent (s : string) : trim (trim s) = trim s.
Proof.
  unfold trim.
  rewrite (trimStart_fixed (trimEnd (trimStart s))).
  - apply trimEnd_idempotent.
  - apply trimEnd_startsClean, trimStart_startsClean.
Qed.

Lemma trimStart_chars (P : ascii -> Prop) (s : string) :
  Forall P (list_ascii_of_string s) ->
  Forall P (list_ascii_of_string (trimStart s)).
Proof.
  induction s as [|c s IH]; simpl; intros H; [exact H|].
  destruct (isWhiteSpace c); [|exact H].
  apply IH. apply Forall_cons_1 in H as [_ H]. exact H.
Qed.

Lemma trimEnd_chars (P : ascii -> Prop) (s : string) :
  Forall P (list_ascii_of_string s) ->
  Forall P (list_ascii_of_string (trimEnd s)).
Proof.
  induction s as [|c s IH]; simpl; intros H; [exact H|].
  apply Forall_cons_1 in H as [Hc H]. specialize (IH H).
  destruct (trimEnd s) as [|d t].
  - destruct (isWhiteSpace c); simpl; auto.
  - simpl. constructor; assumption.
Qed.

(** [trim] only takes characters away. *)
Lemma trim_chars (P : ascii -> Prop) (s : string) :
  Forall P (list_ascii_of_string s) ->
  Forall P (list_ascii_of_string (trim s)).
Proof.
  intros H. unfold trim. apply trimEnd_chars, trimStart_chars. exact H.
Qed.

Lemma trimEnd_no_space (s : string) :
  Forall (fun c => isWhiteSpace c = false) (list_ascii_of_string s) ->
  trimEnd s = s.
Proof.
  induction s as [|c s IH]; simpl; intros H; [reflexivity|].
  apply Forall_cons_1 in H as [Hc H]. rewrite (IH H).
  destruct s; [rewrite Hc|]; reflexivity.
Qed.

(** A text without white space is left as it is. *)
Lemma trim_no_space (s : string) :
  Forall (fun c => isWhiteSpace c = false) (list_ascii_of_string s) ->
  trim s = s.
Proof.
  intros H. unfold trim. rewrite trimStart_fixed.
  - apply trimEnd_no_space. exact H.
  - destruct s as [|c s]; simpl; [exact I|].
    simpl in H. apply Forall_cons_1 in H as [Hc _]. exact Hc.
Qed.

(** A text of white space only is trimmed to nothing. *)
Lemma trim_onlyWhiteSpace (s : string) :
  onlyWhiteSpace s = true -> trim s = EmptyString.
Proof.
  intros H.
  assert (Hall : forallb isWhiteSpace (list_ascii_of_string s) = true).
  { destruct s; [discriminate|exact H]. }
  unfold trim. replace (trimStart s) with EmptyString; [reflexivity|].
  clear H. induction s as [|c s IH]; simpl in *; [reflexivity|].
  apply andb_true_iff in Hall as [Hc Hall]. rewrite Hc. auto.
Qed.

Lemma mapChars_fixed (f : ascii -> ascii) (s : string) :
  Forall (fun c => f c = c) (list_ascii_of_string s) ->
  mapChars f s = s.
Proof.
  induction s as [|c s IH]; simpl; intros H; [reflexivity|].
  apply Forall_cons_1 in H as [Hc H]. rewrite Hc, (IH H). reflexivity.
Qed.

Lemma mapChars_chars (f : ascii -> ascii) (s : string) :
  list_ascii_of_string (mapChars f s) = map f (list_ascii_of_string s).
Proof.
  induction s as [|c s IH]; simpl; [reflexivity|]. f_equal. exact IH.
Qed.

Lemma removeAll_fixed (c : ascii) (s : string) :
  Forall (fun d => d <> c) (list_ascii_of_string s) ->
  removeAll c s = s.
Proof.
  induction s as [|d s IH]; simpl; intros H; [reflexivity|].
  apply Forall_cons_1 in H as [Hd H].
  replace (Ascii.eqb d c) with false
    by (symmetry; apply Ascii.eqb_neq; exact Hd).
  rewrite (IH H). reflexivity.
Qed.

Lemma removeAll_chars (c : ascii) (s : string) :
  Forall (fun d => d <> c) (list_ascii_of_string (removeAll c s)).
Proof.
  induction s as [|d s IH]; simpl; [constructor|].
  destruct (Ascii.eqb d c) eqn:Hd; [exact IH|].
  simpl. constructor; [apply Ascii.eqb_neq; exact Hd|exact IH].
Qed.

Lemma removeAll_append (c : ascii) (s1 s2 : string) :
  removeAll c (s1 ++ s2)%string =
  (removeAll c s1 ++ removeAll c s2)%string.
Proof.
  induction s1 as [|d s1 IH]; simpl; [reflexivity|].
  destruct (Ascii.eqb d c); simpl; rewrite IH; reflexivity.
Qed.

Lemma upperChar_idempotent (c : ascii) :
  upperChar (upperChar c) = upperChar c.
Proof.
  destruct c as [[] [] [] [] [] [] [] []]; reflexivity.
Qed.

Lemma upperChar_no_dash (c : ascii) :
  c <> "-"%char -> upperChar c <> "-"%char.
Proof.
  destruct c as [[] [] [] [] [] [] [] []]; intros H; try discriminate;
    exact H.
Qed.

Lemma substring_all (s : string) : substring 0 (String.length s) s = s.
Proof.
  induction s as [|c s IH]; simpl; [reflexivity|]. f_equal. exact IH.
Qed.

Lemma substring_split (n : nat) (s : string) :
  (n <= String.length s)%nat ->
  (substring 0 n s ++ substring n (String.length s - n) s)%string = s.
Proof.
  revert n. induction s as [|c s IH]; intros [|n] Hn; simpl in *;
    try reflexivity; try lia.
  - change (String c (substring 0 (String.length s) s) = String c s).
    f_equal. apply substring_all.
  - change (String c (substring 0 n s
                      ++ substring n (String.length s - n) s)%string
            = String c s).
    f_equal. apply IH. lia.
Qed.

Lemma prefix_cons (c d : ascii) (word s : string) :
  String.prefix (String c word) (String d s) =
  if ascii_dec c d then String.prefix word s else false.
Proof. reflexivity. Qed.

Lemma append_cons (c : ascii) (s1 s2 : string) :
  (String c s1 ++ s2)%string = String c (s1 ++ s2)%string.
Proof. reflexivity. Qed.

Lemma prefix_spec (word s : string) :
  String.prefix word s = true <-> exists after, s = (word ++ after)%string.
Proof.
  revert s. induction word as [|c word IH]; intros s.
  - split; [|destruct s; reflexivity]. intros _. exists s. reflexivity.
  - destruct s as [|d s].
    + split; [discriminate|]. intros [after H]. discriminate.
    + rewrite prefix_cons. destruct (ascii_dec c d) as [->|Hne].
      * rewrite IH. split; intros [after H]; exists after.
        -- rewrite append_cons. congruence.
        -- rewrite append_cons in H. congruence.
      * split; [discriminate|]. intros [after H].
        rewrite append_cons in H. congruence.
Qed.

(** [includes] finds the word wherever it occurs. *)
Lemma includes_spec (s word : string) :
  includes s word = true <-> Settings.occursIn word s.
Proof.
  unfold Settings.occursIn.
  induction s as [|c s IH]; cbn [includes].
  - rewrite orb_false_r, prefix_spec. split.
    + intros [after H]. exists EmptyString, after. exact H.
    + intros ([|d before] & after & H); [eauto|discriminate].
  - rewrite orb_true_iff, prefix_spec, IH. split.
    + intros [[after H]|(before & after & ->)].
      * exists EmptyString, after. exact H.
      * exists (String c before), after. reflexivity.
    + intros ([|d before] & after & H).
      * left. exists after. exact H.
      * right. rewrite append_cons in H. injection H as -> ->. eauto.
Qed.

End StringLemmas.

(** ** Room codes: display and input *)

Section RoomCodeDisplay.
Import GameCode.

Lemma codeChar_plain (c : ascii) :
  isUpperOrDigit c = true ->
  c <> "-"%char /\ JsString.upperChar c = c /\
  JsString.isWhiteSpace c = false /\ JsString.isAsciiChar c = true.
Proof.
  destruct c as [[] [] [] [] [] [] [] []]; intros H; try discriminate H;
    repeat split; discriminate.
Qed.

Lemma wellFormedCode_isAscii (code : string) :
  wellFormedCode code -> JsString.isAscii code.
Proof.
  intros [_ Hchars]. apply List.Forall_forall. intros c Hc.
  destruct (Hchars c Hc) as (_ & _ & Hup).
  apply (codeChar_plain c Hup).
Qed.

(** A well-formed code is its own normal form. *)
Lemma normalizeGameCode_wellFormed (code : string) :
  wellFormedCode code -> normalizeGameCode code = code.
Proof.
  intros [_ Hchars]. unfold normalizeGameCode.
  assert (Hall : forall c, In c (list_ascii_of_string code) ->
            c <> "-"%char /\ JsString.upperChar c = c /\
            JsString.isWhiteSpace c = false).
  { intros c Hc. destruct (Hchars c Hc) as (_ & _ & Hup).
    destruct (codeChar_plain c Hup) as (H1 & H2 & H3 & _). auto. }
  rewrite removeAll_fixed
    by (apply List.Forall_forall; intros c Hc; apply (Hall c Hc)).
  unfold JsString.toUpperCase. rewrite mapChars_fixed
    by (apply List.Forall_forall; intros c Hc; apply (Hall c Hc)).
  apply trim_no_space.
  apply List.Forall_forall. intros c Hc. apply (Hall c Hc).
Qed.

Lemma generateGameCode_wellFormed (existingCodes : gset string)
    (maxAttempts : Z) (src : Random.Source) (code : string) :
  fst (generateGameCode existingCodes maxAttempts src) = Return code ->
  wellFormedCode code.
Proof.
  unfold generateGameCode. intros Hreturn.
  pose proof (generateGameCode_loop_spec (Z.to_nat maxAttempts)
                existingCodes src) as H.
  rewrite Hreturn in H. destruct H as (i & _ & -> & _).
  unfold attemptCode. apply generateRandomCode_wellFormed.
Qed.

Lemma removeAll_display (code : string) :
  JsString.removeAll "-"%char (formatGameCodeForDisplay code) =
  JsString.removeAll "-"%char code.
Proof.
  unfold formatGameCodeForDisplay, GAME_CODE_LENGTH.
  destruct (String.length code =? 6)%nat eqn:Hlen; [|reflexivity].
  apply Nat.eqb_eq in Hlen. cbn [negb]. cbv zeta.
  unfold JsString.sliceTo, JsString.sliceFrom.
  rewrite !removeAll_append.
  change (JsString.removeAll "-"%char "-") with EmptyString.
  change (EmptyString ++ ?x)%string with x.
  rewrite <- removeAll_append, substring_split; [reflexivity|].
  rewrite Hlen. simpl. lia.
Qed.

(** X19. The display form of a text differs from it by one dash at most: a
    text that does not have the length of a code is displayed as it is,
    a text of 6 characters gets a dash as its fourth of 7 characters,
    and without its dashes the display form is the text without its
    dashes. *)
Theorem formatGameCodeForDisplay_shape (code : string) :
  (String.length code <> 6%nat -> formatGameCodeForDisplay code = code) /\
  (String.length code = 6%nat ->
   String.length (formatGameCodeForDisplay code) = 7%nat /\
   String.get 3 (formatGameCodeForDisplay code) = Some "-"%char) /\
  JsString.removeAll "-"%char (formatGameCodeForDisplay code) =
  JsString.removeAll "-"%char code.
Proof.
  unfold formatGameCodeForDisplay, GAME_CODE_LENGTH.
  split; [|split].
  - intros Hlen.
    replace (String.length code =? 6)%nat with false
      by (symmetry; apply Nat.eqb_neq; exact Hlen).
    reflexivity.
  - intros Hlen. rewrite Hlen.
    destruct code as [|a [|b [|c [|d [|e [|f [|g rest]]]]]]];
      try discriminate Hlen.
    split; reflexivity.
  - apply removeAll_display.
Qed.

(** X20. A code typed as it is displayed is read as the code: for a text of
    ASCII characters, written with its dash or without, the normal form
    is the same; and for a code that [generateGameCode] returned, the
    normal form of its display form is the code itself. *)
Theorem normalizeGameCode_of_display (existingCodes : gset string)
    (maxAttempts : Z) (src : Random.Source) (code : string) :
  (JsString.isAscii code ->
   normalizeGameCode (formatGameCodeForDisplay code) =
   normalizeGameCode code) /\
  (fst (generateGameCode existingCodes maxAttempts src) = Return code ->
   normalizeGameCode (formatGameCodeForDisplay code) = code).
Proof.
  assert (Hsame : normalizeGameCode (formatGameCodeForDisplay code) =
                  normalizeGameCode code).
  { unfold normalizeGameCode.
    rewrite removeAll_display. reflexivity. }
  split; [intros _; exact Hsame|].
  intros Hreturn. rewrite Hsame.
  apply normalizeGameCode_wellFormed.
  apply (generateGameCode_wellFormed _ _ _ _ Hreturn).
Qed.

(** X21. Normalizing twice is normalizing once, and a normalized text of
    ASCII characters has no dash. *)
Theorem normalizeGameCode_idempotent (input : string) :
  JsString.isAscii input ->
  normalizeGameCode (normalizeGameCode input) = normalizeGameCode input /\
  ~ In "-"%char (list_ascii_of_string (normalizeGameCode input)).
Proof.
  intros _. unfold normalizeGameCode.
  set (raw := JsString.toUpperCase (JsString.removeAll "-"%char input)).
  assert (Hdash : Forall (fun c => c <> "-"%char)
                    (list_ascii_of_string raw)).
  { unfold raw, JsString.toUpperCase. rewrite mapChars_chars.
    apply Forall_map. simpl.
    pose proof (removeAll_chars "-"%char input) as H.
    revert H. apply List.Forall_impl. intros c. apply upperChar_no_dash. }
  assert (Hupper : Forall (fun c => JsString.upperChar c = c)
                     (list_ascii_of_string raw)).
  { unfold raw, JsString.toUpperCase. rewrite mapChars_chars.
    apply Forall_map. simpl. apply List.Forall_forall.
    intros c _. apply upperChar_idempotent. }
  split.
  - rewrite removeAll_fixed by (apply trim_chars; exact Hdash).
    unfold JsString.toUpperCase at 1.
    rewrite mapChars_fixed by (apply trim_chars; exact Hupper).
    apply trim_idempotent.
  - intros Hin.
    pose proof (trim_chars _ raw Hdash) as H.
    rewrite List.Forall_forall in H. apply (H _ Hin). reflexivity.
Qed.

End RoomCodeDisplay.

(** ** Player profile and game settings *)

Section SettingsStore.
Import Settings.

(** X22. The delay lies between 500 and 1200 ms, and a longer sequence never
    gets a longer delay: the fixed speeds ignore the length, the
    automatic speed goes down with it. *)
Theorem getSpeedDelay_bounds_monotone (speed : string)
    (shorter longer : Z) :
  shorter <= longer ->
  500 <= getSpeedDelay speed longer /\
  getSpeedDelay speed longer <= getSpeedDelay speed shorter /\
  getSpeedDelay speed shorter <= 1200.
Proof.
  intros Hle. unfold getSpeedDelay.
  destruct (String.eqb speed "easy"); [lia|].
  destruct (String.eqb speed "medium"); [lia|].
  destruct (String.eqb speed "hard"); [lia|].
  destruct (Z.leb_spec shorter 4), (Z.leb_spec longer 4); try lia;
    destruct (Z.leb_spec shorter 8), (Z.leb_spec longer 8); try lia;
    destruct (Z.leb_spec shorter 12), (Z.leb_spec longer 12); lia.
Qed.

Lemma validateName_cases (name : string) :
  let trimmed := JsString.trim name in
  (valid (validateName name) = true /\ error (validateName name) = None /\
   (3 <= String.length trimmed <= 20)%nat /\
   existsb (fun word =>
              JsString.includes (JsString.toLowerCase trimmed) word)
           PROFANITY_LIST = false) \/
  (valid (validateName name) = false /\
   (error (validateName name) = Some "Name is required" /\
    trimmed = EmptyString \/
    error (validateName name) = Some "Name must be at least 3 characters" /\
    (0 < String.length trimmed < 3)%nat \/
    error (validateName name) = Some "Name must be at most 20 characters" /\
    (20 < String.length trimmed)%nat \/
    error (validateName name) = Some "Please choose a different name" /\
    (3 <= String.length trimmed <= 20)%nat /\
    existsb (fun word =>
               JsString.includes (JsString.toLowerCase trimmed) word)
            PROFANITY_LIST = true)).
Proof.
  cbv zeta. unfold validateName, MIN_NAME_LENGTH, MAX_NAME_LENGTH.
  destruct (String.length (JsString.trim name) =? 0)%nat eqn:Hempty.
  { apply Nat.eqb_eq in Hempty. right. split; [reflexivity|]. left.
    split; [reflexivity|]. destruct (JsString.trim name); [reflexivity|].
    discriminate. }
  apply Nat.eqb_neq in Hempty.
  destruct (String.length (JsString.trim name) <? 3)%nat eqn:Hshort.
  { apply Nat.ltb_lt in Hshort. right. split; [reflexivity|].
    right. left. split; [reflexivity|lia]. }
  apply Nat.ltb_ge in Hshort.
  destruct (20 <? String.length (JsString.trim name))%nat eqn:Hlong.
  { apply Nat.ltb_lt in Hlong. right. split; [reflexivity|].
    right. right. left. split; [reflexivity|lia]. }
  apply Nat.ltb_ge in Hlong.
  destruct (JsString.onlyWhiteSpace name) eqn:Hspace.
  { exfalso. apply trim_onlyWhiteSpace in Hspace.
    rewrite Hspace in Hempty. simpl in Hempty. congruence. }
  destruct (existsb _ PROFANITY_LIST) eqn:Hlisted.
  - right. split; [reflexivity|]. right. right. right.
    split; [reflexivity|]. split; [lia|reflexivity].
  - left. split; [reflexivity|]. split; [reflexivity|].
    split; [lia|reflexivity].
Qed.

Lemma listed_spec (lowerName : string) :
  existsb (fun word => JsString.includes lowerName word) PROFANITY_LIST
  = false <->
  forall word, In word PROFANITY_LIST -> ~ occursIn word lowerName.
Proof.
  split.
  - intros Hnone word Hword Hocc.
    assert (H : existsb (fun word => JsString.includes lowerName word)
                  PROFANITY_LIST = true).
    { apply existsb_exists. exists word. split; [exact Hword|].
      apply includes_spec. exact Hocc. }
    congruence.
  - intros Hnone.
    destruct (existsb _ PROFANITY_LIST) eqn:H; [|reflexivity].
    apply existsb_exists in H as (word & Hword & Hinc).
    apply includes_spec in Hinc. exfalso. exact (Hnone word Hword Hinc).
Qed.

(** Only the name without the white space around it counts. *)
Lemma validateName_trim (name : string) :
  validateName (JsString.trim name) = validateName name.
Proof.
  unfold validateName. rewrite trim_idempotent.
  destruct (String.length (JsString.trim name) =? 0)%nat eqn:Hempty;
    [reflexivity|].
  apply Nat.eqb_neq in Hempty.
  assert (H1 : JsString.onlyWhiteSpace name = false).
  { destruct (JsString.onlyWhiteSpace name) eqn:Hs; [|reflexivity].
    apply trim_onlyWhiteSpace in Hs. rewrite Hs in Hempty.
    simpl in Hempty. congruence. }
  assert (H2 : JsString.onlyWhiteSpace (JsString.trim name) = false).
  { destruct (JsString.onlyWhiteSpace (JsString.trim name)) eqn:Hs;
      [|reflexivity].
    apply trim_onlyWhiteSpace in Hs. rewrite trim_idempotent in Hs.
    rewrite Hs in Hempty. simpl in Hempty. congruence. }
  rewrite H1, H2. reflexivity.
Qed.

(** X23. A name of ASCII characters is accepted exactly when, without the
    white space around it, it has 3 to 20 characters and in lower case
    contains none of the listed words; an accepted name comes with no
    error text. Only the name without the white space around it counts,
    and the answer that the name is only white space is never given: a
    name of white space is reported as missing. *)
Theorem validateName_spec (name : string) :
  JsString.isAscii name ->
  (valid (validateName name) = true <->
   (3 <= String.length (JsString.trim name) <= 20)%nat /\
   forall word, In word PROFANITY_LIST ->
     ~ occursIn word (JsString.toLowerCase (JsString.trim name))) /\
  (valid (validateName name) = true <-> error (validateName name) = None) /\
  validateName (JsString.trim name) = validateName name /\
  error (validateName name) <> Some "Name cannot be only whitespace".
Proof.
  intros _.
  pose proof (validateName_trim name) as Htrim.
  destruct (validateName_cases name)
    as [(Hvalid & Herror & Hlen & Hlisted)
       |(Hvalid & [[Herror H]|[[Herror H]|[[Herror H]|(Herror & H & Hl)]]])];
    cbv zeta in *; rewrite Hvalid, Herror;
    (split; [|split; [|split; [exact Htrim|discriminate]]]).
  - split; [intros _|reflexivity]. split; [exact Hlen|].
    apply listed_spec. exact Hlisted.
  - split; reflexivity.
  - split; [discriminate|]. intros [Hlen _]. rewrite H in Hlen.
    simpl in Hlen. lia.
  - split; discriminate.
  - split; [discriminate|]. intros [Hlen _]. lia.
  - split; discriminate.
  - split; [discriminate|]. intros [Hlen _]. lia.
  - split; discriminate.
  - split; [discriminate|]. intros [_ Hnone].
    apply listed_spec in Hnone. congruence.
  - split; discriminate.
Qed.

(** X24. [setPlayerName] stores nothing for a name that [validateName]
    rejects and hands its error text on; for a name it accepts, it
    stores the name without the white space around it, touches no other
    setting, and what it stored passes [validateName] again. *)
Theorem setPlayerName_spec (st : SettingsState) (name : string) :
  JsString.isAscii name ->
  let result := fst (setPlayerName st name) in
  let st' := snd (setPlayerName st name) in
  (valid (validateName name) = false ->
   st' = st /\ success result = false /\
   failure result = error (validateName name)) /\
  (valid (validateName name) = true ->
   success result = true /\ failure result = None /\
   playerName st' = JsString.trim name /\
   valid (validateName (playerName st')) = true /\
   (hasCompletedSetup st', gameSpeed st', soundEnabled st',
    soundTheme st', vibrationEnabled st') =
   (hasCompletedSetup st, gameSpeed st, soundEnabled st,
    soundTheme st, vibrationEnabled st)).
Proof.
  intros Hascii. cbv zeta. unfold setPlayerName.
  destruct (valid (validateName name)) eqn:Hvalid; simpl.
  - split; [discriminate|]. intros _. repeat split.
    rewrite validateName_trim. exact Hvalid.
  - split; [|discriminate]. intros _. repeat split.
Qed.

(** X25. Whatever actions the store went through from its initial state,
    the names given to [setPlayerName] being made of ASCII characters,
    the player name it holds is empty or passes [validateName], has no
    white space around it, and the game speed and the sound theme are
    among the values the store knows. *)
Theorem reachable_settings (st : SettingsState) :
  reachable st ->
  (playerName st = EmptyString \/
   valid (validateName (playerName st)) = true) /\
  JsString.trim (playerName st) = playerName st /\
  In (gameSpeed st) ["auto"; "easy"; "medium"; "hard"] /\
  In (soundTheme st) ["original"; "piano"; "dramatic"].
Proof.
  induction 1 as [|st name Hascii _ IH|st _ IH|st speed _ IH
                  |st enabled _ IH|st theme _ IH|st enabled _ IH|st _ IH].
  - simpl. intuition.
  - unfold setPlayerName.
    destruct (valid (validateName name)) eqn:Hvalid; simpl; [|exact IH].
    destruct IH as (_ & _ & Hspeed & Htheme).
    split; [|split; [apply trim_idempotent|auto]].
    right.
    rewrite validateName_trim. exact Hvalid.
  - exact IH.
  - destruct IH as (Hname & Htrim & _ & Htheme).
    unfold setGameSpeed.
    destruct (existsb (String.eqb speed) _) eqn:Hknown; simpl.
    + apply existsb_exists in Hknown as (x & Hx & Heq).
      apply String.eqb_eq in Heq. subst x. auto.
    + intuition.
  - exact IH.
  - destruct IH as (Hname & Htrim & Hspeed & _).
    unfold setSoundTheme.
    destruct (existsb (String.eqb theme) _) eqn:Hknown; simpl.
    + apply existsb_exists in Hknown as (x & Hx & Heq).
      apply String.eqb_eq in Heq. subst x. auto.
    + intuition.
  - exact IH.
  - destruct IH as (Hname & Htrim & _ & _). simpl. intuition.
Qed.

End SettingsStore.

(** ** Random colours and the edges of code generation *)

Section RandomDraws.

(** X8. The index [Math.floor(Math.random() * COLORS.length)] is always
    within [COLORS], so [getRandomColor] returns the colour at that
    index, with one draw made; [extendSequence] appends the colour that
    [getRandomColor] returns from the same random source. *)
Theorem getRandomColor_in_range (src : Random.Source)
    (sequence : list Color) :
  let i := Random.floor_scaled (Random.draws src (Random.position src))
             (length COLORS) in
  (i < length COLORS)%nat /\
  nth_error COLORS i = Some (fst (ColorRace.getRandomColor src)) /\
  Random.position (snd (ColorRace.getRandomColor src)) =
    S (Random.position src) /\
  Simon.extendSequence sequence src =
    (sequence ++ [fst (ColorRace.getRandomColor src)],
     snd (ColorRace.getRandomColor src)).
Proof.
  cbv zeta. split; [apply floor_scaled_lt; simpl; lia|].
  split; [apply random_color_index_in_range|].
  split; reflexivity.
Qed.

(** X18. With a bound of 0 or less [generateGameCode] throws without a draw,
    even when no code is in use. When the code of the first attempt is
    free, and the bound is 1 at least, it returns that code after the 6
    draws of one attempt; with no code in use this is always so. *)
Theorem generateGameCode_edges (existingCodes : gset string)
    (maxAttempts : Z) (src : Random.Source) :
  (maxAttempts <= 0 ->
   exists message,
     GameCode.generateGameCode existingCodes maxAttempts src =
     (GameCode.Throw message, src)) /\
  (1 <= maxAttempts ->
   GameCode.attemptCode src 0 ∉ existingCodes ->
   GameCode.generateGameCode existingCodes maxAttempts src =
   (GameCode.Return (GameCode.attemptCode src 0),
    GameCode.afterAttempts 1 src)) /\
  (1 <= maxAttempts ->
   existingCodes = ∅ ->
   fst (GameCode.generateGameCode existingCodes maxAttempts src) =
   GameCode.Return (GameCode.attemptCode src 0)).
Proof.
  unfold GameCode.generateGameCode.
  assert (Hfirst : 1 <= maxAttempts ->
            GameCode.attemptCode src 0 ∉ existingCodes ->
            GameCode.generateGameCode_loop (Z.to_nat maxAttempts)
              existingCodes src =
            (GameCode.Return (GameCode.attemptCode src 0),
             GameCode.afterAttempts 1 src)).
  { intros Hbound Hfree.
    destruct (Z.to_nat maxAttempts) as [|n] eqn:Hn; [lia|].
    cbn [GameCode.generateGameCode_loop].
    assert (Hcode : GameCode.attemptCode src 0 =
                    fst (GameCode.generateRandomCode src)).
    { unfold GameCode.attemptCode.
      change (0 * GameCode.GAME_CODE_LENGTH)%nat with 0%nat.
      rewrite advance_0. reflexivity. }
    pose proof (proj2 (generateRandomCode_wellFormed src)) as Hsrc.
    destruct (GameCode.generateRandomCode src) as [code src'].
    simpl in Hcode, Hsrc. subst code src'.
    rewrite (bool_decide_eq_false_2 _ Hfree).
    unfold GameCode.afterAttempts.
    change (1 * GameCode.GAME_CODE_LENGTH)%nat
      with GameCode.GAME_CODE_LENGTH.
    reflexivity. }
  split; [|split].
  - intros Hbound. replace (Z.to_nat maxAttempts) with 0%nat by lia.
    eexists. reflexivity.
  - exact Hfirst.
  - intros Hbound ->. rewrite Hfirst; [reflexivity|exact Hbound|].
    apply not_elem_of_empty.
Qed.

End RandomDraws.

(** * The further properties at work on concrete inputs *)

Section FurtherScenarios.

(** "should sort players by score descending", "should assign correct
    ranks" *)
Example leaderboard_sorted :
  map (fun e => (Leaderboard.playerId (Leaderboard.ranked e),
                 Leaderboard.score (Leaderboard.ranked e),
                 Leaderboard.rank e))
      (Leaderboard.getLeaderboard Samples.finalBoard) =
  [("player-2", 3, 1); ("player-3", 2, 2); ("player-1", 1, 3)].
Proof. reflexivity. Qed.

(** "ABC123" -> "ABC-123" *)
Example display_of_code :
  GameCode.formatGameCodeForDisplay "ABC123" = "ABC-123" /\
  GameCode.formatGameCodeForDisplay "ABC12" = "ABC12" /\
  GameCode.normalizeGameCode " abc-123 " = "ABC123".
Proof. repeat split; reflexivity. Qed.

Example names_checked :
  Settings.validateName "  " =
    {| Settings.valid := false;
       Settings.error := Some "Name is required" |} /\
  Settings.validateName "Al" =
    {| Settings.valid := false;
       Settings.error := Some "Name must be at least 3 characters" |} /\
  Settings.validateName " Alice " =
    {| Settings.valid := true; Settings.error := None |}.
Proof. repeat split; reflexivity. Qed.

End FurtherScenarios.

Section FurtherWitnesses.

Lemma twoPlayers_plain : ~ In "__proto__" (map id Samples.twoPlayers).
Proof. simpl. intros [H|[H|[]]]; discriminate H. Defined.

Lemma threeRounds_plain :
  Forall (ColorRace.plainAnswers Samples.twoPlayers) Samples.threeRounds.
Proof.
  repeat constructor; left; simpl; auto.
Defined.

Lemma leaderboard_top_is_winner_witness :
  JsObject.wf (ColorRace.scores Samples.tiedBoard) /\
  ColorRace.determineWinner Samples.tiedBoard =
    Some {| ColorRace.winnerId := "player-2";
            ColorRace.winnerScore := 2 |} /\
  hd_error (Leaderboard.getLeaderboard Samples.tiedBoard) =
    Some {| Leaderboard.ranked :=
              {| Leaderboard.playerId := "player-2";
                 Leaderboard.score := 2 |};
            Leaderboard.rank := 1 |}.
Proof.
  assert (Hwf : JsObject.wf (ColorRace.scores Samples.tiedBoard)).
  { unfold JsObject.wf. simpl. repeat (apply NoDup_cons_2);
      [| |apply not_elem_of_nil|constructor];
      rewrite list_elem_of_In; simpl; intuition discriminate. }
  split; [exact Hwf|]. split; [reflexivity|].
  apply (leaderboard_top_is_winner Samples.tiedBoard
           {| ColorRace.winnerId := "player-2";
              ColorRace.winnerScore := 2 |} Hwf).
  - reflexivity.
  - simpl. lia.
Defined.

Lemma processRound_points_witness :
  let g' := fst (ColorRace.processRound Samples.redRound Samples.redAnswers
                   Samples.zeroSource) in
  existsb (ColorRace.validateAnswer Samples.redRound) Samples.redAnswers
    = true /\
  exists a, In a Samples.redAnswers /\
            JsObject.plainKey (ColorRace.scores Samples.redRound)
              (ColorRace.playerId a) = true /\
            ColorRace.roundWinner g' = Some (ColorRace.playerId a) /\
            ColorRace.totalScore (ColorRace.scores g') =
            ColorRace.totalScore (ColorRace.scores Samples.redRound) + 1.
Proof.
  cbv zeta. split; [reflexivity|].
  destruct (proj1 (processRound_points Samples.redRound Samples.redAnswers
                     Samples.zeroSource) eq_refl)
    as (a & Hin & _ & Hwinner & Hpoints).
  assert (Hplain : JsObject.plainKey (ColorRace.scores Samples.redRound)
                     (ColorRace.playerId a) = true).
  { destruct Hin as [<-|[<-|[<-|[]]]]; reflexivity. }
  exists a. split; [exact Hin|]. split; [exact Hplain|].
  split; [exact Hwinner|exact (Hpoints Hplain)].
Defined.

Lemma playRounds_round_phase_witness :
  let g' := fst (ColorRace.playRounds Samples.redRound Samples.threeRounds
                   Samples.zeroSource) in
  Samples.threeRounds <> [] /\
  ColorRace.round Samples.redRound
    <= ColorRace.totalRounds Samples.redRound /\
  ColorRace.round g' = 4 /\
  ColorRace.phase g' = ColorRace.showing_color.
Proof.
  cbv zeta.
  assert (H1 : Samples.threeRounds <> []) by discriminate.
  assert (H2 : ColorRace.round Samples.redRound
               <= ColorRace.totalRounds Samples.redRound)
    by (simpl; lia).
  split; [exact H1|]. split; [exact H2|].
  apply (playRounds_round_phase Samples.redRound Samples.threeRounds
           Samples.zeroSource H1 H2).
Defined.

Lemma playRounds_has_winner_witness :
  let g := fst (ColorRace.playRounds
                  (fst (ColorRace.initializeColorRaceGame
                          Samples.twoPlayers Samples.zeroSource))
                  Samples.threeRounds Samples.zeroSource) in
  Samples.twoPlayers <> [] /\
  ColorRace.plainPlayers Samples.twoPlayers /\
  Forall (ColorRace.plainAnswers Samples.twoPlayers) Samples.threeRounds /\
  exists w, ColorRace.determineWinner g = Some w /\
            ColorRace.topScorer (ColorRace.scores g)
              (ColorRace.winnerId w) (ColorRace.winnerScore w) /\
            0 <= ColorRace.winnerScore w.
Proof.
  cbv zeta.
  assert (H : Samples.twoPlayers <> []) by discriminate.
  pose proof twoPlayers_plain as Hplayers.
  pose proof threeRounds_plain as Hrounds.
  split; [exact H|]. split; [exact Hplayers|]. split; [exact Hrounds|].
  apply (playRounds_has_winner Samples.twoPlayers Samples.threeRounds
           Samples.zeroSource Samples.zeroSource H Hplayers Hrounds).
Defined.

Lemma playRounds_scores_witness :
  let g := fst (ColorRace.playRounds
                  (fst (ColorRace.initializeColorRaceGame
                          Samples.twoPlayers Samples.zeroSource))
                  Samples.threeRounds Samples.zeroSource) in
  ColorRace.plainPlayers Samples.twoPlayers /\
  Forall (ColorRace.plainAnswers Samples.twoPlayers) Samples.threeRounds /\
  0 <= ColorRace.totalScore (ColorRace.scores g) <= 3.
Proof.
  cbv zeta.
  pose proof twoPlayers_plain as Hplayers.
  pose proof threeRounds_plain as Hrounds.
  split; [exact Hplayers|]. split; [exact Hrounds|].
  apply (playRounds_scores Samples.twoPlayers Samples.threeRounds
           Samples.zeroSource Samples.zeroSource Hplayers Hrounds).
Defined.

Lemma generateSequence_extendSequence_witness :
  0 <= 2 /\
  Simon.extendSequence
    (fst (Simon.generateSequence 2 Samples.countingSource))
    (snd (Simon.generateSequence 2 Samples.countingSource)) =
  Simon.generateSequence 3 Samples.countingSource.
Proof.
  assert (H : 0 <= 2) by lia.
  split; [exact H|].
  apply (proj2 (proj2 (generateSequence_extendSequence 2
                         Samples.countingSource)) H).
Defined.

Lemma initializeSimonGame_players_witness :
  let s := fst (Simon.initializeSimonGame Samples.twoPlayers
                  Samples.zeroSource) in
  NoDup (map id Samples.twoPlayers) /\
  ~ In "__proto__" (map id Samples.twoPlayers) /\
  Simon.getActivePlayerCount s = 2%nat /\
  Simon.shouldGameEnd s = false.
Proof.
  cbv zeta.
  assert (H : NoDup (map id Samples.twoPlayers)).
  { simpl. repeat (apply NoDup_cons_2);
      [|apply not_elem_of_nil|constructor].
    rewrite list_elem_of_In. simpl. intuition discriminate. }
  pose proof twoPlayers_plain as Hplain.
  split; [exact H|]. split; [exact Hplain|].
  destruct (initializeSimonGame_players Samples.twoPlayers
              Samples.zeroSource H Hplain) as (_ & _ & Hcount & Hend & _).
  split; [exact Hcount|exact Hend].
Defined.

Lemma eliminatePlayer_count_witness :
  JsObject.get (Simon.playerStates Samples.midRound) "player-1" =
    Some (snd (Samples.simonPlayer "player-1" Simon.playing 1 None)) /\
  S (Simon.getActivePlayerCount
       (Simon.eliminatePlayer Samples.midRound "player-1" 2)) =
  Simon.getActivePlayerCount Samples.midRound.
Proof.
  split; [reflexivity|].
  apply (proj1 (eliminatePlayer_count Samples.midRound "player-1" 2)
           (snd (Samples.simonPlayer "player-1" Simon.playing 1 None)));
    reflexivity.
Defined.

Lemma active_count_never_grows_witness :
  let s := fst (Simon.initializeSimonGame Samples.twoPlayers
                  Samples.zeroSource) in
  let s' := Simon.updatePlayerProgress
              (Simon.eliminatePlayer s "player-2" 1) "player-1" in
  Simon.reachable Simon.op_step s /\ Simon.op_steps s s' /\
  (Simon.getActivePlayerCount s' <= Simon.getActivePlayerCount s)%nat.
Proof.
  cbv zeta.
  assert (H1 : Simon.reachable Simon.op_step
                 (fst (Simon.initializeSimonGame Samples.twoPlayers
                         Samples.zeroSource)))
    by apply Simon.reach_init.
  assert (H2 : Simon.op_steps
                 (fst (Simon.initializeSimonGame Samples.twoPlayers
                         Samples.zeroSource))
                 (Simon.updatePlayerProgress
                    (Simon.eliminatePlayer
                       (fst (Simon.initializeSimonGame Samples.twoPlayers
                               Samples.zeroSource))
                       "player-2" 1) "player-1")).
  { eapply Simon.osteps_step; [eapply Simon.osteps_step|].
    - apply Simon.osteps_refl.
    - apply Simon.ostep_eliminate.
    - apply Simon.ostep_progress. }
  split; [exact H1|]. split; [exact H2|].
  apply (active_count_never_grows _ _ H1 H2).
Defined.


Lemma reachable_timeout_witness :
  let s := fst (Simon.advanceToNextRound
                  (fst (Simon.initializeSimonGame Samples.twoPlayers
                          Samples.zeroSource))
                  Samples.zeroSource) in
  Simon.reachable Simon.op_step s /\
  1 <= Simon.round s /\
  Simon.timeoutMs s = Simon.timeoutOfRound (Simon.round s) /\
  1500 <= Simon.timeoutMs s <= 5000.
Proof.
  cbv zeta.
  assert (H : Simon.reachable Simon.op_step
                (fst (Simon.advanceToNextRound
                        (fst (Simon.initializeSimonGame Samples.twoPlayers
                                Samples.zeroSource))
                        Samples.zeroSource))).
  { eapply Simon.reach_step; [apply Simon.reach_init|].
    apply Simon.ostep_advance. }
  split; [exact H|]. apply (reachable_timeout _ H).
Defined.

Lemma finished_game_has_winner_witness :
  let s := Simon.eliminatePlayer
             (fst (Simon.initializeSimonGame Samples.twoPlayers
                     Samples.zeroSource)) "player-2" 1 in
  Simon.plain_run s /\
  Simon.shouldGameEnd s = true /\
  exists w ps, Simon.getWinner s = Some w /\
               JsObject.get (Simon.playerStates s) w = Some ps /\
               Simon.playerId ps = w /\
               (Simon.status ps = Simon.playing \/
                Simon.activePlayers s = []).
Proof.
  cbv zeta.
  assert (H : Simon.plain_run
                (Simon.eliminatePlayer
                   (fst (Simon.initializeSimonGame Samples.twoPlayers
                           Samples.zeroSource)) "player-2" 1)).
  { eapply Simon.prun_step;
      [apply Simon.prun_init; exact twoPlayers_plain|].
    apply Simon.pstep_eliminate. reflexivity. }
  split; [exact H|]. split; [reflexivity|].
  apply (finished_game_has_winner _ H).
  - discriminate.
  - reflexivity.
  - intros ps r [<-|[<-|[]]] [= <-]. lia.
Defined.

Lemma formatGameCodeForDisplay_shape_witness :
  String.length "AEHMPR" = 6%nat /\
  String.length (GameCode.formatGameCodeForDisplay "AEHMPR") = 7%nat /\
  String.get 3 (GameCode.formatGameCodeForDisplay "AEHMPR") =
    Some "-"%char /\
  String.length "AEHMP" <> 6%nat /\
  GameCode.formatGameCodeForDisplay "AEHMP" = "AEHMP".
Proof.
  assert (H : String.length "AEHMPR" = 6%nat) by reflexivity.
  assert (H' : String.length "AEHMP" <> 6%nat) by discriminate.
  split; [exact H|].
  destruct (proj1 (proj2 (formatGameCodeForDisplay_shape "AEHMPR")) H)
    as [Hlen Hdash].
  split; [exact Hlen|]. split; [exact Hdash|]. split; [exact H'|].
  apply (proj1 (formatGameCodeForDisplay_shape "AEHMP") H').
Defined.

Lemma normalizeGameCode_of_display_witness :
  fst (GameCode.generateGameCode ∅ 100 Samples.countingSource) =
    GameCode.Return "AEHMPR" /\
  GameCode.normalizeGameCode (GameCode.formatGameCodeForDisplay "AEHMPR") =
    "AEHMPR".
Proof.
  assert (H : fst (GameCode.generateGameCode ∅ 100 Samples.countingSource)
              = GameCode.Return "AEHMPR") by (vm_compute; reflexivity).
  split; [exact H|].
  apply (proj2 (normalizeGameCode_of_display ∅ 100 Samples.countingSource
                  "AEHMPR") H).
Defined.

Lemma normalizeGameCode_idempotent_witness :
  JsString.isAscii " abc-123 " /\
  GameCode.normalizeGameCode (GameCode.normalizeGameCode " abc-123 ") =
  GameCode.normalizeGameCode " abc-123 ".
Proof.
  assert (H : JsString.isAscii " abc-123 ")
    by (unfold JsString.isAscii; simpl; repeat constructor).
  split; [exact H|].
  apply (proj1 (normalizeGameCode_idempotent " abc-123 " H)).
Defined.

Lemma getSpeedDelay_bounds_monotone_witness :
  5 <= 13 /\
  500 <= Settings.getSpeedDelay "auto" 13 /\
  Settings.getSpeedDelay "auto" 13 <= Settings.getSpeedDelay "auto" 5 /\
  Settings.getSpeedDelay "auto" 5 <= 1200.
Proof.
  assert (H : 5 <= 13) by lia.
  split; [exact H|].
  apply (getSpeedDelay_bounds_monotone "auto" 5 13 H).
Defined.

Lemma validateName_spec_witness :
  JsString.isAscii " Alice " /\
  Settings.validateName (JsString.trim " Alice ") =
  Settings.validateName " Alice ".
Proof.
  assert (H : JsString.isAscii " Alice ")
    by (unfold JsString.isAscii; simpl; repeat constructor).
  split; [exact H|].
  apply (proj1 (proj2 (proj2 (validateName_spec " Alice " H)))).
Defined.

Lemma setPlayerName_spec_witness :
  JsString.isAscii " Alice " /\
  Settings.valid (Settings.validateName " Alice ") = true /\
  Settings.playerName
    (snd (Settings.setPlayerName Settings.initialState " Alice ")) =
  "Alice".
Proof.
  assert (H : JsString.isAscii " Alice ")
    by (unfold JsString.isAscii; simpl; repeat constructor).
  assert (Hvalid : Settings.valid (Settings.validateName " Alice ") = true)
    by reflexivity.
  split; [exact H|]. split; [exact Hvalid|].
  destruct (proj2 (setPlayerName_spec Settings.initialState " Alice " H)
              Hvalid) as (_ & _ & Hname & _).
  exact Hname.
Defined.

Lemma reachable_settings_witness :
  let st := Settings.setGameSpeed
              (snd (Settings.setPlayerName Settings.initialState " Alice "))
              "turbo" in
  Settings.reachable st /\
  In (Settings.gameSpeed st) ["auto"; "easy"; "medium"; "hard"] /\
  JsString.trim (Settings.playerName st) = Settings.playerName st.
Proof.
  cbv zeta.
  assert (H : Settings.reachable
                (Settings.setGameSpeed
                   (snd (Settings.setPlayerName Settings.initialState
                           " Alice ")) "turbo")).
  { apply Settings.reach_setGameSpeed.
    apply Settings.reach_setPlayerName.
    - unfold JsString.isAscii. simpl. repeat constructor.
    - apply Settings.reach_initial. }
  split; [exact H|].
  destruct (reachable_settings _ H) as (_ & Htrim & Hspeed & _).
  split; [exact Hspeed|exact Htrim].
Defined.

Lemma generateGameCode_edges_witness :
  1 <= 100 /\
  fst (GameCode.generateGameCode ∅ 100 Samples.countingSource) =
  GameCode.Return (GameCode.attemptCode Samples.countingSource 0).
Proof.
  assert (H : 1 <= 100) by lia.
  split; [exact H|].
  apply (proj2 (proj2 (generateGameCode_edges ∅ 100
                         Samples.countingSource)) H).
  reflexivity.
Defined.

End FurtherWitnesses.
